(** * LRcom signaling hub: a shallow embedding of the server and its properties

    The development follows the server source (the WebSocket hub with rooms,
    chat, push subscriptions and the per-connection rate limiter).

    - JavaScript strings are sequences of UTF-16 code units ([list N]).
    - The four [Map]s of the server are finite maps ([gmap]); a [Set] of room
      members is a [gset].  A broadcast walks the users map; the order in
      which one broadcast reaches different sockets is the enumeration
      order of the finite map.
    - Every handler is a function from the hub state to the new state and
      the list of effects it performed: frames really written to a socket
      ([ws.send]) and notifications really handed to the push gateway.
    - Clock readings and random identifiers are inputs of a step ([Env]).

    A frame reaches its handler only past the rate limiter, and [send]
    writes to a socket only while it is open.  The properties of a handler
    are therefore stated for frames the limiter lets through
    ([dispatched]) and, where someone is said to receive a frame, for an
    open socket; the state a handler starts from is the one in which the
    limiter has counted the frame ([counted]). *)

From stdpp Require Import gmap strings list fin_maps fin_sets.
From Stdlib Require Import ZArith NArith Lia.

#[local] Set Warnings "-register-all".

(** ** JavaScript strings *)

Abbreviation jsstring := (list N).

Module Js.

(** A literal of the source, as code units. *)
Definition js (s : string) : jsstring :=
  Ascii.N_of_ascii <$> String.list_ascii_of_string s.

Definition in_range (lo hi c : N) : bool := (lo <=? c)%N && (c <=? hi)%N.

(** [String.prototype.trim] strips WhiteSpace and LineTerminator code
    points: TAB, LF, VT, FF, CR, SP, NBSP, OGHAM SPACE, U+2000..U+200A,
    LS, PS, NNBSP, MMSP, IDEOGRAPHIC SPACE and the BOM. *)
Definition is_space (c : N) : bool :=
  in_range 9 13 c || (c =? 32)%N || (c =? 160)%N || (c =? 5760)%N
  || in_range 8192 8202 c || (c =? 8232)%N || (c =? 8233)%N
  || (c =? 8239)%N || (c =? 8287)%N || (c =? 12288)%N || (c =? 65279)%N.

Fixpoint trimStart (s : jsstring) : jsstring :=
  match s with
  | c :: s' => if is_space c then trimStart s' else s
  | [] => []
  end.

Definition trimEnd (s : jsstring) : jsstring :=
  reverse (trimStart (reverse s)).

Definition trim (s : jsstring) : jsstring := trimEnd (trimStart s).

Fixpoint startsWith (s p : jsstring) : bool :=
  match p, s with
  | [], _ => true
  | c :: p', d :: s' => (c =? d)%N && startsWith s' p'
  | _ :: _, [] => false
  end.

(** [s.indexOf(c)] for a one-unit needle, on the suffix starting at
    [pos]; [None] is the source's -1. *)
Fixpoint index_from (c : N) (s : jsstring) (i : nat) : option nat :=
  match s with
  | [] => None
  | d :: s' => if (d =? c)%N then Some i else index_from c s' (S i)
  end.

Definition indexOf (s : jsstring) (c : N) (pos : nat) : option nat :=
  index_from c (drop pos s) pos.

(** [s.slice(a, b)] and [s.slice(a)] for non-negative indices. *)
Definition slice (s : jsstring) (a b : nat) : jsstring :=
  take (b - a) (drop a s).
Definition sliceFrom (s : jsstring) (a : nat) : jsstring := drop a s.

(** Truthiness of a string value: the empty string is falsy. *)
Definition truthy (s : jsstring) : bool :=
  match s with [] => false | _ => true end.

(** Truthiness of a value that is [null] or a string. *)
Definition truthyO (o : option jsstring) : bool :=
  match o with Some s => truthy s | None => false end.

End Js.
Import Js.

(** ** Parsed JSON values

    [JSON.parse] is the platform's; a frame reaches the handler either as a
    parse failure or as one of these values.  An object is its list of
    own properties; [field] is property access. *)

Inductive json : Type :=
| JNull
| JBool (b : bool)
| JNum (n : Z)  (* the server never looks into a number; 0 is the falsy one *)
| JStr (s : jsstring)
| JArr (items : list json)
| JObj (props : list (jsstring * json)).

Fixpoint assoc (k : jsstring) (props : list (jsstring * json)) : option json :=
  match props with
  | [] => None
  | (k', v) :: rest => if decide (k' = k) then Some v else assoc k rest
  end.

(** [msg.k]; [None] is [undefined].  Primitive and array values have none
    of the properties the server reads. *)
Definition field (msg : json) (k : string) : option json :=
  match msg with
  | JObj props => assoc (js k) props
  | _ => None
  end.

(** [typeof v === 'string' ? v : null] *)
Definition stringOrNull (v : option json) : option jsstring :=
  match v with Some (JStr s) => Some s | _ => None end.

(** [v && typeof v === 'object'] *)
Definition isObject (v : option json) : bool :=
  match v with Some (JObj _) | Some (JArr _) => true | _ => false end.

(** [!msg] *)
Definition falsy (v : json) : bool :=
  match v with
  | JNull | JBool false | JNum 0 | JStr [] => true
  | _ => false
  end.

(** ** Identity and validation *)

(** The character class [[a-zA-Z0-9 _\-\.]] of [safeName]. *)
Definition name_char (c : N) : bool :=
  in_range 97 122 c || in_range 65 90 c || in_range 48 57 c
  || (c =? 32)%N || (c =? 95)%N || (c =? 45)%N || (c =? 46)%N.

(** The class [[\u0000-\u0008\u000B\u000C\u000E-\u001F\u007F]] of
    [safeChatText]. *)
Definition chat_control (c : N) : bool :=
  in_range 0 8 c || (c =? 11)%N || (c =? 12)%N || in_range 14 31 c
  || (c =? 127)%N.

Definition safeName (input : option json) : option jsstring :=
  match input with
  | Some (JStr s) =>
      let trimmed := trim s in
      if (length trimmed <? 1) || (32 <? length trimmed) then None
      else if negb (truthy trimmed && forallb name_char trimmed) then None
      else Some trimmed
  | _ => None
  end.

Definition safeChatText (input : option json) : option jsstring :=
  match input with
  | Some (JStr s) =>
      let trimmed := trim s in
      if (length trimmed <? 1) || (500 <? length trimmed) then None
      else if existsb chat_control trimmed then None
      else Some trimmed
  | _ => None
  end.

Definition quote : N := 34.
Definition space : N := 32.

Definition parsePrivatePrefix (text : jsstring) : option (jsstring * jsstring) :=
  if negb (startsWith text (js "@")) then None
  else if startsWith text (js "@" ++ [quote]) then
    match indexOf text quote 2 with
    | None => None
    | Some closing =>
        let toName := slice text 2 closing in
        let rest := sliceFrom text (closing + 1) in
        if negb (startsWith rest (js " ")) then None
        else
          let body := trim rest in
          if negb (truthy toName) || negb (truthy body) then None
          else Some (toName, body)
    end
  else
    match indexOf text space 0 with
    | None => None
    | Some firstSpace =>
        let toName := slice text 1 firstSpace in
        let body := trim (sliceFrom text (firstSpace + 1)) in
        if negb (truthy toName) || negb (truthy body) then None
        else Some (toName, body)
    end.

Example parse_plain :
  parsePrivatePrefix (js "@Bob hi") = Some (js "Bob", js "hi").
Proof. reflexivity. Qed.

Example parse_quoted :
  parsePrivatePrefix (js "@" ++ [quote] ++ js "Bob S" ++ [quote] ++ js " hi  ")
  = Some (js "Bob S", js "hi").
Proof. reflexivity. Qed.

Example parse_no_body : parsePrivatePrefix (js "@Bob ") = None.
Proof. reflexivity. Qed.

Example chat_keeps_newline :
  safeChatText (Some (JStr (js " a" ++ [10%N] ++ js "b "))) = Some (js "a" ++ [10%N] ++ js "b").
Proof. reflexivity. Qed.

Example name_rejects_at : safeName (Some (JStr (js "a@b"))) = None.
Proof. reflexivity. Qed.

(** ** Hub state *)

(** [user._rl]: the rate limiter's window. *)
Record RateWindow := { windowStart : Z; count : Z }.

Module User.
(** [{ id, name, ws, lastMsgAt, roomId, _rl }]; of the socket [ws] the
    server reads [readyState] only (1 is OPEN). *)
Record t := mk {
  id : jsstring;
  name : option jsstring;
  readyState : N;
  lastMsgAt : Z;
  roomId : option jsstring;
  _rl : option RateWindow;
}.
Definition set_name (v : option jsstring) (u : t) : t :=
  mk (id u) v (readyState u) (lastMsgAt u) (roomId u) (_rl u).
Definition set_roomId (v : option jsstring) (u : t) : t :=
  mk (id u) (name u) (readyState u) (lastMsgAt u) v (_rl u).
Definition set_rl (v : option RateWindow) (u : t) : t :=
  mk (id u) (name u) (readyState u) (lastMsgAt u) (roomId u) v.
Definition set_readyState (v : N) (u : t) : t :=
  mk (id u) (name u) v (lastMsgAt u) (roomId u) (_rl u).
(** [ws.readyState === 1] *)
Definition open (u : t) : bool := (readyState u =? 1)%N.
End User.

Module Room.
(** [{ id, members: Set<string> }] *)
Record t := mk { id : jsstring; members : gset jsstring }.
Definition set_members (v : gset jsstring) (r : t) : t := mk (id r) v.
End Room.

(** The process environment the handlers read. *)
Record Config := {
  PUSH_ENABLED : bool;
  (** [getTurnHostLabel()], computed from [TURN_URLS] once *)
  turnHostLabel : option jsstring;
  (** [Number(process.env...)]; [None] is a value that is not finite.  A
      finite value is taken to be an integer, as a port number is. *)
  TURN_RELAY_MIN_PORT : option Z;
  TURN_RELAY_MAX_PORT : option Z;
}.

(** What a step reads from outside: [Date.now()], [new Date()] of the chat
    stamp, and the result of [makeId()]. *)
Record Env := { now : Z; atIso : Z; makeId : jsstring }.

Record Hub := {
  users : gmap jsstring User.t;
  nameToId : gmap jsstring jsstring;
  rooms : gmap jsstring Room.t;
  pushSubscriptions : gmap jsstring json;
}.

Definition with_users (f : gmap jsstring User.t → gmap jsstring User.t) (h : Hub) : Hub :=
  {| users := f (users h); nameToId := nameToId h; rooms := rooms h;
     pushSubscriptions := pushSubscriptions h |}.
Definition with_nameToId (f : gmap jsstring jsstring → gmap jsstring jsstring) (h : Hub) : Hub :=
  {| users := users h; nameToId := f (nameToId h); rooms := rooms h;
     pushSubscriptions := pushSubscriptions h |}.
Definition with_rooms (f : gmap jsstring Room.t → gmap jsstring Room.t) (h : Hub) : Hub :=
  {| users := users h; nameToId := nameToId h; rooms := f (rooms h);
     pushSubscriptions := pushSubscriptions h |}.
Definition with_push (f : gmap jsstring json → gmap jsstring json) (h : Hub) : Hub :=
  {| users := users h; nameToId := nameToId h; rooms := rooms h;
     pushSubscriptions := f (pushSubscriptions h) |}.

Definition empty_hub : Hub :=
  {| users := ∅; nameToId := ∅; rooms := ∅; pushSubscriptions := ∅ |}.

(** ** Outbound frames and effects *)

Inductive ErrorCode :=
| RATE_LIMIT | BAD_JSON | BAD_MESSAGE | NO_NAME | BAD_CHAT
| PM_NOT_FOUND | PM_SELF | UNKNOWN_TYPE.

Inductive NameFailure := invalid | taken.
Inductive StartFailure := not_found | self | not_ready | busy.

Record VoiceStats := {
  turnHost : option jsstring;
  relayPortsTotal : option Z;
  relayPortsUsedEstimate : Z;
  capacityCallsEstimate : option Z;
  maxConferenceUsersEstimate : option Z;
  activeCalls : Z;
}.

Record ChatMsg := {
  chat_atIso : Z;
  chat_from : option jsstring;
  chat_fromName : option jsstring;
  chat_to : option jsstring;
  chat_toName : option jsstring;
  chat_text : jsstring;
  chat_private : bool;
}.

(** [{ id, name }] of a peer, [{ id, name, busy }] of a presence entry *)
Definition Peer : Type := jsstring * option jsstring.
Definition PresenceEntry : Type := jsstring * option jsstring * bool.

Inductive Frame :=
| hello (id : jsstring) (voice : VoiceStats)
| error (code : ErrorCode)
| nameResult_ok (name : jsstring)
| nameResult_fail (reason : NameFailure)
| presence (list : list PresenceEntry) (voice : VoiceStats)
| chat (m : ChatMsg)
| incomingCall (from : jsstring) (fromName : option jsstring) (roomId : jsstring)
| callStartResult_ok
| callStartResult_fail (reason : StartFailure)
| callRejected_rejected
| callEnded_alone
| roomPeers (roomId : jsstring) (peers : list Peer)
| roomPeerJoined (roomId : jsstring) (peer : Peer)
| roomPeerLeft (roomId : jsstring) (peerId : jsstring)
| signal (from : jsstring) (fromName : option jsstring) (payload : option json).

Record PushPayload := {
  title : jsstring;
  body : jsstring;
  tag : jsstring;
  url : jsstring;
  requireInteraction : bool;
}.

Inductive Effect :=
| Send (to : jsstring) (f : Frame)
    (** [ws.send] on the socket of the session with this id *)
| WebPush (userId : jsstring) (sub : json) (payload : PushPayload)
    (** [webpush.sendNotification(sub, payload)] for this session *).

Definition M : Type := Hub * list Effect.

(** [send(ws, obj)] on the socket of [u] *)
Definition send (u : User.t) (f : Frame) : list Effect :=
  if negb (User.open u) then [] else [Send (User.id u) f].

(** [sendPushToUser], up to the call of the gateway; the later failure of
    the gateway is the event [PushGone] below. *)
Definition sendPushToUser (cfg : Config) (h : Hub) (userId : jsstring)
    (payload : PushPayload) : list Effect :=
  if negb (PUSH_ENABLED cfg) then []
  else match pushSubscriptions h !! userId with
       | None => []
       | Some sub => [WebPush userId sub payload]
       end.

(** [users.values()], [rooms.values()] *)
Definition values {A} (m : gmap jsstring A) : list A := (map_to_list m).*2.

(** ** Voice statistics

    The source computes these numbers in double precision
    ([Math.floor], [Math.sqrt]); the definitions below compute in [Z].
    The two agree as long as every intermediate value is an integer the
    doubles hold exactly and the floor of the square root is exact, which
    is so for relay ranges of port numbers (up to 65535) and any number of
    rooms a process can hold.  Beyond that the estimates of the source
    round and those below do not. *)

Definition roomSize (r : Room.t) : Z := Z.of_nat (size (Room.members r)).

Definition getActiveCallCount (h : Hub) : Z :=
  foldr (λ r calls, if (2 <=? roomSize r)%Z then (calls + 1)%Z else calls) 0%Z
        (values (rooms h)).

Definition getPeerLinksEstimate (h : Hub) : Z :=
  foldr (λ r links,
           let k := roomSize r in
           if (2 <=? k)%Z then (links + k * (k - 1) / 2)%Z else links) 0%Z
        (values (rooms h)).

Definition getVoiceStats (cfg : Config) (h : Hub) : VoiceStats :=
  let relayPortsTotal :=
    match TURN_RELAY_MIN_PORT cfg, TURN_RELAY_MAX_PORT cfg with
    | Some lo, Some hi =>
        if (0 <? lo)%Z && (lo <=? hi)%Z then Some (hi - lo + 1)%Z else None
    | _, _ => None
    end in
  let peerLinks := getPeerLinksEstimate h in
  let raw := (peerLinks * 2)%Z in
  {| turnHost := turnHostLabel cfg;
     relayPortsTotal := relayPortsTotal;
     relayPortsUsedEstimate :=
       match relayPortsTotal with None => raw | Some t => Z.min raw t end;
     capacityCallsEstimate := (λ t, t / 2)%Z <$> relayPortsTotal;
     maxConferenceUsersEstimate :=
       (λ t, (1 + Z.sqrt (1 + 8 * (t / 2))) / 2)%Z <$> relayPortsTotal;
     activeCalls := getActiveCallCount h |}.

(** ** Broadcasts *)

Definition broadcastPresence (cfg : Config) (h : Hub) : list Effect :=
  let list := (λ u, (User.id u, User.name u, truthyO (User.roomId u)))
                <$> values (users h) in
  let msg := presence list (getVoiceStats cfg h) in
  u ← values (users h); if User.open u then [Send (User.id u) msg] else [].

(** The text of [`${x}`] for a name that is a string or [null]. *)
Definition show (o : option jsstring) : jsstring :=
  match o with Some s => s | None => js "null" end.

Definition broadcastChat (cfg : Config) (env : Env) (h : Hub)
    (fromUser : User.t) (text : jsstring) : list Effect :=
  let msg := chat {| chat_atIso := atIso env; chat_from := Some (User.id fromUser);
                     chat_fromName := User.name fromUser; chat_to := None;
                     chat_toName := None; chat_text := text;
                     chat_private := false |} in
  u ← values (users h);
  if negb (truthyO (User.name u)) then []
  else
    (if User.open u then [Send (User.id u) msg] else [])
    ++ (if decide (User.id u ≠ User.id fromUser)
        then sendPushToUser cfg h (User.id u)
               {| title := js "LRcom message";
                  body := show (User.name fromUser) ++ js ": " ++ text;
                  tag := js "lrcom-chat"; url := js "/";
                  requireInteraction := false |}
        else []).

Definition systemChat (env : Env) (text : jsstring) : Frame :=
  chat {| chat_atIso := atIso env; chat_from := None;
          chat_fromName := Some (js "System"); chat_to := None;
          chat_toName := None; chat_text := text; chat_private := false |}.

Definition broadcastSystem (env : Env) (h : Hub) (text : jsstring) : list Effect :=
  let msg := systemChat env text in
  u ← values (users h);
  if negb (truthyO (User.name u)) then []
  else if User.open u then [Send (User.id u) msg] else [].

Definition privateChat (env : Env) (fromUser toUser : User.t) (text : jsstring) : Frame :=
  chat {| chat_atIso := atIso env; chat_from := Some (User.id fromUser);
          chat_fromName := User.name fromUser; chat_to := Some (User.id toUser);
          chat_toName := User.name toUser; chat_text := text;
          chat_private := true |}.

Definition sendPrivateChat (cfg : Config) (env : Env) (h : Hub)
    (fromUser toUser : User.t) (text : jsstring) : list Effect :=
  let msg := privateChat env fromUser toUser text in
  (if User.open fromUser then [Send (User.id fromUser) msg] else [])
  ++ (if User.open toUser then [Send (User.id toUser) msg] else [])
  ++ sendPushToUser cfg h (User.id toUser)
       {| title := js "LRcom private message";
          body := show (User.name fromUser) ++ js ": " ++ text;
          tag := js "lrcom-pm"; url := js "/"; requireInteraction := false |}.

(** ** Rooms *)

Definition getRoom (h : Hub) (roomId : option jsstring) : option Room.t :=
  match roomId with
  | Some rid => if truthy rid then rooms h !! rid else None
  | None => None
  end.

Definition ensureRoom (roomId : jsstring) (h : Hub) : Hub :=
  match rooms h !! roomId with
  | Some _ => h
  | None => with_rooms <[roomId := Room.mk roomId ∅]> h
  end.

(** [leaveRoom(user)]; the object [user] is the record of the session
    [userId] in the users map. *)
Definition leaveRoom (h : Hub) (userId : jsstring) : M :=
  match users h !! userId with
  | None => (h, [])
  | Some user =>
      match User.roomId user with
      | None => (h, [])
      | Some rid =>
          if negb (truthy rid) then (h, [])
          else
            let room := rooms h !! rid in
            let h := with_users (alter (User.set_roomId None) userId) h in
            match room with
            | None => (h, [])
            | Some room =>
                let members := Room.members room ∖ {[User.id user]} in
                let h := with_rooms <[rid := Room.set_members members room]> h in
                let notices :=
                  memberId ← elements members;
                  match users h !! memberId with
                  | None => []
                  | Some m => send m (roomPeerLeft rid (User.id user))
                  end in
                if decide (size members ≤ 1) then
                  let '(h, ended) :=
                    match head (elements members) with
                    | Some lastId =>
                        if truthy lastId then
                          match users h !! lastId with
                          | Some last =>
                              (with_users (alter (User.set_roomId None) lastId) h,
                               send last callEnded_alone)
                          | None => (h, [])
                          end
                        else (h, [])
                    | None => (h, [])
                    end in
                  (with_rooms (delete rid) h, notices ++ ended)
                else (h, notices)
            end
      end
  end.

(** ** Disconnect *)

Definition closeUser (cfg : Config) (env : Env) (h : Hub) (userId : jsstring) : M :=
  match users h !! userId with
  | None => (h, [])
  | Some u =>
      let name := User.name u in
      let '(h, notices) :=
        if truthyO (User.roomId u) then leaveRoom h userId else (h, []) in
      let h := with_users (delete userId) h in
      let h := with_push (delete userId) h in
      let h :=
        match name with
        | Some n =>
            if truthy n && bool_decide (nameToId h !! n = Some userId)
            then with_nameToId (delete n) h else h
        | None => h
        end in
      let bye :=
        match name with
        | Some n => if truthy n then broadcastSystem env h (n ++ js " left.") else []
        | None => []
        end in
      (h, notices ++ bye ++ broadcastPresence cfg h)
  end.

(** ** Rate limiter *)

Definition rateLimit (rl : option RateWindow) (nowMs : Z) : RateWindow * bool :=
  let win := match rl with
             | Some w => w
             | None => {| windowStart := nowMs; count := 0 |}
             end in
  let win := if (2000 <? nowMs - windowStart win)%Z
             then {| windowStart := nowMs; count := 0 |} else win in
  let win := {| windowStart := windowStart win; count := count win + 1 |} in
  (win, (count win <=? 20)%Z).

(** ** The message handler

    [ws.on('message')] of the session [userId]; [user] is the session's
    record as the handler sees it at that point.  The branches of the
    source are the functions [on_*] below, in the source's order. *)

Definition on_pushSubscribe (cfg : Config) (h : Hub) (userId : jsstring) (msg : json) : M :=
  if negb (PUSH_ENABLED cfg) then (h, [])
  else match field msg "subscription" with
       | Some sub =>
           if isObject (Some sub)
           then (with_push <[userId := sub]> h, [])
           else (h, [])
       | None => (h, [])
       end.

Definition on_pushUnsubscribe (h : Hub) (userId : jsstring) : M :=
  (with_push (delete userId) h, []).

(** [if (user.name && nameToId.get(user.name) === userId)
      nameToId.delete(user.name)] *)
Definition releaseOldName (h : Hub) (userId : jsstring) (user : User.t) : Hub :=
  match User.name user with
  | Some old =>
      if truthy old && bool_decide (nameToId h !! old = Some userId)
      then with_nameToId (delete old) h else h
  | None => h
  end.

Definition on_setName (cfg : Config) (env : Env) (h : Hub) (userId : jsstring)
    (user : User.t) (msg : json) : M :=
  match safeName (field msg "name") with
  | None => (h, send user (nameResult_fail invalid))
  | Some name =>
      if negb (truthy name) then (h, send user (nameResult_fail invalid))
      else
        let existing := nameToId h !! name in
        if match existing with
           | Some e => truthy e && bool_decide (e ≠ userId)
           | None => false
           end
        then (h, send user (nameResult_fail taken))
        else
          let h := releaseOldName h userId user in
          let h := with_users (alter (User.set_name (Some name)) userId) h in
          let h := with_nameToId <[name := userId]> h in
          (h, send user (nameResult_ok name)
              ++ broadcastSystem env h (name ++ js " joined.")
              ++ broadcastPresence cfg h)
  end.

Definition on_callStart (cfg : Config) (env : Env) (h : Hub) (userId : jsstring)
    (user : User.t) (msg : json) : M :=
  let notFound := (h, send user (callStartResult_fail not_found)) in
  match stringOrNull (field msg "to") with
  | None => notFound
  | Some to =>
      if negb (truthy to) then notFound
      else match users h !! to with
      | None => notFound
      | Some callee =>
          if decide (to = userId) then (h, send user (callStartResult_fail self))
          else if negb (truthyO (User.name callee))
          then (h, send user (callStartResult_fail not_ready))
          else if truthyO (User.roomId callee)
          then (h, send user (callStartResult_fail busy))
          else
            (* New room or invite into existing room *)
            let rid := match User.roomId user with
                       | Some r => r
                       | None => makeId env
                       end in
            let h := ensureRoom rid h in
            let h := with_rooms
                       (alter (λ room, Room.set_members
                                 (Room.members room ∪ {[User.id user]}
                                    ∪ {[User.id callee]}) room) rid) h in
            let h := with_users (alter (User.set_roomId (Some rid)) userId) h in
            let h := with_users (alter (User.set_roomId (Some rid)) to) h in
            (h, send callee (incomingCall (User.id user) (User.name user) rid)
                ++ sendPushToUser cfg h (User.id callee)
                     {| title := js "Incoming call";
                        body := js "From " ++ show (User.name user);
                        tag := js "lrcom-call"; url := js "/";
                        requireInteraction := true |}
                ++ send user callStartResult_ok
                ++ broadcastPresence cfg h)
      end
  end.

(** [typeof msg.roomId === 'string' ? msg.roomId : user.roomId] *)
Definition roomIdOf (msg : json) (user : User.t) : option jsstring :=
  match field msg "roomId" with
  | Some (JStr s) => Some s
  | _ => User.roomId user
  end.

(** [from ? users.get(from) : null] *)
Definition lookupFrom (h : Hub) (from : option jsstring) : option User.t :=
  match from with
  | Some f => if truthy f then users h !! f else None
  | None => None
  end.

Definition clearRoomId (cfg : Config) (h : Hub) (userId : jsstring) : M :=
  let h := with_users (alter (User.set_roomId None) userId) h in
  (h, broadcastPresence cfg h).

Definition on_callReject (cfg : Config) (h : Hub) (userId : jsstring)
    (user : User.t) (msg : json) : M :=
  let from := stringOrNull (field msg "from") in
  let rid := roomIdOf msg user in
  let caller := lookupFrom h from in
  let rejected := match caller with
                  | Some c => send c callRejected_rejected
                  | None => []
                  end in
  (* Remove rejecter from the room; if room collapses, last member gets callEnded. *)
  let '(h, out) :=
    if truthyO rid && bool_decide (User.roomId user = rid)
    then leaveRoom h userId
    else (with_users (alter (User.set_roomId None) userId) h, []) in
  (h, rejected ++ out ++ broadcastPresence cfg h).

Definition on_callAccept (cfg : Config) (h : Hub) (userId : jsstring)
    (user : User.t) (msg : json) : M :=
  let from := stringOrNull (field msg "from") in
  let caller := lookupFrom h from in
  let rid := roomIdOf msg user in
  match caller with
  | None => clearRoomId cfg h userId
  | Some caller =>
      if negb (truthyO rid) || bool_decide (User.roomId caller ≠ rid)
         || bool_decide (User.roomId user ≠ rid)
      then clearRoomId cfg h userId
      else match getRoom h rid, rid with
      | Some room, Some rid =>
          (* Notify existing members to connect to the new joiner *)
          let peer := (User.id user, User.name user) in
          let joined :=
            memberId ← elements (Room.members room);
            if decide (memberId = User.id user) then []
            else match users h !! memberId with
                 | None => []
                 | Some m => send m (roomPeerJoined rid peer)
                 end in
          (* Send the joiner a list of existing members to prepare for offers *)
          let peers :=
            omap (λ id, (λ u2, (User.id u2, User.name u2)) <$> users h !! id)
                 (filter (λ id, id ≠ User.id user) (elements (Room.members room))) in
          (h, joined ++ send user (roomPeers rid peers))
      | _, _ => clearRoomId cfg h userId
      end
  end.

Definition on_signal (h : Hub) (user : User.t) (msg : json) : M :=
  let to := stringOrNull (field msg "to") in
  let payload := field msg "payload" in
  match to with
  | None => (h, [])
  | Some to =>
      if negb (truthy to) then (h, [])
      else match users h !! to with
      | None => (h, [])
      | Some peer =>
          (* Only allow signaling between users in the same room *)
          if negb (truthyO (User.roomId user))
             || bool_decide (User.roomId user ≠ User.roomId peer)
          then (h, [])
          else (h, send peer (signal (User.id user) (User.name user) payload))
      end
  end.

Definition on_callHangup (cfg : Config) (h : Hub) (userId : jsstring) : M :=
  let '(h, out) := leaveRoom h userId in
  (h, out ++ broadcastPresence cfg h).

Definition on_chatSend (cfg : Config) (env : Env) (h : Hub) (user : User.t)
    (msg : json) : M :=
  match safeChatText (field msg "text") with
  | None => (h, send user (error BAD_CHAT))
  | Some raw =>
      if negb (truthy raw) then (h, send user (error BAD_CHAT))
      else
        (* Replies use a reserved prefix that intentionally begins with '@'. *)
        let pm := if startsWith raw (js "@reply [") then None
                  else parsePrivatePrefix raw in
        match pm with
        | Some (toName, body) =>
            let toId := nameToId h !! toName in
            let toUser := lookupFrom h toId in
            match toUser with
            | None => (h, send user (error PM_NOT_FOUND))
            | Some toUser =>
                if negb (truthyO (User.name toUser))
                then (h, send user (error PM_NOT_FOUND))
                else if decide (User.id toUser = User.id user)
                then (h, send user (error PM_SELF))
                else (h, sendPrivateChat cfg env h user toUser body)
            end
        | None => (h, broadcastChat cfg env h user raw)
        end
  end.

(** The dispatch on [msg.type], after the rate check and the decoding. *)
Definition dispatch (cfg : Config) (env : Env) (h : Hub) (userId : jsstring)
    (user : User.t) (msg : json) (type : jsstring) : M :=
  (* Push subscription can arrive before a name is set. *)
  if decide (type = js "pushSubscribe") then on_pushSubscribe cfg h userId msg
  else if decide (type = js "pushUnsubscribe") then on_pushUnsubscribe h userId
  else if decide (type = js "setName") then on_setName cfg env h userId user msg
  (* Require name for any other operations *)
  else if negb (truthyO (User.name user)) then (h, send user (error NO_NAME))
  else if decide (type = js "callStart") then on_callStart cfg env h userId user msg
  else if decide (type = js "callReject") then on_callReject cfg h userId user msg
  else if decide (type = js "callAccept") then on_callAccept cfg h userId user msg
  else if decide (type = js "signal") then on_signal h user msg
  else if decide (type = js "callHangup") then on_callHangup cfg h userId
  else if decide (type = js "chatSend") then on_chatSend cfg env h user msg
  else (h, send user (error UNKNOWN_TYPE)).

(** The limiter's verdict on the next frame of a session. *)
Definition dispatched (h : Hub) (userId : jsstring) (nowMs : Z) : bool :=
  match users h !! userId with
  | Some user => (rateLimit (User._rl user) nowMs).2
  | None => false
  end.

(** The state once the limiter has counted the frame. *)
Definition counted (h : Hub) (userId : jsstring) (nowMs : Z) : Hub :=
  match users h !! userId with
  | Some user =>
      with_users
        (alter (User.set_rl (Some (rateLimit (User._rl user) nowMs).1)) userId) h
  | None => h
  end.

(** [data] is [None] when [JSON.parse] throws. *)
Definition onMessage (cfg : Config) (env : Env) (h : Hub) (userId : jsstring)
    (data : option json) : M :=
  match users h !! userId with
  | None => (h, [])
  | Some user0 =>
      let ok := dispatched h userId (now env) in
      let h := counted h userId (now env) in
      let user := User.set_rl (Some (rateLimit (User._rl user0) (now env)).1) user0 in
      if negb ok then (h, send user (error RATE_LIMIT))
      else match data with
      | None => (h, send user (error BAD_JSON))
      | Some msg =>
          match (if falsy msg then None else stringOrNull (field msg "type")) with
          | None => (h, send user (error BAD_MESSAGE))
          | Some type => dispatch cfg env h userId user msg type
          end
      end
  end.

(** ** Connections and the event loop *)

(** [wss.on('connection')]: the new session and its [hello].  The TURN
    credentials, the client address and the advisory of the [hello] frame
    come from the request and the environment and are left out of the
    frame here. *)
Definition onConnection (cfg : Config) (env : Env) (h : Hub) : M :=
  let userId := makeId env in
  let user := User.mk userId None 1 (now env) None None in
  let h := with_users <[userId := user]> h in
  (h, send user (hello userId (getVoiceStats cfg h))).

(** What the event loop runs, one callback at a time. *)
Inductive Event :=
| Connection (env : Env)
| Message (userId : jsstring) (env : Env) (data : option json)
| Close (userId : jsstring) (env : Env)
    (** the socket's [close] or [error] callback *)
| ReadyState (userId : jsstring) (state : N)
    (** the socket of a session changes its [readyState] *)
| PushGone (userId : jsstring)
    (** the gateway answered 404 or 410 to a notification for this session *).

Definition step (cfg : Config) (h : Hub) (e : Event) : M :=
  match e with
  | Connection env => onConnection cfg env h
  | Message userId env data => onMessage cfg env h userId data
  | Close userId env => closeUser cfg env h userId
  | ReadyState userId state =>
      (with_users (alter (User.set_readyState state) userId) h, [])
  | PushGone userId => (with_push (delete userId) h, [])
  end.

(** [makeId()] yields 24 lowercase hexadecimal digits. *)
Definition isId (s : jsstring) : bool :=
  (length s =? 24) && forallb (λ c, in_range 48 57 c || in_range 97 102 c) s.

Definition envOf (e : Event) : option Env :=
  match e with
  | Connection env | Message _ env _ | Close _ env => Some env
  | _ => None
  end.

(** An event the loop can see in state [h]: identifiers are well formed
    and the identifier of a new connection is not in use. *)
Definition possible (h : Hub) (e : Event) : bool :=
  match envOf e with
  | Some env => isId (makeId env)
  | None => true
  end
  && match e with
     | Connection env => bool_decide (users h !! makeId env = None)
     | _ => true
     end.

Inductive reachable (cfg : Config) : Hub → Prop :=
| reachable_init : reachable cfg empty_hub
| reachable_step h e :
    reachable cfg h → possible h e = true → reachable cfg (step cfg h e).1.

(** Running a list of events from a state; [None] when an event is
    not possible where it occurs. *)
Fixpoint run (cfg : Config) (h : Hub) (es : list Event) : option (Hub * list Effect) :=
  match es with
  | [] => Some (h, [])
  | e :: es =>
      if possible h e then
        let '(h', out) := step cfg h e in
        match run cfg h' es with
        | Some (h'', out') => Some (h'', out ++ out')
        | None => None
        end
      else None
  end.

(** ** A running example

    Alice, Bob and Carol connect and take their names; the traces below
    extend this opening. *)
Module Example.

Definition cfg : Config :=
  {| PUSH_ENABLED := true; turnHostLabel := None;
     TURN_RELAY_MIN_PORT := Some 0%Z; TURN_RELAY_MAX_PORT := Some 0%Z |}.

Definition idA : jsstring := js "a00000000000000000000001".
Definition idB : jsstring := js "b00000000000000000000002".
Definition idC : jsstring := js "c00000000000000000000003".
Definition idR : jsstring := js "d00000000000000000000004".

(** A clock reading; the identifier [idR] is what [makeId()] would
    return next. *)
Definition at_ (t : Z) : Env := {| now := t; atIso := t; makeId := idR |}.
Definition connect (id : jsstring) : Event :=
  Connection {| now := 0; atIso := 0; makeId := id |}.

Definition frame (props : list (string * json)) : option json :=
  Some (JObj (prod_map js id <$> props)).
Definition str (s : string) : json := JStr (js s).

Definition setName (who : jsstring) (name : string) : Event :=
  Message who (at_ 0) (frame [("type", str "setName"); ("name", str name)]).

Definition opening : list Event :=
  [connect idA; connect idB; connect idC;
   setName idA "Alice"; setName idB "Bob"; setName idC "Carol"].

Definition callStart (who to : jsstring) : Event :=
  Message who (at_ 0) (frame [("type", str "callStart"); ("to", JStr to)]).

(** Alice has invited Bob: both are in room [idR]. *)
Definition ringing : list Event := opening ++ [callStart idA idB].

Definition alice (roomId : option jsstring) (count : Z) : User.t :=
  User.mk idA (Some (js "Alice")) 1 0 roomId
    (Some {| windowStart := 0; count := count |}).
Definition bob (roomId : option jsstring) (count : Z) : User.t :=
  User.mk idB (Some (js "Bob")) 1 0 roomId
    (Some {| windowStart := 0; count := count |}).
Definition carol (roomId : option jsstring) (count : Z) : User.t :=
  User.mk idC (Some (js "Carol")) 1 0 roomId
    (Some {| windowStart := 0; count := count |}).


End Example.

(** * Properties *)

(** ** Chat validation *)

(** The code points the chat validator enumerates as forbidden:
    U+0000..U+0008, U+000B, U+000C, U+000E..U+001F and U+007F. *)
Definition forbidden_in_chat (c : N) : Prop :=
  (c ≤ 8 ∨ c = 11 ∨ c = 12 ∨ (14 ≤ c ∧ c ≤ 31) ∨ c = 127)%N.

Definition chat_valid (t : jsstring) : Prop :=
  1 ≤ length t ≤ 500 ∧ ∀ c, c ∈ t → ¬ forbidden_in_chat c.

Lemma in_range_spec lo hi c : in_range lo hi c = true ↔ (lo ≤ c ∧ c ≤ hi)%N.
Proof.
  unfold in_range. rewrite andb_true_iff, !N.leb_le. tauto.
Qed.

Lemma chat_control_spec c : chat_control c = true ↔ forbidden_in_chat c.
Proof.
  unfold chat_control, forbidden_in_chat.
  rewrite !orb_true_iff, !in_range_spec, !N.eqb_eq. lia.
Qed.

Lemma existsb_chat_control (t : jsstring) :
  existsb chat_control t = false ↔ ∀ c, c ∈ t → ¬ forbidden_in_chat c.
Proof.
  induction t as [|d t IH]; simpl.
  - split; [intros _ c Hc; by apply elem_of_nil in Hc | done].
  - rewrite orb_false_iff, IH. split.
    + intros [Hd Ht] c Hc. apply elem_of_cons in Hc as [-> | Hc].
      * rewrite <- chat_control_spec. by rewrite Hd.
      * by apply Ht.
    + intros H. split.
      * destruct (chat_control d) eqn:E; [|done].
        exfalso. apply (H d); [left | by apply chat_control_spec].
      * intros c Hc. apply H. by right.
Qed.

Lemma chat_length_ok (t : jsstring) :
  (length t <? 1) || (500 <? length t) = false ↔ 1 ≤ length t ≤ 500.
Proof.
  rewrite orb_false_iff. rewrite !Nat.ltb_ge. lia.
Qed.

Lemma safeChatText_Some input t :
  safeChatText input = Some t ↔
  ∃ s, input = Some (JStr s) ∧ t = trim s ∧ chat_valid t.
Proof.
  unfold safeChatText, chat_valid. split.
  - destruct input as [[| | |s| |]|]; try done.
    destruct ((length (trim s) <? 1) || (500 <? length (trim s))) eqn:El; [done|].
    destruct (existsb chat_control (trim s)) eqn:Ec; [done|].
    intros [= <-]. exists s. split_and!; try done.
    + by apply chat_length_ok.
    + by apply chat_length_ok.
    + by apply existsb_chat_control.
  - intros (s & -> & -> & Hl & Hc).
    apply chat_length_ok in Hl. apply existsb_chat_control in Hc.
    by rewrite Hl, Hc.
Qed.

(** C6.  [safeChatText] (the spec's validateChat) returns the trimmed
    string exactly when the input is a string whose trimmed form has
    between 1 and 500 code units and none of the enumerated control code
    points (U+0000..U+0008, U+000B, U+000C, U+000E..U+001F, U+007F; line
    feed and carriage return stay allowed); on every other input it
    returns null. *)
Theorem safeChatText_spec (input : option json) :
  (∀ t, safeChatText input = Some t ↔
        ∃ s, input = Some (JStr s) ∧ t = trim s ∧ chat_valid t)
  ∧ (safeChatText input = None ↔
     ¬ ∃ s, input = Some (JStr s) ∧ chat_valid (trim s)).
Proof.
  split; [apply safeChatText_Some|].
  split.
  - intros Hn (s & -> & Hv).
    assert (safeChatText (Some (JStr s)) = Some (trim s)) as Hs
      by (apply safeChatText_Some; eauto).
    congruence.
  - intros Hn. destruct (safeChatText input) as [t|] eqn:E; [|done].
    apply safeChatText_Some in E as (s & -> & -> & Hv). destruct Hn; eauto.
Qed.

(** Line feed and carriage return pass, the other enumerated controls do
    not. *)
Example chat_allows_crlf :
  safeChatText (Some (JStr [97; 13; 10; 98]%N)) = Some [97; 13; 10; 98]%N.
Proof. reflexivity. Qed.

(** TAB (U+0009) is not among the enumerated code points: inside a text
    it passes. *)
Example chat_allows_tab :
  safeChatText (Some (JStr [97; 9; 98]%N)) = Some [97; 9; 98]%N.
Proof. reflexivity. Qed.

Example chat_rejects_escape :
  safeChatText (Some (JStr [97; 27; 98]%N)) = None.
Proof. reflexivity. Qed.

Example chat_rejects_non_string : safeChatText (Some (JNum 5)) = None.
Proof. reflexivity. Qed.

(** ** What a step leaves alone

    Most handlers change one field of one or two session records.  A
    projection [g] of the record that the change does not touch reads the
    same in every session before and after. *)

Section view.
Context {B : Type} (g : User.t → B).

Definition same_view (h h' : Hub) : Prop :=
  ∀ k, g <$> users h' !! k = g <$> users h !! k.

(** The same view of every session, and the name index and the push
    store as they were. *)
Definition keeps (h h' : Hub) : Prop :=
  same_view h h' ∧ nameToId h' = nameToId h
  ∧ pushSubscriptions h' = pushSubscriptions h.

Lemma same_view_refl h : same_view h h.
Proof. by intros k. Qed.

Lemma same_view_trans h1 h2 h3 :
  same_view h1 h2 → same_view h2 h3 → same_view h1 h3.
Proof. intros H12 H23 k. by rewrite H23, H12. Qed.

Lemma keeps_refl h : keeps h h.
Proof. by split_and!. Qed.

Lemma keeps_trans h1 h2 h3 : keeps h1 h2 → keeps h2 h3 → keeps h1 h3.
Proof.
  intros (V12 & N12 & P12) (V23 & N23 & P23). split_and!.
  - by eapply same_view_trans.
  - congruence.
  - congruence.
Qed.

Lemma view_alter (f : User.t → User.t) (k : jsstring)
    (m : gmap jsstring User.t) (j : jsstring) :
  (∀ u, g (f u) = g u) → g <$> alter f k m !! j = g <$> m !! j.
Proof.
  intros Hf. destruct (decide (k = j)) as [->|Hne].
  - rewrite lookup_alter_eq. destruct (m !! j); simpl; by rewrite ?Hf.
  - by rewrite lookup_alter_ne.
Qed.

Lemma same_view_alter (f : User.t → User.t) (k : jsstring) h :
  (∀ u, g (f u) = g u) → same_view h (with_users (alter f k) h).
Proof. intros Hf j. simpl. by apply view_alter. Qed.

Lemma keeps_alter (f : User.t → User.t) (k : jsstring) h :
  (∀ u, g (f u) = g u) → keeps h (with_users (alter f k) h).
Proof. intros Hf. split_and!; [by apply same_view_alter|done..]. Qed.

Lemma same_view_lookup h h' k u :
  same_view h h' → users h !! k = Some u →
  ∃ u', users h' !! k = Some u' ∧ g u' = g u.
Proof.
  intros Hv Hu. specialize (Hv k). rewrite Hu in Hv. simpl in Hv.
  destruct (users h' !! k) as [u'|]; [|done]. exists u'. split; [done|].
  by injection Hv.
Qed.

Lemma same_view_lookup_inv h h' k u' :
  same_view h h' → users h' !! k = Some u' →
  ∃ u, users h !! k = Some u ∧ g u' = g u.
Proof.
  intros Hv Hu. specialize (Hv k). rewrite Hu in Hv. simpl in Hv.
  destruct (users h !! k) as [u|]; [|done]. exists u. split; [done|].
  by injection Hv.
Qed.

Lemma ensureRoom_users rid h : users (ensureRoom rid h) = users h.
Proof. unfold ensureRoom. by destruct (rooms h !! rid). Qed.
Lemma ensureRoom_nameToId rid h : nameToId (ensureRoom rid h) = nameToId h.
Proof. unfold ensureRoom. by destruct (rooms h !! rid). Qed.
Lemma ensureRoom_push rid h :
  pushSubscriptions (ensureRoom rid h) = pushSubscriptions h.
Proof. unfold ensureRoom. by destruct (rooms h !! rid). Qed.

(** Projections a change of [roomId] does not touch. *)
Hypothesis g_roomId : ∀ v u, g (User.set_roomId v u) = g u.

Ltac keeps_tac :=
  first
    [ apply keeps_refl
    | split_and!;
      [ intros ?; simpl; by rewrite ?view_alter, ?ensureRoom_users
      | simpl; by rewrite ?ensureRoom_nameToId
      | simpl; by rewrite ?ensureRoom_push ] ].

Lemma leaveRoom_keeps h userId : keeps h (leaveRoom h userId).1.
Proof.
  unfold leaveRoom.
  destruct (users h !! userId) as [user|]; [|keeps_tac].
  destruct (User.roomId user) as [rid|]; [|keeps_tac].
  destruct (truthy rid); simpl; [|keeps_tac].
  destruct (rooms h !! rid) as [room|]; [|keeps_tac].
  case_decide; [|keeps_tac].
  destruct (head _) as [lastId|]; [|keeps_tac].
  destruct (truthy lastId); [|keeps_tac].
  simpl. destruct (alter _ userId (users h) !! lastId); keeps_tac.
Qed.

Lemma clearRoomId_keeps cfg h userId : keeps h (clearRoomId cfg h userId).1.
Proof. unfold clearRoomId. keeps_tac. Qed.

Lemma on_callHangup_keeps cfg h userId :
  keeps h (on_callHangup cfg h userId).1.
Proof.
  unfold on_callHangup. pose proof (leaveRoom_keeps h userId) as Hl.
  by destruct (leaveRoom h userId).
Qed.

Lemma on_callReject_keeps cfg h userId user msg :
  keeps h (on_callReject cfg h userId user msg).1.
Proof.
  unfold on_callReject. destruct (_ && _).
  - pose proof (leaveRoom_keeps h userId) as Hl. by destruct (leaveRoom h userId).
  - keeps_tac.
Qed.

Lemma on_callAccept_keeps cfg h userId user msg :
  keeps h (on_callAccept cfg h userId user msg).1.
Proof.
  unfold on_callAccept.
  destruct (lookupFrom _ _); [|apply clearRoomId_keeps].
  destruct (_ || _); [apply clearRoomId_keeps|].
  destruct (getRoom _ _); [|apply clearRoomId_keeps].
  destruct (roomIdOf _ _); [apply keeps_refl|apply clearRoomId_keeps].
Qed.

Lemma on_callStart_keeps cfg env h userId user msg :
  keeps h (on_callStart cfg env h userId user msg).1.
Proof.
  unfold on_callStart.
  destruct (stringOrNull _) as [to|]; [|keeps_tac].
  destruct (truthy to); simpl; [|keeps_tac].
  destruct (users h !! to) as [callee|]; [|keeps_tac].
  case_decide; [keeps_tac|].
  destruct (truthyO (User.name callee)); simpl; [|keeps_tac].
  destruct (truthyO (User.roomId callee)); simpl; keeps_tac.
Qed.

End view.

Lemma on_signal_state h user msg : (on_signal h user msg).1 = h.
Proof.
  unfold on_signal. destruct (stringOrNull _) as [to|]; [|done].
  destruct (truthy to); simpl; [|done].
  destruct (users h !! to); [|done]. by destruct (_ || _).
Qed.

Lemma on_chatSend_state cfg env h user msg :
  (on_chatSend cfg env h user msg).1 = h.
Proof.
  unfold on_chatSend. destruct (safeChatText _) as [raw|]; [|done].
  destruct (truthy raw); simpl; [|done].
  destruct (if startsWith raw _ then _ else _) as [[toName body]|]; [|done].
  destruct (lookupFrom _ _) as [toUser|]; [|done].
  destruct (truthyO _); simpl; [|done]. by case_decide.
Qed.

Lemma on_pushSubscribe_users cfg h userId msg :
  users (on_pushSubscribe cfg h userId msg).1 = users h
  ∧ nameToId (on_pushSubscribe cfg h userId msg).1 = nameToId h
  ∧ rooms (on_pushSubscribe cfg h userId msg).1 = rooms h.
Proof.
  unfold on_pushSubscribe. destruct (PUSH_ENABLED cfg); simpl; [|done].
  destruct (field msg _) as [sub|]; [|done].
  by destruct sub.
Qed.

(** ** The limiter's bookkeeping in the state *)

(** The session record once the limiter has counted a frame at [t]. *)
Definition ticked (user : User.t) (t : Z) : User.t :=
  User.set_rl (Some (rateLimit (User._rl user) t).1) user.

Lemma counted_users h userId t user :
  users h !! userId = Some user →
  users (counted h userId t) = <[userId := ticked user t]> (users h).
Proof.
  intros Hu. unfold counted. rewrite Hu. simpl.
  apply map_eq. intros k. destruct (decide (userId = k)) as [<-|Hne].
  - by rewrite lookup_alter_eq, lookup_insert_eq, Hu.
  - by rewrite lookup_alter_ne, lookup_insert_ne.
Qed.

Lemma counted_lookup h userId t user :
  users h !! userId = Some user →
  users (counted h userId t) !! userId = Some (ticked user t).
Proof. intros Hu. by rewrite (counted_users _ _ _ _ Hu), lookup_insert_eq. Qed.

Lemma counted_lookup_ne h userId t k :
  k ≠ userId → users (counted h userId t) !! k = users h !! k.
Proof.
  intros Hne. unfold counted. destruct (users h !! userId); [|done].
  simpl. by rewrite lookup_alter_ne.
Qed.

Lemma counted_nameToId h userId t : nameToId (counted h userId t) = nameToId h.
Proof. unfold counted. by destruct (users h !! userId). Qed.
Lemma counted_rooms h userId t : rooms (counted h userId t) = rooms h.
Proof. unfold counted. by destruct (users h !! userId). Qed.
Lemma counted_push h userId t :
  pushSubscriptions (counted h userId t) = pushSubscriptions h.
Proof. unfold counted. by destruct (users h !! userId). Qed.

Lemma counted_keeps {B} (g : User.t → B) h userId t :
  (∀ v u, g (User.set_rl v u) = g u) → keeps g h (counted h userId t).
Proof.
  intros Hg. unfold counted. destruct (users h !! userId); [|apply keeps_refl].
  by apply keeps_alter.
Qed.

(** ** Decoding and dispatch *)

(** Two literals of the source differ. *)
Ltac js_differ :=
  let E := fresh "E" in intros E; vm_compute in E; discriminate E.

Ltac dispatch_to :=
  unfold dispatch;
  repeat (let Hty := fresh "Hty" in
          case_decide as Hty;
          [ first [ by (exfalso; revert Hty; js_differ) | idtac ]
          | first [ by (exfalso; apply Hty) | idtac ] ]).

Lemma onMessage_dispatch cfg env h userId user msg type :
  users h !! userId = Some user →
  dispatched h userId (now env) = true →
  field msg "type" = Some (JStr type) →
  onMessage cfg env h userId (Some msg)
  = dispatch cfg env (counted h userId (now env)) userId
      (ticked user (now env)) msg type.
Proof.
  intros Hu Hok Hty. unfold onMessage. rewrite Hu, Hok. simpl.
  rewrite Hty. simpl. destruct msg; try done.
Qed.

Lemma onMessage_limited cfg env h userId user data :
  users h !! userId = Some user →
  dispatched h userId (now env) = false →
  onMessage cfg env h userId data
  = (counted h userId (now env), send user (error RATE_LIMIT)).
Proof. intros Hu Hok. unfold onMessage. by rewrite Hu, Hok. Qed.

Lemma dispatch_pushSubscribe cfg env h userId user msg :
  dispatch cfg env h userId user msg (js "pushSubscribe")
  = on_pushSubscribe cfg h userId msg.
Proof. by dispatch_to. Qed.

Lemma dispatch_pushUnsubscribe cfg env h userId user msg :
  dispatch cfg env h userId user msg (js "pushUnsubscribe")
  = on_pushUnsubscribe h userId.
Proof. by dispatch_to. Qed.

Lemma dispatch_setName cfg env h userId user msg :
  dispatch cfg env h userId user msg (js "setName")
  = on_setName cfg env h userId user msg.
Proof. by dispatch_to. Qed.

Lemma dispatch_anonymous cfg env h userId user msg type :
  type ≠ js "pushSubscribe" → type ≠ js "pushUnsubscribe" →
  type ≠ js "setName" → truthyO (User.name user) = false →
  dispatch cfg env h userId user msg type = (h, send user (error NO_NAME)).
Proof.
  intros H1 H2 H3 Hn. unfold dispatch.
  rewrite !decide_False by done. by rewrite Hn.
Qed.

Lemma dispatch_callReject cfg env h userId user msg :
  truthyO (User.name user) = true →
  dispatch cfg env h userId user msg (js "callReject")
  = on_callReject cfg h userId user msg.
Proof. intros Hn. dispatch_to. by rewrite Hn. Qed.


Lemma dispatch_callHangup cfg env h userId user msg :
  truthyO (User.name user) = true →
  dispatch cfg env h userId user msg (js "callHangup")
  = on_callHangup cfg h userId.
Proof. intros Hn. dispatch_to. by rewrite Hn. Qed.


(** ** Invariants of the registries *)

(** The presence registry: a session is filed under its own id, ids and
    names are non-empty, and the name index and the sessions' names
    determine each other. *)
Record wf_names (h : Hub) : Prop := {
  wf_key k u : users h !! k = Some u → User.id u = k;
  wf_id k u : users h !! k = Some u → truthy k = true;
  wf_name k u n : users h !! k = Some u → User.name u = Some n → truthy n = true;
  wf_bound n k : nameToId h !! n = Some k →
                 ∃ u, users h !! k = Some u ∧ User.name u = Some n;
  wf_holds k u n : users h !! k = Some u → User.name u = Some n →
                   nameToId h !! n = Some k;
}.

(** The room registry: a room has at least two members, and a session's
    [roomId] is never the empty string. *)
Record wf_rooms (h : Hub) : Prop := {
  wf_room_size r room : rooms h !! r = Some room → 2 ≤ size (Room.members room);
  wf_roomId k u r : users h !! k = Some u → User.roomId u = Some r → truthy r = true;
}.

Definition ident (u : User.t) : jsstring * option jsstring :=
  (User.id u, User.name u).

Lemma wf_names_keeps h h' : wf_names h → keeps ident h h' → wf_names h'.
Proof.
  intros [Hk Hi Hn Hb Hh] (Hv & Hidx & _). split.
  - intros k u' Hu'. destruct (same_view_lookup_inv _ _ _ _ _ Hv Hu') as (u & Hu & E).
    injection E as E1 E2. rewrite E1. eauto.
  - intros k u' Hu'. destruct (same_view_lookup_inv _ _ _ _ _ Hv Hu') as (u & Hu & E).
    eauto.
  - intros k u' n Hu' Hn'.
    destruct (same_view_lookup_inv _ _ _ _ _ Hv Hu') as (u & Hu & E).
    injection E as E1 E2. rewrite E2 in Hn'. eauto.
  - intros n k Hnk. rewrite Hidx in Hnk. destruct (Hb _ _ Hnk) as (u & Hu & Hun).
    destruct (same_view_lookup _ _ _ _ _ Hv Hu) as (u' & Hu' & E).
    injection E as E1 E2. exists u'. split; [done|congruence].
  - intros k u' n Hu' Hn'.
    destruct (same_view_lookup_inv _ _ _ _ _ Hv Hu') as (u & Hu & E).
    injection E as E1 E2. rewrite E2 in Hn'. rewrite Hidx. eauto.
Qed.

Lemma wf_rooms_step h h' :
  wf_rooms h →
  (∀ r room', rooms h' !! r = Some room' →
              rooms h !! r = Some room' ∨ 2 ≤ size (Room.members room')) →
  (∀ k u' r, users h' !! k = Some u' → User.roomId u' = Some r →
             truthy r = true
             ∨ ∃ u, users h !! k = Some u ∧ User.roomId u = Some r) →
  wf_rooms h'.
Proof.
  intros [Hs Hr] Hrooms Husers. split.
  - intros r room' Hr'. destruct (Hrooms _ _ Hr') as [?|?]; eauto.
  - intros k u' r Hu' Hr'. destruct (Husers _ _ _ Hu' Hr') as [?|(u & ? & ?)]; eauto.
Qed.

Lemma wf_rooms_keeps h h' :
  wf_rooms h → same_view User.roomId h h' → rooms h' = rooms h → wf_rooms h'.
Proof.
  intros Hwf Hv Hr. apply (wf_rooms_step h); [done|..].
  - intros r room'. rewrite Hr. auto.
  - intros k u' r Hu' Hr'. right.
    destruct (same_view_lookup_inv _ _ _ _ _ Hv Hu') as (u & Hu & E).
    exists u. split; [done|congruence].
Qed.

(** A session record whose [roomId] was cleared, if it changed at all. *)
Lemma cleared_lookup (m : gmap jsstring User.t) (j k : jsstring) u' r :
  alter (User.set_roomId None) j m !! k = Some u' → User.roomId u' = Some r →
  m !! k = Some u'.
Proof.
  destruct (decide (j = k)) as [->|Hne].
  - rewrite lookup_alter_eq. destruct (m !! k) as [u|]; simpl; [|done].
    intros [= <-]. done.
  - by rewrite lookup_alter_ne.
Qed.

Lemma leaveRoom_wf_rooms h userId : wf_rooms h → wf_rooms (leaveRoom h userId).1.
Proof.
  intros Hwf. unfold leaveRoom.
  destruct (users h !! userId) as [user|]; [|done].
  destruct (User.roomId user) as [rid|]; [|done].
  destruct (truthy rid); simpl; [|done].
  assert (∀ j, wf_rooms (with_users (alter (User.set_roomId None) j) h)) as Hclr.
  { intros j. apply (wf_rooms_step h); [done|simpl; auto|].
    simpl. intros k u' r Hu' Hr'. right. exists u'. split; [|done].
    by eapply cleared_lookup. }
  destruct (rooms h !! rid) as [room|]; [|apply Hclr].
  case_decide as Hsize.
  - apply (wf_rooms_step h); [done|..].
    + intros r room'.
      destruct (head _) as [lastId|]; [destruct (truthy lastId); [destruct (_ !! lastId)|]|];
        simpl; (destruct (decide (rid = r)) as [->|Hne];
          [by rewrite lookup_delete_eq
          |rewrite lookup_delete_ne, lookup_insert_ne by done; auto]).
    + intros k u' r.
      destruct (head _) as [lastId|]; [destruct (truthy lastId); [destruct (_ !! lastId)|]|];
        simpl; intros Hu' Hr'; right; exists u'; (split; [|done]);
        repeat (eapply cleared_lookup in Hu'; [|exact Hr']); done.
  - apply (wf_rooms_step h); [done|..]; simpl.
    + intros r room'. destruct (decide (rid = r)) as [->|Hne].
      * rewrite lookup_insert_eq. intros [= <-]. right. simpl. lia.
      * rewrite lookup_insert_ne by done. auto.
    + intros k u' r Hu' Hr'. right. exists u'. split; [|done].
      by eapply cleared_lookup.
Qed.

Lemma clearRoomId_wf_rooms cfg h userId :
  wf_rooms h → wf_rooms (clearRoomId cfg h userId).1.
Proof.
  intros Hwf. apply (wf_rooms_step h); [done|simpl; auto|].
  simpl. intros k u' r Hu' Hr'. right. exists u'. split; [|done].
  by eapply cleared_lookup.
Qed.

Lemma isId_truthy s : isId s = true → truthy s = true.
Proof. destruct s; [simpl; discriminate|reflexivity]. Qed.

Lemma size_two_members (X : gset jsstring) (a b : jsstring) :
  a ≠ b → 2 ≤ size (X ∪ {[a]} ∪ {[b]}).
Proof.
  intros Hab.
  assert (size ({[a]} ∪ {[b]} : gset jsstring) = 2) as <-.
  { rewrite size_union by set_solver. by rewrite !size_singleton. }
  apply subseteq_size. intros x. rewrite !elem_of_union. tauto.
Qed.

Lemma ensureRoom_lookup_ne rid h r :
  rid ≠ r → rooms (ensureRoom rid h) !! r = rooms h !! r.
Proof.
  intros Hne. unfold ensureRoom. destruct (rooms h !! rid); [done|].
  simpl. by rewrite lookup_insert_ne.
Qed.

Lemma entered_lookup (m : gmap jsstring User.t) (j k rid r : jsstring) u' :
  alter (User.set_roomId (Some rid)) j m !! k = Some u' →
  User.roomId u' = Some r → r = rid ∨ m !! k = Some u'.
Proof.
  destruct (decide (j = k)) as [->|Hne].
  - rewrite lookup_alter_eq. destruct (m !! k) as [u|]; simpl; [|done].
    intros [= <-]. simpl. intros [= <-]. by left.
  - rewrite lookup_alter_ne by done. auto.
Qed.

Lemma on_callStart_wf_rooms cfg env h userId user msg :
  wf_names h → wf_rooms h → users h !! userId = Some user →
  isId (makeId env) = true →
  wf_rooms (on_callStart cfg env h userId user msg).1.
Proof.
  intros Hn Hwf Hu Hfresh. unfold on_callStart.
  destruct (stringOrNull _) as [to|]; [|done].
  destruct (truthy to); simpl; [|done].
  destruct (users h !! to) as [callee|] eqn:Hc; [|done].
  case_decide as Hself; [done|].
  destruct (truthyO (User.name callee)); simpl; [|done].
  destruct (truthyO (User.roomId callee)); simpl; [done|].
  set (rid := match User.roomId user with Some r => r | None => makeId env end).
  assert (truthy rid = true) as Hrid.
  { unfold rid. destruct (User.roomId user) as [r|] eqn:Er.
    - exact (wf_roomId h Hwf _ _ _ Hu Er).
    - by apply isId_truthy. }
  apply (wf_rooms_step h); [done|..]; simpl.
  - intros r room'. destruct (decide (rid = r)) as [<-|Hne].
    + rewrite lookup_alter_eq. destruct (rooms (ensureRoom rid h) !! rid) as [room|];
        simpl; [|done].
      intros [= <-]. right. simpl. apply size_two_members.
      rewrite (wf_key h Hn _ _ Hu), (wf_key h Hn _ _ Hc). congruence.
    + rewrite lookup_alter_ne, ensureRoom_lookup_ne by done. auto.
  - intros k u' r Hu' Hr'. rewrite ensureRoom_users in Hu'.
    destruct (entered_lookup _ _ _ _ _ _ Hu' Hr') as [->|Hu'']; [by left|].
    destruct (entered_lookup _ _ _ _ _ _ Hu'' Hr') as [->|Hu''']; [by left|].
    right. eauto.
Qed.

Lemma on_callHangup_wf_rooms cfg h userId :
  wf_rooms h → wf_rooms (on_callHangup cfg h userId).1.
Proof.
  intros Hwf. unfold on_callHangup.
  pose proof (leaveRoom_wf_rooms h userId Hwf) as Hl. by destruct (leaveRoom h userId).
Qed.

Lemma on_callReject_wf_rooms cfg h userId user msg :
  wf_rooms h → wf_rooms (on_callReject cfg h userId user msg).1.
Proof.
  intros Hwf. unfold on_callReject. destruct (_ && _).
  - pose proof (leaveRoom_wf_rooms h userId Hwf) as Hl. by destruct (leaveRoom h userId).
  - by apply (clearRoomId_wf_rooms cfg).
Qed.

Lemma on_callAccept_wf_rooms cfg h userId user msg :
  wf_rooms h → wf_rooms (on_callAccept cfg h userId user msg).1.
Proof.
  intros Hwf. unfold on_callAccept.
  destruct (lookupFrom _ _); [|by apply clearRoomId_wf_rooms].
  destruct (_ || _); [by apply clearRoomId_wf_rooms|].
  destruct (getRoom _ _); [|by apply clearRoomId_wf_rooms].
  destruct (roomIdOf _ _); [done|by apply clearRoomId_wf_rooms].
Qed.

(** [setName] changes names and the index only. *)
Lemma on_setName_view {B} (g : User.t → B) cfg env h userId user msg :
  (∀ v u, g (User.set_name v u) = g u) →
  same_view g h (on_setName cfg env h userId user msg).1
  ∧ rooms (on_setName cfg env h userId user msg).1 = rooms h
  ∧ pushSubscriptions (on_setName cfg env h userId user msg).1
    = pushSubscriptions h.
Proof.
  intros Hg. unfold on_setName.
  destruct (safeName _) as [name|]; [|by split_and!].
  destruct (truthy name); simpl; [|by split_and!].
  destruct (match nameToId h !! name with Some _ => _ | None => _ end);
    [by split_and!|].
  unfold releaseOldName.
  destruct (User.name user) as [old|]; [destruct (_ && _)|];
    (split_and!; [intros k; simpl; by rewrite view_alter|done..]).
Qed.

Lemma on_setName_wf_names cfg env h userId user msg :
  wf_names h → users h !! userId = Some user →
  wf_names (on_setName cfg env h userId user msg).1.
Proof.
  intros Hwf Hu. pose proof Hwf as [Hk Hi Hn Hb Hh]. unfold on_setName.
  destruct (safeName _) as [name|]; [|done].
  destruct (truthy name) eqn:Hname; simpl; [|done].
  destruct (match nameToId h !! name with Some _ => _ | None => _ end) eqn:Hex;
    [done|].
  (* whoever is filed under [name] is this session *)
  assert (∀ k, nameToId h !! name = Some k → k = userId) as Hfree.
  { intros k Hnk. rewrite Hnk in Hex. destruct (Hb _ _ Hnk) as (u & Hku & _).
    rewrite (Hi _ _ Hku) in Hex. simpl in Hex.
    by apply bool_decide_eq_false, dec_stable in Hex. }
  set (idx := nameToId (releaseOldName h userId user)).
  assert (∀ n k, idx !! n = Some k → nameToId h !! n = Some k ∧ k ≠ userId) as Hidx.
  { intros n k. unfold idx, releaseOldName.
    destruct (User.name user) as [old|] eqn:Eold.
    - rewrite (Hn _ _ _ Hu Eold). simpl. rewrite (bool_decide_eq_true_2 _ (Hh _ _ _ Hu Eold)).
      simpl. destruct (decide (old = n)) as [->|Hne].
      + by rewrite lookup_delete_eq.
      + rewrite lookup_delete_ne by done. intros Hnk. split; [done|].
        intros ->. destruct (Hb _ _ Hnk) as (u & Hu2 & Hun). congruence.
    - intros Hnk. split; [done|]. intros ->.
      destruct (Hb _ _ Hnk) as (u & Hu2 & Hun). congruence. }
  assert (∀ n k, nameToId h !! n = Some k → k ≠ userId → idx !! n = Some k) as Hidx'.
  { intros n k Hnk Hne. unfold idx, releaseOldName.
    destruct (User.name user) as [old|]; [|done].
    destruct (_ && _) eqn:Hd; [|done]. simpl.
    apply andb_true_iff in Hd as [_ Hd]. apply bool_decide_eq_true in Hd.
    rewrite lookup_delete_ne; [done|]. congruence. }
  assert (users (releaseOldName h userId user) = users h) as Husers.
  { unfold releaseOldName. destruct (User.name user); [destruct (_ && _)|]; done. }
  split; simpl; rewrite ?Husers.
  - intros k u'. destruct (decide (userId = k)) as [<-|Hne].
    + rewrite lookup_alter_eq, Hu. simpl. intros [= <-]. simpl. eauto.
    + rewrite lookup_alter_ne by done. eauto.
  - intros k u'. destruct (decide (userId = k)) as [<-|Hne].
    + intros _. eauto.
    + rewrite lookup_alter_ne by done. eauto.
  - intros k u' n. destruct (decide (userId = k)) as [<-|Hne].
    + rewrite lookup_alter_eq, Hu. simpl. intros [= <-]. simpl. by intros [= <-].
    + rewrite lookup_alter_ne by done. eauto.
  - intros n k. destruct (decide (name = n)) as [<-|Hne].
    + rewrite lookup_insert_eq. intros [= <-]. rewrite lookup_alter_eq, Hu. simpl. eauto.
    + rewrite lookup_insert_ne by done. intros Hnk.
      destruct (Hidx _ _ Hnk) as [Hnk' Hk']. rewrite lookup_alter_ne by done. eauto.
  - intros k u' n. destruct (decide (userId = k)) as [<-|Hne].
    + rewrite lookup_alter_eq, Hu. simpl. intros [= <-]. simpl. intros [= <-].
      by rewrite lookup_insert_eq.
    + rewrite lookup_alter_ne by done. intros Hu' Hn'.
      pose proof (Hh _ _ _ Hu' Hn') as Hnk.
      destruct (decide (name = n)) as [<-|Hne'].
      * destruct Hne. symmetry. by apply Hfree.
      * rewrite lookup_insert_ne by done. apply Hidx'; [done|congruence].
Qed.

Lemma onConnection_wf_names cfg env h :
  wf_names h → isId (makeId env) = true → users h !! makeId env = None →
  wf_names (onConnection cfg env h).1.
Proof.
  intros [Hk Hi Hn Hb Hh] Hid Hnew. split; simpl.
  - intros k u. destruct (decide (makeId env = k)) as [<-|Hne].
    + rewrite lookup_insert_eq. by intros [= <-].
    + rewrite lookup_insert_ne by done. eauto.
  - intros k u. destruct (decide (makeId env = k)) as [<-|Hne].
    + intros _. by apply isId_truthy.
    + rewrite lookup_insert_ne by done. eauto.
  - intros k u n. destruct (decide (makeId env = k)) as [<-|Hne].
    + rewrite lookup_insert_eq. by intros [= <-].
    + rewrite lookup_insert_ne by done. eauto.
  - intros n k Hnk. destruct (Hb _ _ Hnk) as (u & Hu & Hun). exists u.
    split; [|done]. rewrite lookup_insert_ne; [done|]. congruence.
  - intros k u n. destruct (decide (makeId env = k)) as [<-|Hne].
    + rewrite lookup_insert_eq. by intros [= <-].
    + rewrite lookup_insert_ne by done. eauto.
Qed.

Lemma onConnection_wf_rooms cfg env h :
  wf_rooms h → wf_rooms (onConnection cfg env h).1.
Proof.
  intros Hwf. apply (wf_rooms_step h); [done|simpl; auto|]. simpl.
  intros k u' r. destruct (decide (makeId env = k)) as [<-|Hne].
  - rewrite lookup_insert_eq. by intros [= <-].
  - rewrite lookup_insert_ne by done. eauto.
Qed.

(** The state of [closeUser] before its broadcasts, in two steps. *)
Lemma closeUser_state cfg env h userId u :
  users h !! userId = Some u →
  let h1 := if truthyO (User.roomId u) then (leaveRoom h userId).1 else h in
  let h2 := with_push (delete userId) (with_users (delete userId) h1) in
  (closeUser cfg env h userId).1
  = match User.name u with
    | Some n =>
        if truthy n && bool_decide (nameToId h2 !! n = Some userId)
        then with_nameToId (delete n) h2 else h2
    | None => h2
    end.
Proof.
  intros Hu. unfold closeUser. rewrite Hu.
  destruct (truthyO (User.roomId u)); [destruct (leaveRoom h userId)|]; done.
Qed.

Lemma closeUser_wf_names cfg env h userId :
  wf_names h → wf_names (closeUser cfg env h userId).1.
Proof.
  intros Hwf. destruct (users h !! userId) as [u|] eqn:Hu;
    [|unfold closeUser; by rewrite Hu].
  rewrite (closeUser_state _ _ _ _ _ Hu). simpl.
  set (h1 := if truthyO (User.roomId u) then (leaveRoom h userId).1 else h).
  assert (keeps ident h h1) as Hkeep.
  { unfold h1. destruct (truthyO _); [by apply leaveRoom_keeps|apply keeps_refl]. }
  pose proof (wf_names_keeps _ _ Hwf Hkeep) as [Hk Hi Hn Hb Hh].
  destruct (same_view_lookup _ _ _ _ _ (proj1 Hkeep) Hu) as (u1 & Hu1 & E).
  injection E as E1 E2.
  assert (∀ k u', delete userId (users h1) !! k = Some u' →
                  k ≠ userId ∧ users h1 !! k = Some u') as Hdel.
  { intros k u'. destruct (decide (userId = k)) as [<-|Hne].
    - by rewrite lookup_delete_eq.
    - by rewrite lookup_delete_ne. }
  assert (∀ idx, (∀ n k, idx !! n = Some k →
                         nameToId h1 !! n = Some k ∧ k ≠ userId) →
                 (∀ n k, nameToId h1 !! n = Some k → k ≠ userId → idx !! n = Some k) →
                 wf_names {| users := delete userId (users h1); nameToId := idx;
                             rooms := rooms h1;
                             pushSubscriptions := delete userId (pushSubscriptions h1) |})
    as Hmk.
  { intros idx Hsub Hsup. split; simpl.
    - intros k u' Hd. apply Hdel in Hd as [_ ?]. eauto.
    - intros k u' Hd. apply Hdel in Hd as [_ ?]. eauto.
    - intros k u' n Hd. apply Hdel in Hd as [_ ?]. eauto.
    - intros n k Hnk. apply Hsub in Hnk as [Hnk Hne].
      destruct (Hb _ _ Hnk) as (u' & Hu' & Hun). exists u'.
      by rewrite lookup_delete_ne.
    - intros k u' n Hd Hun. apply Hdel in Hd as [Hne Hu']. apply Hsup; eauto. }
  destruct (User.name u) as [n|] eqn:En.
  - assert (nameToId h1 !! n = Some userId) as Hbound by exact (Hh _ _ _ Hu1 E2).
    assert (truthy n = true) as Htn by exact (Hn _ _ _ Hu1 E2).
    rewrite Htn, (bool_decide_eq_true_2 _ Hbound). simpl. apply Hmk.
    + intros m k. destruct (decide (n = m)) as [<-|Hne].
      * by rewrite lookup_delete_eq.
      * rewrite lookup_delete_ne by done. intros Hmk'. split; [done|].
        intros ->. destruct (Hb _ _ Hmk') as (u' & Hu' & Hun). congruence.
    + intros m k Hmk' Hne. rewrite lookup_delete_ne; [done|]. congruence.
  - apply Hmk.
    + intros m k Hmk'. split; [done|]. intros ->.
      destruct (Hb _ _ Hmk') as (u' & Hu' & Hun). congruence.
    + done.
Qed.

Lemma closeUser_wf_rooms cfg env h userId :
  wf_rooms h → wf_rooms (closeUser cfg env h userId).1.
Proof.
  intros Hwf. destruct (users h !! userId) as [u|] eqn:Hu;
    [|unfold closeUser; by rewrite Hu].
  rewrite (closeUser_state _ _ _ _ _ Hu). simpl.
  set (h1 := if truthyO (User.roomId u) then (leaveRoom h userId).1 else h).
  assert (wf_rooms h1) as Hwf1.
  { unfold h1. destruct (truthyO _); [by apply leaveRoom_wf_rooms|done]. }
  apply (wf_rooms_step h1); [done|..].
  - intros r room'. destruct (User.name u); [destruct (_ && _)|]; simpl; auto.
  - intros k u' r. destruct (User.name u); [destruct (_ && _)|]; simpl;
      (destruct (decide (userId = k)) as [<-|Hne];
       [by rewrite lookup_delete_eq|rewrite lookup_delete_ne by done; eauto]).
Qed.

Definition wf (h : Hub) : Prop := wf_names h ∧ wf_rooms h.

Lemma wf_same h h' :
  users h' = users h → nameToId h' = nameToId h → rooms h' = rooms h →
  wf h → wf h'.
Proof.
  intros Eu En Er [[Hk Hi Hn Hb Hh] [Hs Hr]].
  split; split; rewrite ?Eu, ?En, ?Er; eauto.
Qed.

Lemma wf_empty : wf empty_hub.
Proof. split; split; simpl; intros *; by rewrite lookup_empty. Qed.

Lemma counted_wf h userId t : wf h → wf (counted h userId t).
Proof.
  intros [Hn Hr]. split.
  - apply (wf_names_keeps h); [done|]. by apply counted_keeps.
  - apply (wf_rooms_keeps h); [done| |apply counted_rooms].
    by apply (counted_keeps User.roomId).
Qed.

Lemma dispatch_wf cfg env h userId user msg type :
  wf h → users h !! userId = Some user → isId (makeId env) = true →
  wf (dispatch cfg env h userId user msg type).1.
Proof.
  intros Hwf Hu Hid. pose proof Hwf as [Hn Hr]. unfold dispatch.
  destruct (decide (type = js "pushSubscribe")).
  { destruct (on_pushSubscribe_users cfg h userId msg) as (? & ? & ?).
    by apply (wf_same h). }
  destruct (decide (type = js "pushUnsubscribe")); [by apply (wf_same h)|].
  destruct (decide (type = js "setName")).
  { split.
    - by apply on_setName_wf_names.
    - destruct (on_setName_view User.roomId cfg env h userId user msg) as (? & ? & _);
        [done|]. by apply (wf_rooms_keeps h). }
  destruct (truthyO (User.name user)); simpl; [|done].
  destruct (decide (type = js "callStart")).
  { split.
    - apply (wf_names_keeps h); [done|]. by apply on_callStart_keeps.
    - by apply on_callStart_wf_rooms. }
  destruct (decide (type = js "callReject")).
  { split.
    - apply (wf_names_keeps h); [done|]. by apply on_callReject_keeps.
    - by apply on_callReject_wf_rooms. }
  destruct (decide (type = js "callAccept")).
  { split.
    - apply (wf_names_keeps h); [done|]. by apply on_callAccept_keeps.
    - by apply on_callAccept_wf_rooms. }
  destruct (decide (type = js "signal")); [by rewrite on_signal_state|].
  destruct (decide (type = js "callHangup")).
  { split.
    - apply (wf_names_keeps h); [done|]. by apply on_callHangup_keeps.
    - by apply on_callHangup_wf_rooms. }
  destruct (decide (type = js "chatSend")); [by rewrite on_chatSend_state|].
  done.
Qed.

Lemma onMessage_wf cfg env h userId data :
  wf h → isId (makeId env) = true → wf (onMessage cfg env h userId data).1.
Proof.
  intros Hwf Hid. unfold onMessage.
  destruct (users h !! userId) as [user|] eqn:Hu; [|done].
  pose proof (counted_wf h userId (now env) Hwf) as Hwf'.
  destruct (dispatched _ _ _); simpl; [|done].
  destruct data as [msg|]; [|done].
  destruct (if falsy msg then _ else _) as [type|]; [|done].
  apply dispatch_wf; [done| |done]. by apply counted_lookup.
Qed.

Lemma step_wf cfg h e : wf h → possible h e = true → wf (step cfg h e).1.
Proof.
  intros Hwf Hp. pose proof Hwf as [Hn Hr]. unfold possible in Hp.
  apply andb_true_iff in Hp as [Hid Hnew].
  destruct e as [env|userId env data|userId env|userId state|userId];
    simpl in Hid, Hnew.
  - apply bool_decide_eq_true in Hnew. split.
    + by apply (onConnection_wf_names cfg).
    + by apply (onConnection_wf_rooms cfg).
  - by apply (onMessage_wf cfg).
  - split; [by apply closeUser_wf_names|by apply closeUser_wf_rooms].
  - split.
    + apply (wf_names_keeps h); [done|]. by apply keeps_alter.
    + apply (wf_rooms_keeps h); [done| |done]. by apply same_view_alter.
  - by apply (wf_same h).
Qed.

Lemma reachable_wf cfg h : reachable cfg h → wf h.
Proof.
  induction 1 as [|h e _ IH Hp]; [apply wf_empty|by apply step_wf].
Qed.

Lemma run_reachable cfg h es h' out :
  reachable cfg h → run cfg h es = Some (h', out) → reachable cfg h'.
Proof.
  revert h out. induction es as [|e es IH]; intros h out Hr; simpl.
  - by intros [= <- _].
  - destruct (possible h e) eqn:Hp; [|done].
    pose proof (reachable_step cfg h e Hr Hp) as Hr'.
    destruct (step cfg h e) as [h1 out1]. simpl in Hr'.
    destruct (run cfg h1 es) as [[h2 out2]|] eqn:Hrun; [|done].
    intros [= <- _]. by eapply IH.
Qed.

(** The state a list of events leads to from the empty hub (the empty hub
    itself when the list cannot happen). *)
Definition after (cfg : Config) (es : list Event) : Hub :=
  match run cfg empty_hub es with
  | Some (h, _) => h
  | None => empty_hub
  end.

Lemma reachable_after cfg es : reachable cfg (after cfg es).
Proof.
  unfold after. destruct (run cfg empty_hub es) as [[h out]|] eqn:Hrun.
  - eapply run_reachable; [apply reachable_init|done].
  - apply reachable_init.
Defined.

(** ** Signaling confinement *)


(** Everything of a session record but the limiter's window. *)
Definition outward (u : User.t) : jsstring * option jsstring * N * option jsstring :=
  (User.id u, User.name u, User.readyState u, User.roomId u).

Lemma outward_eq u u' :
  outward u' = outward u →
  User.id u' = User.id u ∧ User.name u' = User.name u
  ∧ User.open u' = User.open u ∧ User.roomId u' = User.roomId u.
Proof. unfold outward, User.open. intros [= -> -> -> ->]. done. Qed.

Lemma counted_outward h userId t : same_view outward h (counted h userId t).
Proof. by apply (counted_keeps outward). Qed.

Lemma send_outward u u' f : outward u' = outward u → send u' f = send u f.
Proof. intros E. apply outward_eq in E as (Ei & _ & Eo & _). unfold send. by rewrite Ei, Eo. Qed.




(** ** Rejecting a call *)

(** C9.  A [callReject] frame of a named session that names any existing
    session [f] in [from] makes the hub send
    [{type:'callRejected', reason:'rejected'}] to [f], first of all and
    whatever the rooms are: nothing is asked about an invitation from [f]
    or a room shared with it.  (The frame passes the rate check and the
    socket of [f] is open.) *)
Theorem callReject_reaches_any_session cfg env h userId s msg f F :
  reachable cfg h →
  users h !! userId = Some s →
  truthyO (User.name s) = true →
  dispatched h userId (now env) = true →
  field msg "type" = Some (JStr (js "callReject")) →
  field msg "from" = Some (JStr f) →
  users h !! f = Some F →
  User.open F = true →
  ∃ rest, (onMessage cfg env h userId (Some msg)).2
          = Send f callRejected_rejected :: rest.
Proof.
  intros Hreach Hs Hnamed Hok Hty Hfrom HF Hopen.
  destruct (reachable_wf _ _ Hreach) as [[Hk Hi _ _ _] _].
  rewrite (onMessage_dispatch _ _ _ _ _ _ _ Hs Hok Hty).
  rewrite dispatch_callReject by done.
  destruct (same_view_lookup _ _ _ _ _ (counted_outward h userId (now env)) HF)
    as (F1 & HF1 & E).
  unfold on_callReject. rewrite Hfrom. simpl. rewrite (Hi _ _ HF), HF1.
  rewrite (send_outward _ _ _ E). unfold send. rewrite Hopen, (Hk _ _ HF). simpl.
  destruct (if _ && _ then _ else _) as [h' out]. simpl. eauto.
Qed.

Definition rejectFrom (from : jsstring) : json :=
  JObj [(js "type", JStr (js "callReject")); (js "from", JStr from)].

(** Carol, who was never invited by Alice and is in no room, makes the hub
    tell Alice that her call was rejected. *)
Lemma callReject_reaches_any_session_witness :
  ∃ rest,
    (onMessage Example.cfg (Example.at_ 5) (after Example.cfg Example.opening)
       Example.idC (Some (rejectFrom Example.idA))).2
    = Send Example.idA callRejected_rejected :: rest.
Proof.
  apply (callReject_reaches_any_session Example.cfg (Example.at_ 5)
           (after Example.cfg Example.opening) Example.idC
           (Example.carol None 1) (rejectFrom Example.idA) Example.idA
           (Example.alice None 1)).
  - apply reachable_after.
  - vm_compute. reflexivity.
  - reflexivity.
  - vm_compute. reflexivity.
  - reflexivity.
  - reflexivity.
  - vm_compute. reflexivity.
  - reflexivity.
Defined.

(** ** Push frames and the gate of the anonymous state *)

(** The tables after [pushSubscribe]. *)
Lemma on_pushSubscribe_store cfg h userId msg :
  let r := on_pushSubscribe cfg h userId msg in
  r.2 = []
  ∧ users r.1 = users h ∧ nameToId r.1 = nameToId h ∧ rooms r.1 = rooms h
  ∧ (∀ k, k ≠ userId → pushSubscriptions r.1 !! k = pushSubscriptions h !! k)
  ∧ (PUSH_ENABLED cfg = true →
     ∀ sub, field msg "subscription" = Some sub →
            (∃ props, sub = JObj props) ∨ (∃ items, sub = JArr items) →
            pushSubscriptions r.1 !! userId = Some sub)
  ∧ (PUSH_ENABLED cfg = false →
     pushSubscriptions r.1 !! userId = pushSubscriptions h !! userId)
  ∧ ((∀ props, field msg "subscription" ≠ Some (JObj props)) →
     (∀ items, field msg "subscription" ≠ Some (JArr items)) →
     pushSubscriptions r.1 !! userId = pushSubscriptions h !! userId).
Proof.
  unfold on_pushSubscribe. destruct (PUSH_ENABLED cfg); cbn [negb].
  - destruct (field msg "subscription") as [[| | | |items|props]|]; cbn [isObject fst snd].
    + split_and!; try done. intros _ sub [= <-] [[? ?]|[? ?]]; done.
    + split_and!; try done. intros _ sub [= <-] [[? ?]|[? ?]]; done.
    + split_and!; try done. intros _ sub [= <-] [[? ?]|[? ?]]; done.
    + split_and!; try done. intros _ sub [= <-] [[? ?]|[? ?]]; done.
    + split_and!; try done.
      * intros k Hne. simpl. by rewrite lookup_insert_ne.
      * intros _ sub [= <-] _. simpl. by rewrite lookup_insert_eq.
      * intros _ Hno. by destruct (Hno items).
    + split_and!; try done.
      * intros k Hne. simpl. by rewrite lookup_insert_ne.
      * intros _ sub [= <-] _. simpl. by rewrite lookup_insert_eq.
      * intros Hno _. by destruct (Hno props).
    + by split_and!.
  - by split_and!.
Qed.

(** C7.  For a frame that passes the rate check and carries a string
    [type]:
    - [pushSubscribe] and [pushUnsubscribe] are handled whether or not the
      session has a name, nothing is sent in reply, and the sessions, the
      name index, the rooms and the push entries of the other sessions are
      as they were once the limiter has counted the frame;
    - with push enabled, a [pushSubscribe] that carries an object under
      [subscription] leaves that object on file under the session's id;
      with push disabled, or with no object in the frame, the entry of the
      session is as it was;
    - after [pushUnsubscribe] the push store has no entry for the session;
    - in a session without a name, every other type but [setName] is
      answered with [{type:'error', code:'NO_NAME'}] alone, and the hub is
      as it was once the limiter has counted the frame. *)
Theorem push_frames_and_anonymous_gate cfg env h userId user msg type :
  users h !! userId = Some user →
  dispatched h userId (now env) = true →
  field msg "type" = Some (JStr type) →
  let h1 := counted h userId (now env) in
  let r := onMessage cfg env h userId (Some msg) in
  let rest_untouched :=
    users r.1 = users h1 ∧ nameToId r.1 = nameToId h ∧ rooms r.1 = rooms h
    ∧ ∀ k, k ≠ userId → pushSubscriptions r.1 !! k = pushSubscriptions h !! k in
  (type = js "pushSubscribe" →
   r.2 = [] ∧ rest_untouched
   ∧ (PUSH_ENABLED cfg = true →
      ∀ sub, field msg "subscription" = Some sub →
             (∃ props, sub = JObj props) ∨ (∃ items, sub = JArr items) →
             pushSubscriptions r.1 !! userId = Some sub)
   ∧ (PUSH_ENABLED cfg = false →
      pushSubscriptions r.1 !! userId = pushSubscriptions h !! userId)
   ∧ ((∀ props, field msg "subscription" ≠ Some (JObj props)) →
      (∀ items, field msg "subscription" ≠ Some (JArr items)) →
      pushSubscriptions r.1 !! userId = pushSubscriptions h !! userId))
  ∧ (type = js "pushUnsubscribe" →
     r.2 = [] ∧ rest_untouched ∧ pushSubscriptions r.1 !! userId = None)
  ∧ (type ≠ js "pushSubscribe" → type ≠ js "pushUnsubscribe" →
     type ≠ js "setName" → truthyO (User.name user) = false →
     r.1 = h1
     ∧ (User.open user = true → r.2 = [Send (User.id user) (error NO_NAME)])).
Proof.
  intros Hu Hok Hty h1 r rest_untouched. unfold rest_untouched, r.
  rewrite (onMessage_dispatch _ _ _ _ _ _ _ Hu Hok Hty). fold h1.
  assert (nameToId h1 = nameToId h) as En by apply counted_nameToId.
  assert (rooms h1 = rooms h) as Er by apply counted_rooms.
  assert (pushSubscriptions h1 = pushSubscriptions h) as Ep by apply counted_push.
  split_and!.
  - intros ->. rewrite dispatch_pushSubscribe.
    destruct (on_pushSubscribe_store cfg h1 userId msg)
      as (Hout & Eu' & En' & Er' & Hothers & Hstore & Hoff & Hnone).
    rewrite <- En, <- Er, <- Ep. by split_and!.
  - intros ->. rewrite dispatch_pushUnsubscribe. unfold on_pushUnsubscribe.
    cbn [fst snd]. split_and!; try done.
    + intros k Hne. simpl. by rewrite lookup_delete_ne, Ep.
    + simpl. by rewrite lookup_delete_eq.
  - intros H1 H2 H3 Hanon. rewrite dispatch_anonymous by done.
    split; [done|]. intros Hopen. unfold send, User.open in *. simpl.
    by rewrite Hopen.
Qed.

Definition newcomer : User.t := User.mk Example.idA None 1 0 None None.

(** A session that has just connected files a push subscription, and
    then asks for a call. *)
Lemma push_frames_and_anonymous_gate_witness :
  let sub := JObj [(js "endpoint", JStr (js "https://push.example/1"))] in
  let r := onMessage Example.cfg (Example.at_ 5)
             (after Example.cfg [Example.connect Example.idA]) Example.idA
             (Some (JObj [(js "type", JStr (js "pushSubscribe"));
                          (js "subscription", sub)])) in
  (r.2 = [] ∧ pushSubscriptions r.1 !! Example.idA = Some sub)
  ∧ (onMessage Example.cfg (Example.at_ 5)
       (after Example.cfg [Example.connect Example.idA]) Example.idA
       (Some (JObj [(js "type", JStr (js "callHangup"))]))).2
    = [Send Example.idA (error NO_NAME)].
Proof.
  split.
  - destruct (proj1 (push_frames_and_anonymous_gate Example.cfg
                (Example.at_ 5) (after Example.cfg [Example.connect Example.idA])
                Example.idA newcomer
                (JObj [(js "type", JStr (js "pushSubscribe"));
                       (js "subscription",
                        JObj [(js "endpoint", JStr (js "https://push.example/1"))])])
                (js "pushSubscribe") ltac:(vm_compute; reflexivity)
                ltac:(vm_compute; reflexivity) eq_refl) eq_refl)
      as (Hout & _ & Hstore & _).
    split; [exact Hout|]. apply Hstore; [reflexivity|reflexivity|]. left. eauto.
  - refine (proj2 (proj2 (proj2 (push_frames_and_anonymous_gate Example.cfg
              (Example.at_ 5) (after Example.cfg [Example.connect Example.idA])
              Example.idA newcomer (JObj [(js "type", JStr (js "callHangup"))])
              (js "callHangup") _ _ _)) _ _ _ _) _).
    + vm_compute. reflexivity.
    + vm_compute. reflexivity.
    + reflexivity.
    + js_differ.
    + js_differ.
    + js_differ.
    + reflexivity.
    + reflexivity.
Defined.

(** ** Claiming and changing a name *)

Lemma elem_of_values {A} (m : gmap jsstring A) (x : A) :
  x ∈ values m ↔ ∃ k, m !! k = Some x.
Proof.
  unfold values. rewrite list_elem_of_fmap. split.
  - intros ([k y] & -> & Hin). exists k. by apply elem_of_map_to_list.
  - intros (k & Hk). exists (k, x). split; [done|]. by apply elem_of_map_to_list.
Qed.

Lemma elem_of_broadcastSystem env h text e :
  e ∈ broadcastSystem env h text ↔
  ∃ k u, users h !! k = Some u ∧ truthyO (User.name u) = true
         ∧ User.open u = true ∧ e = Send (User.id u) (systemChat env text).
Proof.
  unfold broadcastSystem. rewrite list_elem_of_bind. split.
  - intros (u & He & Hu). apply elem_of_values in Hu as (k & Hk).
    destruct (truthyO (User.name u)) eqn:Hn; simpl in He;
      [|by apply elem_of_nil in He].
    destruct (User.open u) eqn:Ho; [|by apply elem_of_nil in He].
    apply list_elem_of_singleton in He. eauto 10.
  - intros (k & u & Hk & Hn & Ho & ->). exists u. split.
    + rewrite Hn, Ho. simpl. by apply list_elem_of_singleton.
    + apply elem_of_values. eauto.
Qed.

Lemma safeName_truthy v n : safeName v = Some n → truthy n = true.
Proof.
  unfold safeName. destruct v as [[| | |s| |]|]; try done.
  destruct (_ || _); [done|]. destruct (truthy (trim s)) eqn:Ht; simpl; [|done].
  destruct (forallb _ _); simpl; [|done]. by intros [= <-].
Qed.



Lemma releaseOldName_users h userId user :
  users (releaseOldName h userId user) = users h
  ∧ rooms (releaseOldName h userId user) = rooms h.
Proof.
  unfold releaseOldName. destruct (User.name user); [destruct (_ && _)|]; done.
Qed.









Lemma send_open u f : User.open u = true → send u f = [Send (User.id u) f].
Proof. intros Ho. unfold send. by rewrite Ho. Qed.






(** ** Trimming and the prefixes of a chat text *)

Definition blank (w : jsstring) : Prop := forallb is_space w = true.

Lemma trimStart_blank w s : blank w → trimStart (w ++ s) = trimStart s.
Proof.
  unfold blank. induction w as [|c w IH]; [done|]. simpl.
  intros [Hc Hw]%andb_true_iff. rewrite Hc. auto.
Qed.

Lemma trimStart_split s : ∃ w, blank w ∧ s = w ++ trimStart s.
Proof.
  induction s as [|c s (w & Hw & IH)]; [by exists []|]. simpl.
  destruct (is_space c) eqn:Hc.
  - exists (c :: w). split; [unfold blank; simpl; by rewrite Hc|]. simpl. by f_equal.
  - by exists [].
Qed.


Lemma blank_reverse w : blank w → blank (reverse w).
Proof.
  unfold blank. induction w as [|c w IH]; [done|]. simpl.
  intros [Hc Hw]%andb_true_iff. rewrite reverse_cons, forallb_app. simpl.
  by rewrite IH, Hc.
Qed.

Lemma trimEnd_split s : ∃ w, blank w ∧ s = trimEnd s ++ w.
Proof.
  unfold trimEnd. destruct (trimStart_split (reverse s)) as (w & Hw & E).
  exists (reverse w). split; [by apply blank_reverse|].
  rewrite <- reverse_app, <- E. by rewrite reverse_involutive.
Qed.

Lemma trimEnd_blank s w : blank w → trimEnd (s ++ w) = trimEnd s.
Proof.
  intros Hw. unfold trimEnd. rewrite reverse_app.
  by rewrite trimStart_blank by by apply blank_reverse.
Qed.












Lemma index_from_range c s : ∀ k i, index_from c s k = Some i → k ≤ i < k + length s.
Proof.
  induction s as [|d s IH]; intros k i; simpl; [done|].
  destruct (d =? c)%N.
  - intros [= <-]. lia.
  - intros H. apply IH in H. lia.
Qed.







Lemma parsePrivatePrefix_at text r :
  parsePrivatePrefix text = Some r → startsWith text (js "@") = true.
Proof.
  unfold parsePrivatePrefix. by destruct (startsWith text (js "@")).
Qed.




(** ** Chat routing *)









(** ** Dissolving a room *)

Lemma sole_member (X : gset jsstring) (m : jsstring) :
  size X ≤ 1 → m ∈ X → elements X = [m].
Proof.
  intros Hsize Hm.
  assert (size X = 1) as H1.
  { destruct (size X) as [|[|n]] eqn:E; [|done|lia].
    apply size_empty_inv in E. apply leibniz_equiv in E. subst X.
    by apply not_elem_of_empty in Hm. }
  apply size_1_elem_of in H1 as (x & Hx). apply leibniz_equiv in Hx. subst X.
  apply elem_of_singleton in Hm as ->. apply elements_singleton.
Qed.

Lemma leaveRoom_dissolves h userId user rid room :
  wf_names h →
  users h !! userId = Some user → User.roomId user = Some rid →
  truthy rid = true → rooms h !! rid = Some room →
  size (Room.members room ∖ {[userId]}) ≤ 1 →
  rooms (leaveRoom h userId).1 !! rid = None
  ∧ ∀ m last, m ∈ Room.members room → m ≠ userId → users h !! m = Some last →
      (∃ last', users (leaveRoom h userId).1 !! m = Some last'
                ∧ User.roomId last' = None)
      ∧ (User.open last = true →
         Send m callEnded_alone ∈ (leaveRoom h userId).2).
Proof.
  intros Hwf Hu Hrid Ht Hroom Hsize. unfold leaveRoom.
  rewrite Hu, Hrid, Ht, Hroom. simpl. rewrite (wf_key h Hwf _ _ Hu).
  rewrite decide_True by done. split.
  - destruct (head _) as [lastId|]; [destruct (truthy lastId); [destruct (_ !! lastId)|]|];
      simpl; by rewrite lookup_delete_eq.
  - intros m last Hm Hne Hlast.
    assert (m ∈ Room.members room ∖ {[userId]}) as Hin by set_solver.
    rewrite (sole_member _ _ Hsize Hin). simpl.
    rewrite (wf_id h Hwf _ _ Hlast). rewrite lookup_alter_ne by done.
    rewrite Hlast. simpl. split.
    + rewrite lookup_alter_eq, lookup_alter_ne by done. rewrite Hlast. simpl. eauto.
    + intros Ho. rewrite (send_open last callEnded_alone Ho), (wf_key h Hwf _ _ Hlast).
      apply elem_of_app. right. by left.
Qed.

(** An event by which the session [userId] leaves its room: its hangup, its
    rejection of a call into the room it is in, or the end of its
    connection.  Frames are those of a named session that pass the rate
    check. *)
Definition leaving (h : Hub) (userId : jsstring) (user : User.t) (e : Event) : Prop :=
  match e with
  | Close k _ => k = userId
  | Message k env (Some msg) =>
      k = userId ∧ truthyO (User.name user) = true
      ∧ dispatched h userId (now env) = true
      ∧ (field msg "type" = Some (JStr (js "callHangup"))
         ∨ (field msg "type" = Some (JStr (js "callReject"))
            ∧ roomIdOf msg user = User.roomId user))
  | _ => False
  end.

Lemma leaving_step cfg h userId user rid e :
  users h !! userId = Some user → User.roomId user = Some rid →
  truthy rid = true → leaving h userId user e →
  ∃ h0, (h0 = h ∨ ∃ t, h0 = counted h userId t)
        ∧ rooms (step cfg h e).1 = rooms (leaveRoom h0 userId).1
        ∧ (∀ m, m ≠ userId →
                users (step cfg h e).1 !! m = users (leaveRoom h0 userId).1 !! m)
        ∧ (∀ x, x ∈ (leaveRoom h0 userId).2 → x ∈ (step cfg h e).2).
Proof.
  intros Hu Hrid Ht Hleave.
  destruct e as [env|k env [msg|]|k env|k state|k]; simpl in Hleave; try done.
  - destruct Hleave as (-> & Hnamed & Hok & Hty). exists (counted h userId (now env)).
    split; [eauto|]. simpl.
    destruct Hty as [Hty|[Hty Hroom]];
      rewrite (onMessage_dispatch _ _ _ _ _ _ _ Hu Hok Hty).
    + rewrite dispatch_callHangup by done. unfold on_callHangup.
      destruct (leaveRoom _ _) as [h' out]. simpl. split_and!; [done..|].
      intros x Hx. apply elem_of_app. by left.
    + rewrite dispatch_callReject by done. unfold on_callReject.
      change (roomIdOf msg (ticked user (now env))) with (roomIdOf msg user).
      rewrite Hroom, Hrid. simpl. rewrite Ht. simpl.
      rewrite bool_decide_eq_true_2 by done.
      destruct (leaveRoom _ _) as [h' out]. simpl. split_and!; [done..|].
      intros x Hx. apply elem_of_app. right. apply elem_of_app. by left.
  - subst k. exists h. split; [by left|]. simpl.
    rewrite (closeUser_state _ _ _ _ _ Hu). unfold closeUser.
    rewrite Hu, Hrid. simpl. rewrite Ht.
    destruct (leaveRoom h userId) as [h' out]. simpl. split_and!.
    + destruct (User.name user); [destruct (_ && _)|]; done.
    + intros m Hne.
      destruct (User.name user); [destruct (_ && _)|]; simpl;
        by rewrite lookup_delete_ne.
    + intros x Hx. apply elem_of_app. by left.
Qed.

(** C3.  Room dissolution.  In every reachable state each room has at
    least two members.  And when a session leaves its room (by
    [callHangup], by a [callReject] for the room it is in, or by
    disconnecting) and at most one member remains, the room is deleted and
    the remaining member's session has its [roomId] cleared and is sent
    [{type:'callEnded', reason:'alone'}] (its socket being open). *)
Theorem room_dissolution cfg :
  (∀ h, reachable cfg h →
        ∀ r room, rooms h !! r = Some room → 2 ≤ size (Room.members room))
  ∧ (∀ h userId user rid room e,
       reachable cfg h →
       users h !! userId = Some user → User.roomId user = Some rid →
       rooms h !! rid = Some room → userId ∈ Room.members room →
       leaving h userId user e →
       size (Room.members room ∖ {[userId]}) ≤ 1 →
       rooms (step cfg h e).1 !! rid = None
       ∧ ∀ m last, m ∈ Room.members room → m ≠ userId →
                   users h !! m = Some last →
           (∃ last', users (step cfg h e).1 !! m = Some last'
                     ∧ User.roomId last' = None)
           ∧ (User.open last = true →
              Send m callEnded_alone ∈ (step cfg h e).2)).
Proof.
  split.
  - intros h Hreach. apply (wf_room_size h), (reachable_wf cfg h Hreach).
  - intros h userId user rid room e Hreach Hu Hrid Hroom _ Hleave Hsize.
    pose proof (reachable_wf _ _ Hreach) as [Hn Hr].
    pose proof (wf_roomId h Hr _ _ _ Hu Hrid) as Ht.
    destruct (leaving_step cfg h userId user rid e Hu Hrid Ht Hleave)
      as (h0 & Hh0 & Erooms & Eusers & Hout).
    assert (wf_names h0 ∧ rooms h0 = rooms h
            ∧ (∃ user0, users h0 !! userId = Some user0
                        ∧ User.roomId user0 = Some rid)
            ∧ ∀ m, m ≠ userId → users h0 !! m = users h !! m) as (Hn0 & Er0 & Hu0 & Hm0).
    { destruct Hh0 as [->|[t ->]].
      - split_and!; eauto.
      - split_and!.
        + by apply counted_wf.
        + apply counted_rooms.
        + exists (ticked user t). split; [by apply counted_lookup|done].
        + intros m Hne. by apply counted_lookup_ne. }
    destruct Hu0 as (user0 & Hu0 & Hrid0). rewrite <- Er0 in Hroom.
    destruct (leaveRoom_dissolves h0 userId user0 rid room Hn0 Hu0 Hrid0 Ht Hroom Hsize)
      as [Hgone Hlast].
    split; [by rewrite Erooms|].
    intros m last Hm Hne Hl. rewrite <- Hm0 in Hl by done.
    destruct (Hlast m last Hm Hne Hl) as [Hcleared Hsent]. split.
    + by rewrite Eusers.
    + intros Ho. by apply Hout, Hsent.
Qed.

(** Alice has invited Bob and her connection ends: the room is gone and
    Bob is told that he is alone. *)
Lemma room_dissolution_witness :
  let r := step Example.cfg (after Example.cfg Example.ringing)
             (Close Example.idA (Example.at_ 9)) in
  rooms r.1 !! Example.idR = None
  ∧ (∃ bob', users r.1 !! Example.idB = Some bob' ∧ User.roomId bob' = None)
  ∧ Send Example.idB callEnded_alone ∈ r.2.
Proof.
  destruct (proj2 (room_dissolution Example.cfg)
              (after Example.cfg Example.ringing) Example.idA
              (Example.alice (Some Example.idR) 2) Example.idR
              (Room.mk Example.idR ({[Example.idA]} ∪ {[Example.idB]}))
              (Close Example.idA (Example.at_ 9))) as [Hgone Hlast].
  - apply reachable_after.
  - vm_compute. reflexivity.
  - reflexivity.
  - vm_compute. reflexivity.
  - vm_compute. reflexivity.
  - reflexivity.
  - vm_compute. lia.
  - destruct (Hlast Example.idB (Example.bob (Some Example.idR) 1)) as [Hcleared Hsent].
    + vm_compute. reflexivity.
    + js_differ.
    + vm_compute. reflexivity.
    + split_and!; [exact Hgone|exact Hcleared|by apply Hsent].
Defined.

(** ** Room and session records that disagree *)

(** The membership invariant as the registries are meant to keep it: every
    member of a room is a session whose [roomId] is that room, and a
    session's [roomId] names a room that exists. *)
Definition room_session_consistent (h : Hub) : Prop :=
  (∀ r room m, rooms h !! r = Some room → m ∈ Room.members room →
               ∃ u, users h !! m = Some u ∧ User.roomId u = Some (Room.id room))
  ∧ (∀ k u r, users h !! k = Some u → User.roomId u = Some r →
              is_Some (rooms h !! r)).

Definition callAccept (who from roomId : jsstring) : Event :=
  Message who (Example.at_ 0)
    (Some (JObj [(js "type", JStr (js "callAccept")); (js "from", JStr from);
                 (js "roomId", JStr roomId)])).
Definition callHangup (who : jsstring) : Event :=
  Message who (Example.at_ 0) (Some (JObj [(js "type", JStr (js "callHangup"))])).

(** Alice calls Carol, who accepts; Alice invites Bob into the call and
    hangs up while Bob's phone rings; then Bob accepts. *)
Definition late_accept : list Event :=
  Example.opening
  ++ [Example.callStart Example.idA Example.idC;
      callAccept Example.idC Example.idA Example.idR;
      Example.callStart Example.idA Example.idB;
      callHangup Example.idA;
      callAccept Example.idB Example.idA Example.idR].

(** C2 fails on the code.  After [late_accept], a run of well-behaved
    clients, the room still lists Bob as a member while Bob's session has
    no [roomId]: the branch of [callAccept] for a caller who is no longer
    in the room clears [user.roomId] without taking the session out of
    [room.members]. *)
Theorem late_accept_breaks_consistency :
  let h := after Example.cfg late_accept in
  reachable Example.cfg h
  ∧ rooms h !! Example.idR
    = Some (Room.mk Example.idR ({[Example.idB]} ∪ {[Example.idC]}))
  ∧ users h !! Example.idB = Some (Example.bob None 2)
  ∧ ¬ room_session_consistent h.
Proof.
  assert (rooms (after Example.cfg late_accept) !! Example.idR
          = Some (Room.mk Example.idR ({[Example.idB]} ∪ {[Example.idC]})))
    as Hroom by (vm_compute; reflexivity).
  assert (users (after Example.cfg late_accept) !! Example.idB
          = Some (Example.bob None 2)) as Hbob by (vm_compute; reflexivity).
  split_and!; [apply reachable_after|done..|].
  intros [Hmembers _].
  destruct (Hmembers _ _ Example.idB Hroom) as (u & Hu & Hrid).
  - vm_compute. reflexivity.
  - rewrite Hbob in Hu. injection Hu as <-. discriminate Hrid.
Qed.

(** ** Rate limiting *)

Lemma dispatch_rl cfg env h userId user msg type :
  same_view User._rl h (dispatch cfg env h userId user msg type).1.
Proof.
  unfold dispatch.
  destruct (decide (type = js "pushSubscribe")).
  { intros k. by rewrite (proj1 (on_pushSubscribe_users cfg h userId msg)). }
  destruct (decide (type = js "pushUnsubscribe")); [done|].
  destruct (decide (type = js "setName")).
  { by apply on_setName_view. }
  destruct (truthyO (User.name user)); simpl; [|done].
  destruct (decide (type = js "callStart")); [by apply on_callStart_keeps|].
  destruct (decide (type = js "callReject")); [by apply on_callReject_keeps|].
  destruct (decide (type = js "callAccept")); [by apply on_callAccept_keeps|].
  destruct (decide (type = js "signal")); [by rewrite on_signal_state|].
  destruct (decide (type = js "callHangup")); [by apply on_callHangup_keeps|].
  destruct (decide (type = js "chatSend")); [by rewrite on_chatSend_state|].
  done.
Qed.

(** Whatever a frame does, the session is still there afterwards and its
    window is the one the limiter computed for the frame. *)
Lemma onMessage_rl cfg env h userId user data :
  users h !! userId = Some user →
  ∃ user', users (onMessage cfg env h userId data).1 !! userId = Some user'
           ∧ User._rl user' = Some (rateLimit (User._rl user) (now env)).1.
Proof.
  intros Hu. unfold onMessage. rewrite Hu.
  pose proof (counted_lookup h userId (now env) user Hu) as Hc.
  destruct (dispatched _ _ _); simpl; [|eauto].
  destruct data as [msg|]; [|eauto].
  destruct (if falsy msg then _ else _) as [type|]; [|eauto].
  destruct (same_view_lookup _ _ _ _ _
              (dispatch_rl cfg env (counted h userId (now env)) userId
                 (ticked user (now env)) msg type) Hc) as (u' & Hu' & E).
  eauto.
Qed.

(** The frames of one session, served one after the other: the arrival
    time of each and whether the limiter let it through. *)
Fixpoint serve (cfg : Config) (h : Hub) (userId : jsstring)
    (frames : list (Env * option json)) : list (Z * bool) :=
  match frames with
  | [] => []
  | (env, data) :: rest =>
      (now env, dispatched h userId (now env))
      :: serve cfg (onMessage cfg env h userId data).1 userId rest
  end.

(** How many frames of a log were dispatched, in all and among those that
    arrived in the interval from [a] to [b] (the latter excluded). *)
Definition dispatched_count (log : list (Z * bool)) : nat :=
  length (filter (λ p, p.2 = true) log).
Definition dispatched_between (a b : Z) (log : list (Z * bool)) : nat :=
  length (filter (λ p, p.2 = true ∧ (a ≤ p.1 < b)%Z) log).

Lemma rateLimit_opens rl t :
  rl = None ∨ (∃ w, rl = Some w ∧ (2000 < t - windowStart w)%Z) →
  rateLimit rl t = ({| windowStart := t; count := 1 |}, true).
Proof.
  unfold rateLimit. intros [->|(w & -> & Hlate)]; simpl.
  - replace (t - t)%Z with 0%Z by lia. done.
  - apply Z.ltb_lt in Hlate. by rewrite Hlate.
Qed.

Lemma rateLimit_within t0 c t :
  (t - t0 ≤ 2000)%Z →
  rateLimit (Some {| windowStart := t0; count := c |}) t
  = ({| windowStart := t0; count := c + 1 |}, bool_decide (c < 20)%Z).
Proof.
  intros Hin. unfold rateLimit. simpl.
  apply Z.ltb_ge in Hin. rewrite Hin. simpl. f_equal.
  destruct (Z.leb_spec (c + 1) 20); case_bool_decide; (done || lia).
Qed.

Lemma serve_window cfg userId t0 rest :
  ∀ h user c,
    users h !! userId = Some user →
    User._rl user = Some {| windowStart := t0; count := c |} →
    Forall (λ f, (now f.1 - t0 ≤ 2000)%Z) rest →
    (serve cfg h userId rest).*2
    = (λ i, bool_decide (c + Z.of_nat i < 20)%Z) <$> seq 0 (length rest).
Proof.
  induction rest as [|[env data] rest IH]; intros h user c Hu Hrl Hall; [done|].
  apply Forall_cons in Hall as [Hin Hall]. simpl in Hin. simpl.
  unfold dispatched at 1. rewrite Hu, Hrl, (rateLimit_within _ _ _ Hin). simpl.
  replace (c + Z.of_nat 0)%Z with c by lia. f_equal.
  destruct (onMessage_rl cfg env h userId user data Hu) as (user' & Hu' & Hrl').
  rewrite Hrl, (rateLimit_within _ _ _ Hin) in Hrl'. simpl in Hrl'.
  change (list_fmap (Z * bool)%type bool snd ?l) with (l.*2).
  rewrite (IH _ _ _ Hu' Hrl' Hall). rewrite <- fmap_S_seq, <- list_fmap_compose.
  apply list_fmap_ext. intros _ i _. simpl. apply bool_decide_ext. lia.
Qed.

Lemma dispatched_count_flags (log : list (Z * bool)) :
  dispatched_count log = length (filter (λ b : bool, b = true) log.*2).
Proof.
  unfold dispatched_count. induction log as [|[t b] log IH]; [done|].
  rewrite fmap_cons, !filter_cons. simpl.
  destruct (decide (b = true)); simpl; [f_equal|]; apply IH.
Qed.

Lemma first_twenty (n : nat) :
  ∀ s, length (filter (λ b : bool, b = true)
                 ((λ i : nat, bool_decide (Z.of_nat i < 20)%Z) <$> seq s n))
       ≤ 20 - s.
Proof.
  induction n as [|n IH]; intros s; simpl; [lia|].
  rewrite filter_cons. specialize (IH (S s)).
  destruct (decide (bool_decide (Z.of_nat s < 20)%Z = true)) as [Hs|Hs]; simpl.
  - apply bool_decide_eq_true in Hs.
    eapply Nat.le_trans; [apply le_n_S; exact IH|lia].
  - eapply Nat.le_trans; [exact IH|lia].
Qed.

(** The rate limit as a bound on every interval of 2000 ms: of the frames
    of a session that arrive in it, at most 20 are dispatched. *)
Fixpoint nondecreasing (ts : list Z) : bool :=
  match ts with
  | a :: (b :: _) as rest => (a <=? b)%Z && nondecreasing rest
  | _ => true
  end.

Definition at_most_20_in_any_2000ms : Prop :=
  ∀ cfg h userId frames t,
    nondecreasing ((λ f, now f.1) <$> frames) = true →
    dispatched_between t (t + 2000) (serve cfg h userId frames) ≤ 20.

(** One frame at 0 ms opens a window, 19 more come at 1000 ms, and 20 come
    at 2001 ms, when the next window has opened: 39 dispatched frames
    between 1000 ms and 3000 ms. *)
Definition burst : list (Env * option json) :=
  let ping t := (Example.at_ t, Some (JObj [(js "type", JStr (js "pushUnsubscribe"))])) in
  [ping 0%Z] ++ replicate 19 (ping 1000%Z) ++ replicate 20 (ping 2001%Z).

Lemma burst_dispatches_39 :
  dispatched_between 1000 3000
    (serve Example.cfg (after Example.cfg [Example.connect Example.idA])
       Example.idA burst) = 39.
Proof. vm_compute. reflexivity. Qed.

(** The bound on every interval of 2000 ms does not hold of the code. *)
Lemma at_most_20_in_any_2000ms_fails : ¬ at_most_20_in_any_2000ms.
Proof.
  intros H.
  specialize (H Example.cfg (after Example.cfg [Example.connect Example.idA])
                Example.idA burst 1000%Z eq_refl).
  change (1000 + 2000)%Z with 3000%Z in H. rewrite burst_dispatches_39 in H. lia.
Qed.

(** C4, as the code has it.  The limiter counts in fixed windows.  A frame
    opens a window when the session has none yet or when it arrives more
    than 2000 ms after the start of the current one.  Of that frame and
    the frames that follow it no later than 2000 ms after it, exactly the
    first 20 are dispatched, so at most 20 per window.  A frame the
    limiter rejects is answered with [{type:'error', code:'RATE_LIMIT'}]
    alone (socket open) and runs no handler: the hub is as it was, the
    frame counted. *)
Theorem rate_limit_per_window cfg h userId user env0 data0 rest :
  users h !! userId = Some user →
  (User._rl user = None
   ∨ ∃ w, User._rl user = Some w ∧ (2000 < now env0 - windowStart w)%Z) →
  Forall (λ f, (now f.1 - now env0 ≤ 2000)%Z) rest →
  let log := serve cfg h userId ((env0, data0) :: rest) in
  log.*2 = (λ i : nat, bool_decide (Z.of_nat i < 20)%Z) <$> seq 0 (S (length rest))
  ∧ dispatched_count log ≤ 20
  ∧ (∀ h' user' env data,
       users h' !! userId = Some user' →
       dispatched h' userId (now env) = false →
       (onMessage cfg env h' userId data).1 = counted h' userId (now env)
       ∧ (User.open user' = true →
          (onMessage cfg env h' userId data).2
          = [Send (User.id user') (error RATE_LIMIT)])).
Proof.
  intros Hu Hopens Hall log.
  assert (log.*2 = (λ i : nat, bool_decide (Z.of_nat i < 20)%Z)
                     <$> seq 0 (S (length rest))) as Hflags.
  { unfold log. simpl. unfold dispatched at 1.
    rewrite Hu, (rateLimit_opens _ _ Hopens). simpl. f_equal.
    destruct (onMessage_rl cfg env0 h userId user data0 Hu) as (user' & Hu' & Hrl').
    rewrite (rateLimit_opens _ _ Hopens) in Hrl'. simpl in Hrl'.
    change (list_fmap (Z * bool)%type bool snd ?l) with (l.*2).
    rewrite (serve_window cfg userId (now env0) rest _ _ 1%Z Hu' Hrl' Hall).
    rewrite <- fmap_S_seq, <- list_fmap_compose.
    apply list_fmap_ext. intros _ i _. simpl. apply bool_decide_ext. lia. }
  split_and!; [done| |].
  - rewrite dispatched_count_flags, Hflags.
    pose proof (first_twenty (S (length rest)) 0). lia.
  - intros h' user' env data Hu' Hno.
    rewrite (onMessage_limited _ _ _ _ _ _ Hu' Hno). split; [done|].
    intros Ho. simpl. by apply send_open.
Qed.

(** Twenty-five frames in five milliseconds: twenty are dispatched. *)
Lemma rate_limit_per_window_witness :
  dispatched_count
    (serve Example.cfg (after Example.cfg [Example.connect Example.idA])
       Example.idA
       (replicate 25 (Example.at_ 5, Some (JObj [(js "type", JStr (js "callHangup"))]))))
  ≤ 20.
Proof.
  apply (rate_limit_per_window Example.cfg
           (after Example.cfg [Example.connect Example.idA]) Example.idA newcomer
           (Example.at_ 5) (Some (JObj [(js "type", JStr (js "callHangup"))]))
           (replicate 24 (Example.at_ 5, Some (JObj [(js "type", JStr (js "callHangup"))])))).
  - vm_compute. reflexivity.
  - left. reflexivity.
  - apply Forall_replicate. simpl. lia.
Defined.

(** * Further properties of the hub *)

(** ** Names and chat texts as the validators leave them *)

Lemma trimStart_idem s : trimStart (trimStart s) = trimStart s.
Proof.
  induction s as [|c s IH]; [done|]. simpl.
  destruct (is_space c) eqn:Hc; [done|]. simpl. by rewrite Hc.
Qed.

Lemma trimEnd_idem s : trimEnd (trimEnd s) = trimEnd s.
Proof.
  destruct (trimEnd_split s) as (w & Hw & E).
  rewrite E at 2. by rewrite trimEnd_blank.
Qed.

Lemma trimStart_fixed_cons s : trimStart s = s → ∀ t w, s = t ++ w → trimStart t = t.
Proof.
  intros Hs [|c t] w E; [done|]. subst s. simpl in *.
  destruct (is_space c); [|done].
  exfalso. destruct (trimStart_split (t ++ w)) as (w' & _ & E').
  rewrite Hs in E'. apply (f_equal length) in E'.
  rewrite !length_app in E'. simpl in E'. rewrite !length_app in E'. lia.
Qed.

Lemma trim_idem s : trim (trim s) = trim s.
Proof.
  unfold trim. destruct (trimEnd_split (trimStart s)) as (w & Hw & E).
  rewrite (trimStart_fixed_cons (trimStart s) (trimStart_idem s) _ w E).
  apply trimEnd_idem.
Qed.

(** The code points of [[a-zA-Z0-9 _\-\.]]. *)
Definition allowed_in_name (c : N) : Prop :=
  ((97 ≤ c ∧ c ≤ 122) ∨ (65 ≤ c ∧ c ≤ 90) ∨ (48 ≤ c ∧ c ≤ 57)
   ∨ c = 32 ∨ c = 95 ∨ c = 45 ∨ c = 46)%N.

Definition name_valid (t : jsstring) : Prop :=
  1 ≤ length t ≤ 32 ∧ ∀ c, c ∈ t → allowed_in_name c.

Lemma name_char_spec c : name_char c = true ↔ allowed_in_name c.
Proof.
  unfold name_char, allowed_in_name.
  rewrite !orb_true_iff, !in_range_spec, !N.eqb_eq. tauto.
Qed.

Lemma forallb_name_char (t : jsstring) :
  forallb name_char t = true ↔ ∀ c, c ∈ t → allowed_in_name c.
Proof.
  induction t as [|d t IH]; simpl.
  - split; [intros _ c Hc; by apply elem_of_nil in Hc|done].
  - rewrite andb_true_iff, IH, name_char_spec. split.
    + intros [Hd Ht] c [->|Hc]%elem_of_cons; auto.
    + intros H. split; [apply H; by left|]. intros c Hc. apply H. by right.
Qed.

Lemma safeName_Some (input : option json) (t : jsstring) :
  safeName input = Some t ↔
  ∃ s, input = Some (JStr s) ∧ t = trim s ∧ name_valid t.
Proof.
  unfold safeName, name_valid. split.
  - destruct input as [[| | |s| |]|]; try done.
    destruct ((length (trim s) <? 1) || (32 <? length (trim s))) eqn:El; [done|].
    destruct (truthy (trim s) && forallb name_char (trim s)) eqn:Ec; [|done].
    simpl. intros [= <-]. exists s. split_and!; try done.
    + apply orb_false_iff in El as [H1 _]. apply Nat.ltb_ge in H1. lia.
    + apply orb_false_iff in El as [_ H2]. apply Nat.ltb_ge in H2. lia.
    + apply andb_true_iff in Ec as [_ Hc]. by apply forallb_name_char.
  - intros (s & -> & -> & [Hl1 Hl2] & Hc).
    replace ((length (trim s) <? 1) || (32 <? length (trim s))) with false.
    2: { symmetry. apply orb_false_iff. rewrite !Nat.ltb_ge. lia. }
    apply forallb_name_char in Hc. rewrite Hc.
    destruct (trim s); [simpl in Hl1; lia|done].
Qed.

(** X1.  [safeName] returns the trimmed input exactly when the input is a
    string whose trimmed form has 1 to 32 code units, all of them ASCII
    letters, digits, space, underscore, hyphen or dot; otherwise null. *)
Theorem safeName_spec (input : option json) :
  (∀ t, safeName input = Some t ↔
        ∃ s, input = Some (JStr s) ∧ t = trim s ∧ name_valid t)
  ∧ (safeName input = None ↔
     ¬ ∃ s, input = Some (JStr s) ∧ name_valid (trim s)).
Proof.
  split; [apply safeName_Some|].
  split.
  - intros Hn (s & -> & Hv).
    assert (safeName (Some (JStr s)) = Some (trim s)) as Hs
      by (apply safeName_Some; eauto).
    congruence.
  - intros Hn. destruct (safeName input) as [t|] eqn:E; [|done].
    apply safeName_Some in E as (s & -> & -> & Hv). destruct Hn; eauto.
Qed.

Lemma safeName_stable (input : option json) (n : jsstring) :
  safeName input = Some n → safeName (Some (JStr n)) = Some n.
Proof.
  intros H. apply safeName_Some in H as (s & -> & -> & Hv).
  apply safeName_Some. exists (trim s). by rewrite trim_idem.
Qed.

(** X2.  A validated name is canonical: validating it again returns it
    unchanged. *)
Theorem safeName_idempotent (input : option json) (n : jsstring) :
  safeName input = Some n → safeName (Some (JStr n)) = Some n.
Proof. apply safeName_stable. Qed.

Lemma safeName_idempotent_witness :
  safeName (Some (JStr (js "Bob S"))) = Some (js "Bob S").
Proof.
  apply (safeName_idempotent (Some (JStr (js "  Bob S ")))). reflexivity.
Defined.

(** X3.  A validated chat text is canonical too. *)
Theorem safeChatText_idempotent (input : option json) (t : jsstring) :
  safeChatText input = Some t → safeChatText (Some (JStr t)) = Some t.
Proof.
  intros H. apply safeChatText_Some in H as (s & -> & -> & Hv).
  apply safeChatText_Some. exists (trim s). by rewrite trim_idem.
Qed.

Lemma safeChatText_idempotent_witness :
  safeChatText (Some (JStr (js "hi there"))) = Some (js "hi there").
Proof.
  apply (safeChatText_idempotent (Some (JStr (js " hi there  ")))). reflexivity.
Defined.

(** ** The private prefix of a chat text *)

Lemma index_from_first c s : ∀ k i, index_from c s k = Some i → c ∉ take (i - k) s.
Proof.
  induction s as [|d s IH]; intros k i; simpl; [done|].
  destruct (d =? c)%N eqn:Hd.
  - intros [= <-]. replace (k - k) with 0 by lia. apply not_elem_of_nil.
  - intros H. pose proof (index_from_range _ _ _ _ H) as Hr.
    replace (i - k) with (S (i - S k)) by lia. simpl.
    intros [->|Hin]%elem_of_cons.
    + by rewrite N.eqb_refl in Hd.
    + by apply (IH _ _ H).
Qed.

Lemma index_from_found c s1 s2 k :
  c ∉ s1 → index_from c (s1 ++ c :: s2) k = Some (k + length s1).
Proof.
  revert k. induction s1 as [|d s1 IH]; intros k Hc; simpl.
  - rewrite N.eqb_refl. f_equal. lia.
  - apply not_elem_of_cons in Hc as [Hd Hc].
    destruct (d =? c)%N eqn:E; [apply N.eqb_eq in E; congruence|].
    rewrite IH by done. f_equal. lia.
Qed.

Lemma startsWith_nil s : startsWith s [] = true.
Proof. by destruct s. Qed.

Lemma startsWith_same c s p : startsWith (c :: s) (c :: p) = startsWith s p.
Proof. simpl. by rewrite N.eqb_refl. Qed.

Lemma trim_skip_space body : trim (space :: body) = trim body.
Proof. done. Qed.

(** X4.  What [parsePrivatePrefix] returns is well formed: the text starts with
    "@", the name is not empty and holds no closing quote (quoted form) or
    no space (plain form), and the body is not empty and is trimmed. *)
Theorem parsePrivatePrefix_shape text toName body :
  parsePrivatePrefix text = Some (toName, body) →
  startsWith text (js "@") = true
  ∧ toName ≠ [] ∧ body ≠ [] ∧ trim body = body
  ∧ (if startsWith text (js "@" ++ [quote]) then quote ∉ toName
     else space ∉ toName).
Proof.
  intros H. split; [by apply (parsePrivatePrefix_at _ _ H)|].
  unfold parsePrivatePrefix in H.
  destruct (startsWith text (js "@")) eqn:E1; [|done]. cbn [negb] in H.
  destruct (startsWith text (js "@" ++ [quote])) eqn:E2.
  - destruct (indexOf text quote 2) as [c|] eqn:Ei; [|done].
    destruct (startsWith (sliceFrom text (c + 1)) (js " ")); [|done].
    cbn [negb] in H. destruct (truthy (slice text 2 c)) eqn:E4; [|done].
    destruct (truthy (trim (sliceFrom text (c + 1)))) eqn:E5; [|done].
    cbn [negb orb] in H. injection H as <- <-. split_and!.
    + by destruct (slice text 2 c).
    + by destruct (trim (sliceFrom text (c + 1))).
    + apply trim_idem.
    + unfold indexOf in Ei. unfold slice. by apply index_from_first in Ei.
  - destruct (indexOf text space 0) as [i|] eqn:Ei; [|done].
    destruct (truthy (slice text 1 i)) eqn:E4; [|done].
    destruct (truthy (trim (sliceFrom text (i + 1)))) eqn:E5; [|done].
    cbn [negb orb] in H. injection H as <- <-. split_and!.
    + by destruct (slice text 1 i).
    + by destruct (trim (sliceFrom text (i + 1))).
    + apply trim_idem.
    + unfold indexOf in Ei. rewrite drop_0 in Ei.
      apply index_from_first in Ei. rewrite Nat.sub_0_r in Ei.
      unfold slice. intros Hin. apply Ei.
      destruct text as [|d r].
      { simpl in Hin. destruct (i - 1); by apply elem_of_nil in Hin. }
      destruct i as [|i]; [by apply elem_of_nil in Hin|].
      simpl in Hin. rewrite Nat.sub_0_r in Hin. simpl. by right.
Qed.

Lemma parsePrivatePrefix_shape_witness :
  startsWith (js "@Bob hi  ") (js "@") = true
  ∧ js "Bob" ≠ [] ∧ js "hi" ≠ [] ∧ trim (js "hi") = js "hi"
  ∧ (if startsWith (js "@Bob hi  ") (js "@" ++ [quote]) then quote ∉ js "Bob"
     else space ∉ js "Bob").
Proof.
  apply (parsePrivatePrefix_shape (js "@Bob hi  ") (js "Bob") (js "hi")).
  reflexivity.
Defined.

(** No name that [safeName] lets through holds a double quote. *)
Lemma valid_name_no_quote input name : safeName input = Some name → quote ∉ name.
Proof.
  intros H Hq. apply safeName_Some in H as (s & _ & _ & _ & Hc).
  specialize (Hc _ Hq). unfold allowed_in_name, quote in Hc. lia.
Qed.

(** X5.  The quoted form addresses every name the registry can hold: for a
    validated [name] and a body with something to say,
    [@"name" body] parses to [name] and the trimmed body. *)
Theorem quoted_form_addresses_any_name input name body :
  safeName input = Some name →
  truthy (trim body) = true →
  parsePrivatePrefix (js "@" ++ [quote] ++ name ++ [quote] ++ [space] ++ body)
  = Some (name, trim body).
Proof.
  intros Hname Hbody. pose proof (valid_name_no_quote _ _ Hname) as Hq.
  assert (truthy name = true) as Ht by by eapply safeName_truthy.
  unfold parsePrivatePrefix.
  change (js "@" ++ [quote] ++ name ++ [quote] ++ [space] ++ body)
    with (64%N :: quote :: (name ++ quote :: space :: body)).
  change (js "@" ++ [quote]) with [64%N; quote]. change (js "@") with [64%N].
  rewrite !startsWith_same, !startsWith_nil.
  cbn [negb]. unfold indexOf. cbn [skipn]. rewrite ?drop_0.
  rewrite (index_from_found _ _ _ _ Hq). unfold slice, sliceFrom. cbn [skipn]. rewrite ?drop_0.
  replace (2 + length name - 2) with (length name) by lia.
  rewrite take_app_length.
  replace (2 + length name + 1) with (S (S (length name + 1))) by lia. cbn [skipn]. rewrite ?drop_0.
  replace (length name + 1) with (length (name ++ [quote])) by (rewrite length_app; simpl; lia).
  rewrite (cons_middle quote name (space :: body)), app_assoc, drop_app_length.
  change (js " ") with [space]. rewrite startsWith_same, startsWith_nil. cbn [negb].
  rewrite trim_skip_space, Ht, Hbody. done.
Qed.

Lemma quoted_form_addresses_any_name_witness :
  parsePrivatePrefix (js "@" ++ [quote] ++ js "Bob S" ++ [quote] ++ [space] ++ js "hi ")
  = Some (js "Bob S", trim (js "hi ")).
Proof.
  apply (quoted_form_addresses_any_name (Some (JStr (js " Bob S")))); reflexivity.
Defined.

(** X6.  The plain form addresses every validated name without a space:
    [@name body] parses to [name] and the trimmed body. *)
Theorem plain_form_addresses_spaceless_name input name body :
  safeName input = Some name →
  space ∉ name →
  truthy (trim body) = true →
  parsePrivatePrefix (js "@" ++ name ++ [space] ++ body) = Some (name, trim body).
Proof.
  intros Hname Hsp Hbody. pose proof (valid_name_no_quote _ _ Hname) as Hq.
  assert (truthy name = true) as Ht by by eapply safeName_truthy.
  destruct name as [|c name]; [done|].
  apply not_elem_of_cons in Hq as [Hc Hq].
  unfold parsePrivatePrefix.
  change (js "@" ++ (c :: name) ++ [space] ++ body)
    with (64%N :: c :: (name ++ space :: body)).
  change (js "@" ++ [quote]) with [64%N; quote]. change (js "@") with [64%N].
  rewrite !startsWith_same, startsWith_nil.
  assert (startsWith (c :: (name ++ space :: body)) [quote] = false) as ->.
  { cbn [startsWith].
    destruct (quote =? c)%N eqn:E; [apply N.eqb_eq in E; congruence|done]. }
  cbn [negb]. unfold indexOf. rewrite drop_0.
  assert (space ∉ 64%N :: c :: name) as Hsp'.
  { apply not_elem_of_cons. split; [done|exact Hsp]. }
  change (64%N :: c :: (name ++ space :: body))
    with ((64%N :: c :: name) ++ space :: body).
  rewrite (index_from_found _ _ _ _ Hsp'). unfold slice, sliceFrom.
  cbn [length Nat.add]. cbn [app skipn]. rewrite ?drop_0.
  replace (S (S (length name)) - 1) with (length (c :: name)) by (simpl; lia).
  change (c :: (name ++ space :: body)) with ((c :: name) ++ space :: body).
  rewrite take_app_length.
  replace (S (S (length name)) + 1) with (S (S (S (length name)))) by lia.
  cbn [skipn]. rewrite ?drop_0.
  replace (length name + 1) with (length (name ++ [space]))
    by (rewrite length_app; simpl; lia).
  rewrite (cons_middle space name body), app_assoc, drop_app_length.
  rewrite Hbody. done.
Qed.

Lemma plain_form_addresses_spaceless_name_witness :
  parsePrivatePrefix (js "@" ++ js "Bob" ++ [space] ++ js "hi")
  = Some (js "Bob", trim (js "hi")).
Proof.
  apply (plain_form_addresses_spaceless_name (Some (JStr (js "Bob")))).
  - reflexivity.
  - vm_compute. intros H. repeat (apply elem_of_cons in H as [H|H]; [discriminate H|]).
    by apply elem_of_nil in H.
  - reflexivity.
Defined.

(** ** Invariants of the event loop

    A property of the hub holds in every reachable state once it holds in
    the empty hub and every callback keeps it.  [Q] may lean on [wf]. *)

Section invariant.
Context (cfg : Config) (Q : Hub → Prop).

Hypothesis Q_counted : ∀ h userId t, wf h → Q h → Q (counted h userId t).
Hypothesis Q_handlers : ∀ env h userId user msg,
  wf h → Q h → users h !! userId = Some user → isId (makeId env) = true →
  Q (on_pushSubscribe cfg h userId msg).1
  ∧ Q (on_pushUnsubscribe h userId).1
  ∧ Q (on_setName cfg env h userId user msg).1
  ∧ Q (on_callStart cfg env h userId user msg).1
  ∧ Q (on_callReject cfg h userId user msg).1
  ∧ Q (on_callAccept cfg h userId user msg).1
  ∧ Q (on_callHangup cfg h userId).1.
Hypothesis Q_connection : ∀ env h,
  wf h → Q h → isId (makeId env) = true → users h !! makeId env = None →
  Q (onConnection cfg env h).1.
Hypothesis Q_close : ∀ env h userId, wf h → Q h → Q (closeUser cfg env h userId).1.
Hypothesis Q_readyState : ∀ h userId state,
  wf h → Q h → Q (with_users (alter (User.set_readyState state) userId) h).
Hypothesis Q_pushGone : ∀ h userId, wf h → Q h → Q (with_push (delete userId) h).

Lemma dispatch_invariant env h userId user msg type :
  wf h → Q h → users h !! userId = Some user → isId (makeId env) = true →
  Q (dispatch cfg env h userId user msg type).1.
Proof.
  intros Hwf HQ Hu Hid.
  destruct (Q_handlers env h userId user msg Hwf HQ Hu Hid)
    as (H1 & H2 & H3 & H4 & H5 & H6 & H7).
  unfold dispatch.
  destruct (decide (type = js "pushSubscribe")); [done|].
  destruct (decide (type = js "pushUnsubscribe")); [done|].
  destruct (decide (type = js "setName")); [done|].
  destruct (truthyO (User.name user)); simpl; [|done].
  destruct (decide (type = js "callStart")); [done|].
  destruct (decide (type = js "callReject")); [done|].
  destruct (decide (type = js "callAccept")); [done|].
  destruct (decide (type = js "signal")); [by rewrite on_signal_state|].
  destruct (decide (type = js "callHangup")); [done|].
  destruct (decide (type = js "chatSend")); [by rewrite on_chatSend_state|].
  done.
Qed.

Lemma onMessage_invariant env h userId data :
  wf h → Q h → isId (makeId env) = true → Q (onMessage cfg env h userId data).1.
Proof.
  intros Hwf HQ Hid. unfold onMessage.
  destruct (users h !! userId) as [user|] eqn:Hu; [|done].
  pose proof (counted_wf h userId (now env) Hwf) as Hwf'.
  pose proof (Q_counted h userId (now env) Hwf HQ) as HQ'.
  destruct (dispatched _ _ _); simpl; [|done].
  destruct data as [msg|]; [|done].
  destruct (if falsy msg then _ else _) as [type|]; [|done].
  apply dispatch_invariant; [done..| |done]. by apply counted_lookup.
Qed.

Lemma step_invariant h e :
  wf h → Q h → possible h e = true → Q (step cfg h e).1.
Proof.
  intros Hwf HQ Hp. unfold possible in Hp.
  apply andb_true_iff in Hp as [Hid Hnew].
  destruct e as [env|userId env data|userId env|userId state|userId];
    simpl in Hid, Hnew.
  - apply bool_decide_eq_true in Hnew. by apply Q_connection.
  - by apply onMessage_invariant.
  - by apply Q_close.
  - by apply Q_readyState.
  - by apply Q_pushGone.
Qed.

Lemma reachable_invariant h : Q empty_hub → reachable cfg h → Q h.
Proof.
  intros H0. induction 1 as [|h e Hr IH Hp]; [done|].
  apply step_invariant; [by eapply reachable_wf|done..].
Qed.

End invariant.

(** ** The presence registry *)

(** X7.  In every reachable state the name index and the sessions' names
    determine each other, and no two sessions hold the same name. *)
Theorem names_unique_and_indexed cfg h :
  reachable cfg h →
  (∀ n k, nameToId h !! n = Some k
          ↔ ∃ u, users h !! k = Some u ∧ User.name u = Some n)
  ∧ (∀ k1 k2 u1 u2 n,
       users h !! k1 = Some u1 → users h !! k2 = Some u2 →
       User.name u1 = Some n → User.name u2 = Some n → k1 = k2).
Proof.
  intros Hr. destruct (reachable_wf _ _ Hr) as [[Hk Hi Hn Hb Hh] _]. split.
  - intros n k. split; [apply Hb|]. intros (u & Hu & Hun). eauto.
  - intros k1 k2 u1 u2 n Hu1 Hu2 Hn1 Hn2.
    pose proof (Hh _ _ _ Hu1 Hn1). pose proof (Hh _ _ _ Hu2 Hn2). congruence.
Qed.

Lemma names_unique_and_indexed_witness :
  let h := after Example.cfg Example.opening in
  (∀ n k, nameToId h !! n = Some k
          ↔ ∃ u, users h !! k = Some u ∧ User.name u = Some n)
  ∧ (∀ k1 k2 u1 u2 n,
       users h !! k1 = Some u1 → users h !! k2 = Some u2 →
       User.name u1 = Some n → User.name u2 = Some n → k1 = k2).
Proof.
  apply (names_unique_and_indexed Example.cfg). apply reachable_after.
Defined.

(** Every name a session holds went through [safeName]. *)
Definition names_valid (h : Hub) : Prop :=
  ∀ k u n, users h !! k = Some u → User.name u = Some n →
           ∃ input, safeName input = Some n.

Lemma names_valid_view h h' :
  names_valid h →
  (∀ k u', users h' !! k = Some u' →
           User.name u' = None
           ∨ ∃ u, users h !! k = Some u ∧ User.name u' = User.name u) →
  names_valid h'.
Proof.
  intros HQ Hv k u' n Hu' Hn'. destruct (Hv _ _ Hu') as [E|(u & Hu & E)].
  - congruence.
  - rewrite E in Hn'. eauto.
Qed.

Lemma names_valid_keeps h h' :
  names_valid h → same_view User.name h h' → names_valid h'.
Proof.
  intros HQ Hv. apply (names_valid_view h); [done|].
  intros k u' Hu'. right. by eapply same_view_lookup_inv.
Qed.

Lemma on_setName_names_valid cfg env h userId user msg :
  names_valid h → names_valid (on_setName cfg env h userId user msg).1.
Proof.
  intros HQ. unfold on_setName.
  destruct (safeName _) as [name|] eqn:Hname; [|done].
  destruct (truthy name); simpl; [|done].
  destruct (match nameToId h !! name with Some _ => _ | None => _ end); [done|].
  intros k u' n. cbn -[releaseOldName]. rewrite (proj1 (releaseOldName_users _ _ _)).
  destruct (decide (userId = k)) as [<-|Hne].
  - rewrite lookup_alter_eq. destruct (users h !! userId) as [u|]; simpl; [|done].
    intros [= <-]. simpl. intros [= <-]. eauto.
  - rewrite lookup_alter_ne by done. apply HQ.
Qed.

Lemma closeUser_users cfg env h userId k u' :
  users (closeUser cfg env h userId).1 !! k = Some u' →
  ∃ u, users h !! k = Some u ∧ User.id u' = User.id u ∧ User.name u' = User.name u.
Proof.
  destruct (users h !! userId) as [u|] eqn:Hu.
  - rewrite (closeUser_state _ _ _ _ _ Hu). simpl.
    set (h1 := if truthyO (User.roomId u) then (leaveRoom h userId).1 else h).
    assert (keeps ident h h1) as [Hv _].
    { unfold h1. destruct (truthyO _); [by apply leaveRoom_keeps|apply keeps_refl]. }
    assert (delete userId (users h1) !! k = Some u' →
            ∃ u0, users h !! k = Some u0 ∧ User.id u' = User.id u0
                  ∧ User.name u' = User.name u0) as Hd.
    { destruct (decide (userId = k)) as [<-|Hne].
      - by rewrite lookup_delete_eq.
      - rewrite lookup_delete_ne by done. intros Hu'.
        destruct (same_view_lookup_inv _ _ _ _ _ Hv Hu') as (u0 & Hu0 & E).
        injection E as E1 E2. eauto. }
    destruct (User.name u); [destruct (_ && _)|]; exact Hd.
  - unfold closeUser. rewrite Hu. simpl. eauto.
Qed.

(** X8.  In every reachable state the name of a session is a name as
    [safeName] returns them: 1 to 32 code units, each a letter, a digit,
    a space, "_", "-" or ".", with no white space at either end. *)
Theorem registered_names_valid cfg h k u n :
  reachable cfg h → users h !! k = Some u → User.name u = Some n →
  name_valid n ∧ trim n = n ∧ safeName (Some (JStr n)) = Some n.
Proof.
  intros Hr Hu Hn.
  assert (names_valid h) as HQ.
  { apply (reachable_invariant cfg names_valid); [..|intros k0 u0 n0; simpl; by rewrite lookup_empty|done].
    - intros h0 userId t _ HQ. apply (names_valid_keeps h0); [done|].
      by apply (counted_keeps User.name).
    - intros env h0 userId user msg _ HQ _ _. split_and!.
      + destruct (on_pushSubscribe_users cfg h0 userId msg) as (E & _ & _).
        intros ???. rewrite E. apply HQ.
      + done.
      + by apply on_setName_names_valid.
      + apply (names_valid_keeps h0); [done|]. by apply on_callStart_keeps.
      + apply (names_valid_keeps h0); [done|]. by apply on_callReject_keeps.
      + apply (names_valid_keeps h0); [done|]. by apply on_callAccept_keeps.
      + apply (names_valid_keeps h0); [done|]. by apply on_callHangup_keeps.
    - intros env h0 _ HQ _ _ k0 u0 n0. simpl.
      destruct (decide (makeId env = k0)) as [<-|Hne].
      + rewrite lookup_insert_eq. by intros [= <-].
      + rewrite lookup_insert_ne by done. apply HQ.
    - intros env h0 userId _ HQ. apply (names_valid_view h0); [done|].
      intros k0 u' Hu'. right.
      destruct (closeUser_users _ _ _ _ _ _ Hu') as (u0 & Hu0 & _ & E). eauto.
    - intros h0 userId state _ HQ. apply (names_valid_keeps h0); [done|].
      by apply same_view_alter.
    - intros h0 userId _ HQ. exact HQ. }
  destruct (HQ _ _ _ Hu Hn) as (input & Hs).
  pose proof (safeName_stable _ _ Hs) as Hi.
  apply safeName_Some in Hs as (s & _ & -> & Hv).
  split_and!; [done|apply trim_idem|done].
Qed.

Lemma registered_names_valid_witness :
  name_valid (js "Bob") ∧ trim (js "Bob") = js "Bob"
  ∧ safeName (Some (JStr (js "Bob"))) = Some (js "Bob").
Proof.
  apply (registered_names_valid Example.cfg (after Example.cfg Example.opening)
           Example.idB (Example.bob None 1)).
  - apply reachable_after.
  - vm_compute. reflexivity.
  - reflexivity.
Defined.

(** ** The push store *)

(** The tables of [closeUser]'s result. *)
Lemma closeUser_tables cfg env h userId u :
  users h !! userId = Some u →
  let h1 := if truthyO (User.roomId u) then (leaveRoom h userId).1 else h in
  users (closeUser cfg env h userId).1 = delete userId (users h1)
  ∧ rooms (closeUser cfg env h userId).1 = rooms h1
  ∧ pushSubscriptions (closeUser cfg env h userId).1
    = delete userId (pushSubscriptions h).
Proof.
  intros Hu h1. rewrite (closeUser_state _ _ _ _ _ Hu). fold h1.
  assert (pushSubscriptions h1 = pushSubscriptions h) as Hp.
  { unfold h1. destruct (truthyO _); [|done].
    by destruct (leaveRoom_keeps User.id (λ _ _, eq_refl) h userId) as (_ & _ & ?). }
  cbn zeta. destruct (User.name u); [destruct (_ && _)|]; simpl; by rewrite Hp.
Qed.

(** What the push store holds: subscriptions of connected sessions, each
    an object, and nothing at all while push is disabled. *)
Definition push_store_ok (cfg : Config) (h : Hub) : Prop :=
  ∀ k sub, pushSubscriptions h !! k = Some sub →
           is_Some (users h !! k) ∧ isObject (Some sub) = true
           ∧ PUSH_ENABLED cfg = true.

Lemma push_store_keeps {B} (g : User.t → B) cfg h h' :
  push_store_ok cfg h → same_view g h h' →
  pushSubscriptions h' = pushSubscriptions h → push_store_ok cfg h'.
Proof.
  intros HQ Hv Hp k sub. rewrite Hp. intros Hk.
  destruct (HQ _ _ Hk) as ([u Hu] & ? & ?). split_and!; [|done..].
  destruct (same_view_lookup _ _ _ _ _ Hv Hu) as (u' & Hu' & _). eauto.
Qed.

Lemma push_store_invariant cfg h : reachable cfg h → push_store_ok cfg h.
Proof.
  apply (reachable_invariant cfg (push_store_ok cfg)).
  - intros h0 userId t _ HQ.
    apply (push_store_keeps User.id _ h0); [done| |apply counted_push].
    by apply (counted_keeps User.id).
  - intros env h0 userId user msg _ HQ Hu _. split_and!.
    + unfold on_pushSubscribe. destruct (PUSH_ENABLED cfg) eqn:Hen; cbn [negb]; [|done].
      destruct (field msg _) as [sub|]; [|done].
      destruct (isObject (Some sub)) eqn:Hobj; [|done].
      intros k sub'. simpl. destruct (decide (userId = k)) as [<-|Hne].
      * rewrite lookup_insert_eq. intros [= <-]. by rewrite Hu.
      * rewrite lookup_insert_ne by done. apply HQ.
    + intros k sub. simpl. intros [_ Hk]%lookup_delete_Some. by apply HQ.
    + destruct (on_setName_view User.id cfg env h0 userId user msg) as (Hv & _ & Hp);
        [done|]. by apply (push_store_keeps User.id _ h0).
    + destruct (on_callStart_keeps User.id (λ _ _, eq_refl) cfg env h0 userId user msg)
        as (Hv & _ & Hp). by apply (push_store_keeps User.id _ h0).
    + destruct (on_callReject_keeps User.id (λ _ _, eq_refl) cfg h0 userId user msg)
        as (Hv & _ & Hp). by apply (push_store_keeps User.id _ h0).
    + destruct (on_callAccept_keeps User.id (λ _ _, eq_refl) cfg h0 userId user msg)
        as (Hv & _ & Hp). by apply (push_store_keeps User.id _ h0).
    + destruct (on_callHangup_keeps User.id (λ _ _, eq_refl) cfg h0 userId)
        as (Hv & _ & Hp). by apply (push_store_keeps User.id _ h0).
  - intros env h0 _ HQ _ Hnew k sub Hk. simpl in *.
    destruct (HQ _ _ Hk) as ([u Hu] & ? & ?). split_and!; [|done..].
    rewrite lookup_insert_ne by congruence. eauto.
  - intros env h0 userId _ HQ. destruct (users h0 !! userId) as [u|] eqn:Hu;
      [|unfold closeUser; by rewrite Hu].
    destruct (closeUser_tables cfg env h0 userId u Hu) as (Eu & _ & Ep).
    intros k sub. rewrite Eu, Ep. intros [Hne Hk]%lookup_delete_Some.
    destruct (HQ _ _ Hk) as ([u0 Hu0] & ? & ?). split_and!; [|done..].
    rewrite lookup_delete_ne by done.
    assert (same_view User.id h0
              (if truthyO (User.roomId u) then (leaveRoom h0 userId).1 else h0)) as Hv.
    { destruct (truthyO _); [|apply same_view_refl].
      by destruct (leaveRoom_keeps User.id (λ _ _, eq_refl) h0 userId). }
    destruct (same_view_lookup _ _ _ _ _ Hv Hu0) as (u' & Hu' & _). eauto.
  - intros h0 userId state _ HQ.
    apply (push_store_keeps User.id _ h0); [done| |done]. by apply same_view_alter.
  - intros h0 userId _ HQ k sub. simpl. intros [_ Hk]%lookup_delete_Some. by apply HQ.
  - intros k sub. simpl. by rewrite lookup_empty.
Qed.

Definition pushSubscribe (who : jsstring) (sub : json) : Event :=
  Message who (Example.at_ 0)
    (Some (JObj [(js "type", JStr (js "pushSubscribe")); (js "subscription", sub)])).

Definition endpoint : json := JObj [(js "endpoint", JStr (js "https://push.example/1"))].

(** X9.  In every reachable state a subscription in the push store belongs
    to a connected session, is an object, and was stored while push was
    enabled: the store is empty when push is disabled, and nothing is left
    of a session that is gone. *)
Theorem push_store_holds_live_sessions cfg h k sub :
  reachable cfg h → pushSubscriptions h !! k = Some sub →
  (∃ u, users h !! k = Some u) ∧ isObject (Some sub) = true
  ∧ PUSH_ENABLED cfg = true.
Proof. intros Hr Hk. by apply (push_store_invariant cfg h Hr). Qed.

Lemma push_store_holds_live_sessions_witness :
  (∃ u, users (after Example.cfg (Example.opening ++ [pushSubscribe Example.idB endpoint]))
          !! Example.idB = Some u)
  ∧ isObject (Some endpoint) = true ∧ PUSH_ENABLED Example.cfg = true.
Proof.
  apply (push_store_holds_live_sessions Example.cfg
           (after Example.cfg (Example.opening ++ [pushSubscribe Example.idB endpoint]))
           Example.idB endpoint).
  - apply reachable_after.
  - vm_compute. reflexivity.
Defined.

(** ** Connecting and disconnecting *)

(** X10.  A connection that ends before it did anything leaves the hub as
    it was: [Close] right after [Connection] restores the state. *)
Theorem connect_then_close cfg h env env' :
  reachable cfg h → possible h (Connection env) = true →
  (step cfg (step cfg h (Connection env)).1 (Close (makeId env) env')).1 = h.
Proof.
  intros Hr Hp. unfold possible in Hp. apply andb_true_iff in Hp as [_ Hnew].
  apply bool_decide_eq_true in Hnew. simpl in Hnew.
  assert (pushSubscriptions h !! makeId env = None) as Hpush.
  { destruct (pushSubscriptions h !! makeId env) as [sub|] eqn:E; [|done].
    destruct (push_store_invariant cfg h Hr _ _ E) as ([u Hu] & _). congruence. }
  cbn [step fst onConnection].
  set (user := User.mk (makeId env) None 1 (now env) None None).
  assert (users (with_users <[makeId env := user]> h) !! makeId env = Some user) as Hu.
  { simpl. by rewrite lookup_insert_eq. }
  rewrite (closeUser_state _ _ _ _ _ Hu). simpl.
  unfold with_push, with_users. simpl.
  rewrite delete_insert_id by done. rewrite delete_id by done.
  by destruct h.
Qed.

Lemma connect_then_close_witness :
  (step Example.cfg
     (step Example.cfg (after Example.cfg Example.opening)
        (Connection (Example.at_ 5))).1
     (Close Example.idR (Example.at_ 6))).1
  = after Example.cfg Example.opening.
Proof.
  apply (connect_then_close Example.cfg (after Example.cfg Example.opening)
           (Example.at_ 5) (Example.at_ 6)).
  - apply reachable_after.
  - vm_compute. reflexivity.
Defined.

(** X11.  Nothing of a session survives its [Close]: the session, its push
    subscription and its entry in the name index are gone, and its name is
    free again. *)
Theorem close_forgets_session cfg h userId env u :
  reachable cfg h → users h !! userId = Some u →
  let h' := (step cfg h (Close userId env)).1 in
  users h' !! userId = None
  ∧ pushSubscriptions h' !! userId = None
  ∧ (∀ n, nameToId h' !! n ≠ Some userId)
  ∧ (∀ n, User.name u = Some n → nameToId h' !! n = None).
Proof.
  intros Hr Hu h'. unfold h'. clear h'. cbn [step].
  destruct (reachable_wf _ _ Hr) as [Hwf _].
  destruct (closeUser_wf_names cfg env h userId Hwf) as [_ _ _ Hb' _].
  destruct Hwf as [_ _ _ _ Hh].
  destruct (closeUser_tables cfg env h userId u Hu) as (Eu & _ & Ep).
  assert (users (closeUser cfg env h userId).1 !! userId = None) as Hgone.
  { rewrite Eu. apply lookup_delete_eq. }
  split_and!.
  - done.
  - rewrite Ep. apply lookup_delete_eq.
  - intros n Hn. destruct (Hb' _ _ Hn) as (u' & Hu' & _). congruence.
  - intros n Hn. destruct (nameToId (closeUser cfg env h userId).1 !! n) as [k|] eqn:E; [|done].
    destruct (Hb' _ _ E) as (u' & Hu' & Hn').
    destruct (closeUser_users _ _ _ _ _ _ Hu') as (u0 & Hu0 & _ & En).
    rewrite Hn' in En. symmetry in En.
    pose proof (Hh _ _ _ Hu0 En). pose proof (Hh _ _ _ Hu Hn). congruence.
Qed.

Lemma close_forgets_session_witness :
  let h' := (step Example.cfg (after Example.cfg Example.opening)
               (Close Example.idB (Example.at_ 7))).1 in
  users h' !! Example.idB = None
  ∧ pushSubscriptions h' !! Example.idB = None
  ∧ (∀ n, nameToId h' !! n ≠ Some Example.idB)
  ∧ (∀ n, User.name (Example.bob None 1) = Some n → nameToId h' !! n = None).
Proof.
  apply (close_forgets_session Example.cfg (after Example.cfg Example.opening)
           Example.idB (Example.at_ 7) (Example.bob None 1)).
  - apply reachable_after.
  - vm_compute. reflexivity.
Defined.

(** ** Sessions and their rooms *)

(** A session's [roomId] names a room of the table, and that room lists
    the session. *)
Definition roomId_in_room (h : Hub) : Prop :=
  ∀ k u r, users h !! k = Some u → User.roomId u = Some r →
           ∃ room, rooms h !! r = Some room ∧ k ∈ Room.members room.

Lemma cleared_lookup_ne (m : gmap jsstring User.t) (j k : jsstring) u' r :
  alter (User.set_roomId None) j m !! k = Some u' → User.roomId u' = Some r →
  k ≠ j ∧ m !! k = Some u'.
Proof.
  destruct (decide (j = k)) as [->|Hne].
  - rewrite lookup_alter_eq. destruct (m !! k) as [u|]; simpl; [|done].
    intros [= <-]. done.
  - rewrite lookup_alter_ne by done. auto.
Qed.

Lemma roomId_in_room_cleared h j :
  roomId_in_room h → roomId_in_room (with_users (alter (User.set_roomId None) j) h).
Proof.
  intros HQ k u' r Hu' Hr'. simpl in *.
  apply (HQ k u' r); [|done]. by eapply cleared_lookup.
Qed.

Lemma roomId_in_room_keeps h h' :
  roomId_in_room h → same_view User.roomId h h' → rooms h' = rooms h →
  roomId_in_room h'.
Proof.
  intros HQ Hv Er k u' r Hu' Hr'. rewrite Er.
  destruct (same_view_lookup_inv _ _ _ _ _ Hv Hu') as (u & Hu & E).
  apply (HQ k u r); [done|congruence].
Qed.

(** [leaveRoom] gives no session a [roomId]. *)
Lemma leaveRoom_lookup h userId k u' r :
  users (leaveRoom h userId).1 !! k = Some u' → User.roomId u' = Some r →
  users h !! k = Some u'.
Proof.
  unfold leaveRoom.
  destruct (users h !! userId) as [user|]; [|done].
  destruct (User.roomId user) as [rid|]; [|done].
  destruct (truthy rid); simpl; [|done].
  destruct (rooms h !! rid) as [room|]; [|simpl; by apply cleared_lookup].
  case_decide.
  - destruct (head _) as [lastId|]; [destruct (truthy lastId); [destruct (_ !! lastId)|]|];
      simpl; intros Hu' Hr';
      repeat (eapply cleared_lookup in Hu'; [|exact Hr']); done.
  - simpl. by apply cleared_lookup.
Qed.

(** The session that leaves has no [roomId] afterwards. *)
Lemma leaveRoom_self h userId user rid :
  users h !! userId = Some user → User.roomId user = Some rid → truthy rid = true →
  ∃ user', users (leaveRoom h userId).1 !! userId = Some user'
           ∧ User.roomId user' = None.
Proof.
  intros Hu Hrid Ht. unfold leaveRoom. rewrite Hu, Hrid, Ht. simpl.
  assert (∃ user', alter (User.set_roomId None) userId (users h) !! userId = Some user'
                   ∧ User.roomId user' = None) as Hone.
  { rewrite lookup_alter_eq, Hu. simpl. eauto. }
  destruct (rooms h !! rid) as [room|]; [|done].
  case_decide; [|done].
  destruct (head _) as [lastId|]; [|done].
  destruct (truthy lastId); [|done].
  simpl. destruct (alter _ userId (users h) !! lastId) eqn:El; [|done].
  simpl. destruct (decide (lastId = userId)) as [->|Hne].
  - rewrite lookup_alter_eq. destruct Hone as (user' & -> & _). simpl. eauto.
  - by rewrite lookup_alter_ne.
Qed.

(** [leaveRoom] touches the room of the leaving session only. *)
Lemma leaveRoom_rooms_ne h userId r :
  (∀ user, users h !! userId = Some user → User.roomId user ≠ Some r) →
  rooms (leaveRoom h userId).1 !! r = rooms h !! r.
Proof.
  intros Hr. unfold leaveRoom.
  destruct (users h !! userId) as [user|]; [|done].
  specialize (Hr user eq_refl).
  destruct (User.roomId user) as [rid|]; [|done].
  destruct (truthy rid); simpl; [|done].
  destruct (rooms h !! rid) as [room|]; [|done].
  assert (rid ≠ r) as Hne by congruence.
  case_decide.
  - destruct (head _) as [lastId|]; [destruct (truthy lastId); [destruct (_ !! lastId)|]|];
      simpl; by rewrite lookup_delete_ne, lookup_insert_ne.
  - simpl. by rewrite lookup_insert_ne.
Qed.

(** A room that keeps two members or more stays, without the session
    that left. *)
Lemma leaveRoom_remains h userId user rid room :
  wf_names h →
  users h !! userId = Some user → User.roomId user = Some rid →
  truthy rid = true → rooms h !! rid = Some room →
  ¬ size (Room.members room ∖ {[userId]}) ≤ 1 →
  rooms (leaveRoom h userId).1 !! rid
  = Some (Room.set_members (Room.members room ∖ {[userId]}) room).
Proof.
  intros Hwf Hu Hrid Ht Hroom Hsize. unfold leaveRoom.
  rewrite Hu, Hrid, Ht, Hroom. simpl. rewrite (wf_key h Hwf _ _ Hu).
  rewrite decide_False by done. simpl. by rewrite lookup_insert_eq.
Qed.

Lemma leaveRoom_roomId_in_room h userId :
  wf h → roomId_in_room h → roomId_in_room (leaveRoom h userId).1.
Proof.
  intros [Hwf Hwr] HQ k u' r Hu' Hr'.
  pose proof (leaveRoom_lookup _ _ _ _ _ Hu' Hr') as Hk.
  destruct (HQ _ _ _ Hk Hr') as (room & Hroom & Hin).
  destruct (users h !! userId) as [user|] eqn:Hu.
  2: { rewrite leaveRoom_rooms_ne; [eauto|]. intros user. by rewrite Hu. }
  destruct (decide (User.roomId user = Some r)) as [Hrid|Hrid].
  2: { rewrite leaveRoom_rooms_ne; [eauto|]. intros user'. rewrite Hu. by intros [= <-]. }
  pose proof (wf_roomId h Hwr _ _ _ Hu Hrid) as Ht.
  assert (k ≠ userId) as Hne.
  { intros ->. destruct (leaveRoom_self _ _ _ _ Hu Hrid Ht) as (user' & Hu2 & Hnone).
    congruence. }
  destruct (decide (size (Room.members room ∖ {[userId]}) ≤ 1)) as [Hsize|Hsize].
  - destruct (leaveRoom_dissolves h userId user r room Hwf Hu Hrid Ht Hroom Hsize)
      as [_ Hlast].
    destruct (Hlast k u' Hin Hne Hk) as [(last' & Hl & Hnone) _]. congruence.
  - rewrite (leaveRoom_remains h userId user r room) by done.
    eexists. split; [done|]. simpl. set_solver.
Qed.

Lemma entered_lookup_ne (m : gmap jsstring User.t) (j k rid : jsstring) u' :
  alter (User.set_roomId (Some rid)) j m !! k = Some u' →
  (k = j ∧ User.roomId u' = Some rid) ∨ (k ≠ j ∧ m !! k = Some u').
Proof.
  destruct (decide (j = k)) as [->|Hne].
  - rewrite lookup_alter_eq. destruct (m !! k) as [u|]; simpl; [|done].
    intros [= <-]. by left.
  - rewrite lookup_alter_ne by done. auto.
Qed.

Lemma ensureRoom_lookup rid h :
  rooms (ensureRoom rid h) !! rid
  = Some (default (Room.mk rid ∅) (rooms h !! rid)).
Proof.
  unfold ensureRoom. destruct (rooms h !! rid) eqn:E; simpl; [done|].
  by rewrite lookup_insert_eq.
Qed.

Lemma on_callStart_roomId_in_room cfg env h userId user msg :
  wf_names h → roomId_in_room h → users h !! userId = Some user →
  roomId_in_room (on_callStart cfg env h userId user msg).1.
Proof.
  intros Hwf HQ Hu. unfold on_callStart.
  destruct (stringOrNull _) as [to|]; [|done].
  destruct (truthy to); simpl; [|done].
  destruct (users h !! to) as [callee|] eqn:Hc; [|done].
  case_decide as Hself; [done|].
  destruct (truthyO (User.name callee)); simpl; [|done].
  destruct (truthyO (User.roomId callee)); simpl; [done|].
  set (rid := match User.roomId user with Some r => r | None => makeId env end).
  rewrite (wf_key h Hwf _ _ Hu), (wf_key h Hwf _ _ Hc).
  intros k u' r. simpl. rewrite ensureRoom_users. intros Hu' Hr'.
  assert (∃ room, alter (λ room, Room.set_members
                                   (Room.members room ∪ {[userId]} ∪ {[to]}) room)
                    rid (rooms (ensureRoom rid h)) !! rid = Some room
                  ∧ userId ∈ Room.members room ∧ to ∈ Room.members room
                  ∧ ∀ room0, rooms h !! rid = Some room0 →
                             Room.members room0 ⊆ Room.members room)
    as (room & Hroom & HinA & HinB & Hsub).
  { rewrite lookup_alter_eq, ensureRoom_lookup. simpl. eexists. split; [done|].
    simpl. split_and!; [set_solver..|].
    intros room0 ->. simpl. set_solver. }
  destruct (entered_lookup_ne _ _ _ _ _ Hu') as [[-> Er]|[Hne1 Hu1]].
  { assert (r = rid) as -> by congruence. eauto. }
  destruct (entered_lookup_ne _ _ _ _ _ Hu1) as [[-> Er]|[Hne2 Hu2]].
  { assert (r = rid) as -> by congruence. eauto. }
  destruct (HQ _ _ _ Hu2 Hr') as (room0 & Hroom0 & Hin).
  destruct (decide (rid = r)) as [<-|Hner].
  - exists room. split; [done|]. by apply (Hsub room0).
  - exists room0. by rewrite lookup_alter_ne, ensureRoom_lookup_ne.
Qed.

Lemma roomId_in_room_invariant cfg h : reachable cfg h → roomId_in_room h.
Proof.
  apply (reachable_invariant cfg roomId_in_room).
  - intros h0 userId t _ HQ.
    apply (roomId_in_room_keeps h0); [done| |apply counted_rooms].
    by apply (counted_keeps User.roomId).
  - intros env h0 userId user msg Hwf HQ Hu _. split_and!.
    + destruct (on_pushSubscribe_users cfg h0 userId msg) as (Eu & _ & Er).
      intros k u r. rewrite Eu, Er. apply HQ.
    + done.
    + destruct (on_setName_view User.roomId cfg env h0 userId user msg) as (Hv & Er & _);
        [done|]. by apply (roomId_in_room_keeps h0).
    + apply on_callStart_roomId_in_room; [apply Hwf|done..].
    + unfold on_callReject. destruct (_ && _).
      * pose proof (leaveRoom_roomId_in_room h0 userId Hwf HQ) as Hl.
        by destruct (leaveRoom h0 userId).
      * by apply roomId_in_room_cleared.
    + unfold on_callAccept.
      destruct (lookupFrom _ _); [|by apply roomId_in_room_cleared].
      destruct (_ || _); [by apply roomId_in_room_cleared|].
      destruct (getRoom _ _); [|by apply roomId_in_room_cleared].
      destruct (roomIdOf _ _); [done|by apply roomId_in_room_cleared].
    + unfold on_callHangup.
      pose proof (leaveRoom_roomId_in_room h0 userId Hwf HQ) as Hl.
      by destruct (leaveRoom h0 userId).
  - intros env h0 _ HQ _ _ k u r. simpl.
    destruct (decide (makeId env = k)) as [<-|Hne].
    + rewrite lookup_insert_eq. by intros [= <-].
    + rewrite lookup_insert_ne by done. apply HQ.
  - intros env h0 userId Hwf HQ. destruct (users h0 !! userId) as [u|] eqn:Hu;
      [|unfold closeUser; by rewrite Hu].
    destruct (closeUser_tables cfg env h0 userId u Hu) as (Eu & Er & _).
    intros k u' r. rewrite Eu, Er. intros [_ Hk]%lookup_delete_Some.
    revert k u' r Hk. fold (roomId_in_room
      (if truthyO (User.roomId u) then (leaveRoom h0 userId).1 else h0)).
    destruct (truthyO _); [by apply leaveRoom_roomId_in_room|done].
  - intros h0 userId state _ HQ.
    apply (roomId_in_room_keeps h0); [done| |done]. by apply same_view_alter.
  - intros h0 userId _ HQ. exact HQ.
  - intros k u r. simpl. by rewrite lookup_empty.
Qed.

(** X12.  In every reachable state the [roomId] of a session names a room
    of the table, and that room lists the session among its members.  (The
    converse fails: a member of a room need not have that [roomId].) *)
Theorem roomId_names_a_room_with_the_session cfg h k u r :
  reachable cfg h → users h !! k = Some u → User.roomId u = Some r →
  ∃ room, rooms h !! r = Some room ∧ k ∈ Room.members room.
Proof. intros Hr. by apply (roomId_in_room_invariant cfg h Hr). Qed.

Lemma roomId_names_a_room_with_the_session_witness :
  ∃ room, rooms (after Example.cfg Example.ringing) !! Example.idR = Some room
          ∧ Example.idB ∈ Room.members room.
Proof.
  apply (roomId_names_a_room_with_the_session Example.cfg
           (after Example.cfg Example.ringing) Example.idB
           (Example.bob (Some Example.idR) 1) Example.idR).
  - apply reachable_after.
  - vm_compute. reflexivity.
  - reflexivity.
Defined.

(** ** Frames the hub refuses *)

Lemma send_ticked user t f : send (ticked user t) f = send user f.
Proof. done. Qed.

(** Everything of a session record but the limiter's window. *)
Definition but_limiter (u : User.t)
    : jsstring * option jsstring * N * Z * option jsstring :=
  (User.id u, User.name u, User.readyState u, User.lastMsgAt u, User.roomId u).

(** [h'] is [h] up to the limiter's windows: the name index, the rooms
    and the push store are those of [h], and so is every session record
    apart from [_rl]. *)
Definition same_but_limiter (h h' : Hub) : Prop :=
  nameToId h' = nameToId h ∧ rooms h' = rooms h
  ∧ pushSubscriptions h' = pushSubscriptions h
  ∧ ∀ k, but_limiter <$> users h' !! k = but_limiter <$> users h !! k.

Lemma counted_same_but_limiter h userId t : same_but_limiter h (counted h userId t).
Proof.
  split_and!; [apply counted_nameToId|apply counted_rooms|apply counted_push|].
  by apply (counted_keeps but_limiter).
Qed.

(** A refusal: the hub is as it was up to the limiter's count, and the one
    frame [f] is written to the socket of [userId] when it is open, and
    nothing otherwise. *)
Definition refused_with (h : Hub) (userId : jsstring) (user : User.t)
    (r : M) (f : Frame) : Prop :=
  same_but_limiter h r.1
  ∧ (User.open user = true → r.2 = [Send userId f])
  ∧ (User.open user = false → r.2 = []).

Lemma refused_with_send h userId user t f :
  User.id user = userId →
  refused_with h userId user (counted h userId t, send user f) f.
Proof.
  intros <-. split_and!; [apply counted_same_but_limiter|..];
    intros Ho; unfold send; by rewrite Ho.
Qed.

(** X13.  A frame that passes the rate check but cannot be decoded, has no
    string [type], or (from a named session) has a [type] the hub does not
    know, changes nothing but the limiter's count and is answered with
    exactly one error frame on the open socket of the sender, [BAD_JSON],
    [BAD_MESSAGE] or [UNKNOWN_TYPE], and with nothing on a socket that is
    not open; no other socket is written to. *)
Theorem malformed_frames cfg env h userId user :
  reachable cfg h →
  users h !! userId = Some user →
  dispatched h userId (now env) = true →
  let answer data code :=
    refused_with h userId user (onMessage cfg env h userId data) (error code) in
  answer None BAD_JSON
  ∧ (∀ msg, stringOrNull (field msg "type") = None → answer (Some msg) BAD_MESSAGE)
  ∧ (∀ msg type,
       field msg "type" = Some (JStr type) →
       truthyO (User.name user) = true →
       type ∉ [js "pushSubscribe"; js "pushUnsubscribe"; js "setName";
               js "callStart"; js "callReject"; js "callAccept"; js "signal";
               js "callHangup"; js "chatSend"] →
       answer (Some msg) UNKNOWN_TYPE).
Proof.
  intros Hr Hu Hok answer. unfold answer.
  destruct (reachable_wf _ _ Hr) as [Hwf _].
  pose proof (wf_key h Hwf _ _ Hu) as Eid.
  split_and!.
  - unfold onMessage. rewrite Hu, Hok. cbn [negb]. by apply (refused_with_send h userId user).
  - intros msg Hty. unfold onMessage. rewrite Hu, Hok, Hty. cbn [negb].
    replace (if falsy msg then None else None) with (@None jsstring)
      by by destruct (falsy msg).
    by apply (refused_with_send h userId user).
  - intros msg type Hty Hn Hnot.
    rewrite (onMessage_dispatch _ _ _ _ _ _ _ Hu Hok Hty). unfold dispatch.
    rewrite !not_elem_of_cons in Hnot.
    destruct Hnot as (? & ? & ? & ? & ? & ? & ? & ? & ? & _).
    rewrite !decide_False by done.
    change (User.name (ticked user (now env))) with (User.name user).
    rewrite Hn. cbn [negb]. by apply (refused_with_send h userId user).
Qed.

Lemma malformed_frames_witness :
  (onMessage Example.cfg (Example.at_ 1) (after Example.cfg Example.opening)
     Example.idA (Example.frame [("type", Example.str "dance")])).2
  = [Send Example.idA (error UNKNOWN_TYPE)].
Proof.
  destruct (malformed_frames Example.cfg (Example.at_ 1)
              (after Example.cfg Example.opening) Example.idA (Example.alice None 1))
    as (_ & _ & H).
  - apply reachable_after.
  - vm_compute. reflexivity.
  - reflexivity.
  - destruct (H (JObj [(js "type", Example.str "dance")]) (js "dance"))
      as (_ & Hout & _); [reflexivity|reflexivity| |by apply Hout].
    rewrite !not_elem_of_cons. split_and!; try js_differ. apply not_elem_of_nil.
Defined.

(** X14.  A [setName] that is refused changes nothing but the limiter's
    count: a name that does not validate is answered with
    [{type:'nameResult', ok:false, reason:'invalid'}], a name another
    session holds with [{ok:false, reason:'taken'}]; that one frame is
    written to the open socket of the sender, and nothing else is sent to
    anyone. *)
Theorem setName_refused cfg env h userId user msg :
  reachable cfg h →
  users h !! userId = Some user →
  dispatched h userId (now env) = true →
  field msg "type" = Some (JStr (js "setName")) →
  let answer reason :=
    refused_with h userId user (onMessage cfg env h userId (Some msg))
      (nameResult_fail reason) in
  (safeName (field msg "name") = None → answer invalid)
  ∧ (∀ n k, safeName (field msg "name") = Some n →
            nameToId h !! n = Some k → k ≠ userId → answer taken).
Proof.
  intros Hr Hu Hok Hty answer. unfold answer.
  destruct (reachable_wf _ _ Hr) as [Hwf _].
  pose proof (wf_key h Hwf _ _ Hu) as Eid.
  rewrite (onMessage_dispatch _ _ _ _ _ _ _ Hu Hok Hty), dispatch_setName.
  unfold on_setName. split.
  - intros ->. by apply (refused_with_send h userId user).
  - intros n k Hn Hk Hne. rewrite Hn, (safeName_truthy _ _ Hn). cbn [negb].
    rewrite counted_nameToId, Hk.
    destruct Hwf as [_ Hi _ Hb _].
    destruct (Hb _ _ Hk) as (u & Hku & _). rewrite (Hi _ _ Hku). cbn [andb].
    rewrite bool_decide_eq_true_2 by done.
    by apply (refused_with_send h userId user).
Qed.

Lemma setName_refused_witness :
  (onMessage Example.cfg (Example.at_ 1) (after Example.cfg Example.opening)
     Example.idA
     (Example.frame [("type", Example.str "setName"); ("name", Example.str "Bob")])).2
  = [Send Example.idA (nameResult_fail taken)].
Proof.
  destruct (setName_refused Example.cfg (Example.at_ 1)
              (after Example.cfg Example.opening) Example.idA (Example.alice None 1)
              (JObj [(js "type", Example.str "setName"); (js "name", Example.str "Bob")]))
    as [_ H].
  - apply reachable_after.
  - vm_compute. reflexivity.
  - reflexivity.
  - reflexivity.
  - destruct (H (js "Bob") Example.idB) as (_ & Hout & _);
      [reflexivity|vm_compute; reflexivity|js_differ|by apply Hout].
Defined.

(** ** Starting a call *)

Lemma dispatch_callStart cfg env h userId user msg :
  truthyO (User.name user) = true →
  dispatch cfg env h userId user msg (js "callStart")
  = on_callStart cfg env h userId user msg.
Proof. intros Hn. dispatch_to. by rewrite Hn. Qed.

(** X15.  A [callStart] that is refused changes nothing but the limiter's
    count and is answered with one [callStartResult] frame with [ok:false]
    on the open socket of the caller, and nothing else is sent to anyone:
    [not_found] when [to] is no string or no session, [self] when it is the
    caller, [not_ready] when the callee has no name, [busy] when the callee
    has a [roomId]. *)
Theorem callStart_refused cfg env h userId user msg :
  reachable cfg h →
  users h !! userId = Some user →
  dispatched h userId (now env) = true →
  truthyO (User.name user) = true →
  field msg "type" = Some (JStr (js "callStart")) →
  let answer reason :=
    refused_with h userId user (onMessage cfg env h userId (Some msg))
      (callStartResult_fail reason) in
  (stringOrNull (field msg "to") = None → answer not_found)
  ∧ (∀ to, stringOrNull (field msg "to") = Some to →
           users h !! to = None → answer not_found)
  ∧ (stringOrNull (field msg "to") = Some userId → answer self)
  ∧ (∀ to callee, stringOrNull (field msg "to") = Some to → to ≠ userId →
                  users h !! to = Some callee →
       (truthyO (User.name callee) = false → answer not_ready)
       ∧ (truthyO (User.name callee) = true →
          truthyO (User.roomId callee) = true → answer busy)).
Proof.
  intros Hr Hu Hok Hn Hty answer. unfold answer.
  destruct (reachable_wf _ _ Hr) as [Hwf Hwr].
  pose proof (wf_key h Hwf _ _ Hu) as Eid.
  rewrite (onMessage_dispatch _ _ _ _ _ _ _ Hu Hok Hty), dispatch_callStart by done.
  unfold on_callStart. split_and!.
  - intros ->. by apply (refused_with_send h userId user).
  - intros to -> Hnone. destruct (truthy to); cbn [negb].
    + rewrite counted_lookup_ne, Hnone by congruence.
      by apply (refused_with_send h userId user).
    + by apply (refused_with_send h userId user).
  - intros ->. rewrite (wf_id h Hwf _ _ Hu). cbn [negb].
    rewrite (counted_lookup _ _ _ _ Hu). rewrite decide_True by done.
    by apply (refused_with_send h userId user).
  - intros to callee -> Hne Hc. rewrite (wf_id h Hwf _ _ Hc). cbn [negb].
    rewrite counted_lookup_ne, Hc by done. rewrite decide_False by done.
    split.
    + intros ->. cbn [negb]. by apply (refused_with_send h userId user).
    + intros -> ->. cbn [negb]. by apply (refused_with_send h userId user).
Qed.

Lemma callStart_refused_witness :
  (onMessage Example.cfg (Example.at_ 1) (after Example.cfg Example.ringing)
     Example.idC
     (Example.frame [("type", Example.str "callStart"); ("to", JStr Example.idB)])).2
  = [Send Example.idC (callStartResult_fail busy)].
Proof.
  destruct (callStart_refused Example.cfg (Example.at_ 1)
              (after Example.cfg Example.ringing) Example.idC (Example.carol None 1)
              (JObj [(js "type", Example.str "callStart"); (js "to", JStr Example.idB)]))
    as (_ & _ & _ & H).
  - apply reachable_after.
  - vm_compute. reflexivity.
  - reflexivity.
  - reflexivity.
  - reflexivity.
  - destruct (H Example.idB (Example.bob (Some Example.idR) 1)) as [_ Hbusy].
    + reflexivity.
    + js_differ.
    + vm_compute. reflexivity.
    + destruct (Hbusy eq_refl eq_refl) as (_ & Hout & _).
      by apply Hout.
Defined.

Lemma on_callStart_rings cfg env h userId user msg to callee :
  stringOrNull (field msg "to") = Some to → truthy to = true →
  users h !! to = Some callee → to ≠ userId →
  truthyO (User.name callee) = true → truthyO (User.roomId callee) = false →
  let rid := default (makeId env) (User.roomId user) in
  let h1 := with_rooms
              (alter (λ room, Room.set_members
                        (Room.members room ∪ {[User.id user]} ∪ {[User.id callee]})
                        room) rid) (ensureRoom rid h) in
  let h2 := with_users (alter (User.set_roomId (Some rid)) to)
              (with_users (alter (User.set_roomId (Some rid)) userId) h1) in
  on_callStart cfg env h userId user msg
  = (h2, send callee (incomingCall (User.id user) (User.name user) rid)
         ++ sendPushToUser cfg h2 (User.id callee)
              {| title := js "Incoming call";
                 body := js "From " ++ show (User.name user);
                 tag := js "lrcom-call"; url := js "/";
                 requireInteraction := true |}
         ++ send user callStartResult_ok
         ++ broadcastPresence cfg h2).
Proof.
  intros Hto Ht Hc Hne Hn Hfree. unfold on_callStart.
  rewrite Hto, Ht. simpl. rewrite Hc. rewrite decide_False by done.
  rewrite Hn, Hfree. simpl. by destruct (User.roomId user).
Qed.

(** X16.  A [callStart] that goes through (the callee exists, is another
    session, has a name and no [roomId]) puts caller and callee into the
    caller's room, or into a new room [makeId()] when the caller has none:
    both sessions get that [roomId], the room of that id gains both as
    members and loses none, no other room changes, the callee is sent
    [incomingCall] and the caller [callStartResult ok] (open sockets), and
    the callee's push subscription, if any, is notified. *)
Theorem callStart_rings cfg env h userId user msg to callee :
  reachable cfg h →
  users h !! userId = Some user →
  dispatched h userId (now env) = true →
  truthyO (User.name user) = true →
  field msg "type" = Some (JStr (js "callStart")) →
  stringOrNull (field msg "to") = Some to →
  users h !! to = Some callee → to ≠ userId →
  truthyO (User.name callee) = true → truthyO (User.roomId callee) = false →
  let rid := default (makeId env) (User.roomId user) in
  let before := match rooms h !! rid with
                | Some room => Room.members room
                | None => ∅
                end in
  let r := onMessage cfg env h userId (Some msg) in
  (∃ caller', users r.1 !! userId = Some caller' ∧ User.roomId caller' = Some rid)
  ∧ (∃ callee', users r.1 !! to = Some callee' ∧ User.roomId callee' = Some rid)
  ∧ (∃ room, rooms r.1 !! rid = Some room
             ∧ Room.members room = before ∪ {[userId]} ∪ {[to]})
  ∧ (∀ r', r' ≠ rid → rooms r.1 !! r' = rooms h !! r')
  ∧ (User.open callee = true →
     Send to (incomingCall userId (User.name user) rid) ∈ r.2)
  ∧ (User.open user = true → Send userId callStartResult_ok ∈ r.2)
  ∧ (∀ sub, PUSH_ENABLED cfg = true → pushSubscriptions h !! to = Some sub →
            ∃ payload, WebPush to sub payload ∈ r.2).
Proof.
  intros Hr Hu Hok Hn Hty Hto Hc Hne Hcn Hfree rid before r.
  destruct (reachable_wf _ _ Hr) as [Hwf _].
  pose proof (wf_key h Hwf _ _ Hu) as Eid.
  pose proof (wf_key h Hwf _ _ Hc) as Eto.
  pose proof (wf_id h Hwf _ _ Hc) as Ht.
  assert (users (counted h userId (now env)) !! to = Some callee) as Hc'
    by by rewrite counted_lookup_ne.
  unfold r.
  rewrite (onMessage_dispatch _ _ _ _ _ _ _ Hu Hok Hty), dispatch_callStart by done.
  rewrite (on_callStart_rings cfg env _ userId _ msg to callee Hto Ht Hc' Hne Hcn Hfree).
  change (User.roomId (ticked user (now env))) with (User.roomId user).
  change (User.id (ticked user (now env))) with (User.id user).
  change (User.name (ticked user (now env))) with (User.name user).
  fold rid. rewrite Eid, Eto. cbn [fst snd].
  split_and!.
  - cbn [users with_users with_rooms]. rewrite ensureRoom_users.
    rewrite lookup_alter_ne by done.
    rewrite lookup_alter_eq, (counted_lookup _ _ _ _ Hu). simpl. eauto.
  - cbn [users with_users with_rooms]. rewrite ensureRoom_users.
    rewrite lookup_alter_eq, lookup_alter_ne, Hc' by done. simpl. eauto.
  - cbn [rooms with_users with_rooms].
    rewrite lookup_alter_eq, ensureRoom_lookup, counted_rooms. simpl.
    eexists. split; [done|]. unfold before. by destruct (rooms h !! rid).
  - intros r' Hr'. cbn [rooms with_users with_rooms].
    by rewrite lookup_alter_ne, ensureRoom_lookup_ne, counted_rooms.
  - intros Ho. apply elem_of_app. left.
    rewrite (send_open callee _ Ho), Eto. by left.
  - intros Ho. apply elem_of_app. right. apply elem_of_app. right.
    apply elem_of_app. left. rewrite send_ticked, (send_open user _ Ho), Eid. by left.
  - intros sub Hen Hsub. eexists. apply elem_of_app. right. apply elem_of_app. left.
    unfold sendPushToUser. rewrite Hen. cbn [negb pushSubscriptions with_users with_rooms].
    rewrite ensureRoom_push, counted_push, Hsub. by left.
Qed.

(** Alice calls Bob from the opening state. *)
Lemma callStart_rings_witness :
  let r := onMessage Example.cfg (Example.at_ 0) (after Example.cfg Example.opening)
             Example.idA
             (Example.frame [("type", Example.str "callStart"); ("to", JStr Example.idB)]) in
  (∃ caller', users r.1 !! Example.idA = Some caller'
              ∧ User.roomId caller' = Some Example.idR)
  ∧ (∃ callee', users r.1 !! Example.idB = Some callee'
                ∧ User.roomId callee' = Some Example.idR)
  ∧ Send Example.idB (incomingCall Example.idA (Some (js "Alice")) Example.idR) ∈ r.2
  ∧ Send Example.idA callStartResult_ok ∈ r.2.
Proof.
  destruct (callStart_rings Example.cfg (Example.at_ 0)
              (after Example.cfg Example.opening) Example.idA (Example.alice None 1)
              (JObj [(js "type", Example.str "callStart"); (js "to", JStr Example.idB)])
              Example.idB (Example.bob None 1))
    as (H1 & H2 & _ & _ & H5 & H6 & _).
  - apply reachable_after.
  - vm_compute. reflexivity.
  - reflexivity.
  - reflexivity.
  - reflexivity.
  - reflexivity.
  - vm_compute. reflexivity.
  - js_differ.
  - reflexivity.
  - reflexivity.
  - split_and!; [exact H1|exact H2|by apply H5|by apply H6].
Defined.

(** ** Accepting a call *)

Lemma dispatch_callAccept cfg env h userId user msg :
  truthyO (User.name user) = true →
  dispatch cfg env h userId user msg (js "callAccept")
  = on_callAccept cfg h userId user msg.
Proof. intros Hn. dispatch_to. by rewrite Hn. Qed.

Lemma elem_of_send u f e :
  e ∈ send u f ↔ User.open u = true ∧ e = Send (User.id u) f.
Proof.
  unfold send. destruct (User.open u); simpl.
  - rewrite list_elem_of_singleton. split; [by intros ->|by intros [_ ->]].
  - split; [by intros ?%elem_of_nil|by intros [? _]].
Qed.

(** X17.  A [callAccept] that names a caller who is in the room the joiner
    was invited to goes through in every reachable state (the room is
    there): nothing changes but the limiter's count, every other member of
    the room with an open socket is sent [roomPeerJoined] with the joiner's
    id and name, the joiner is sent [roomPeers] listing the other members
    that are sessions, and nothing else is sent. *)
Theorem callAccept_joins cfg env h userId user msg from caller rid :
  reachable cfg h →
  users h !! userId = Some user →
  dispatched h userId (now env) = true →
  truthyO (User.name user) = true →
  field msg "type" = Some (JStr (js "callAccept")) →
  stringOrNull (field msg "from") = Some from →
  users h !! from = Some caller →
  roomIdOf msg user = Some rid →
  User.roomId caller = Some rid → User.roomId user = Some rid →
  let r := onMessage cfg env h userId (Some msg) in
  r.1 = counted h userId (now env)
  ∧ ∃ room peers,
      rooms h !! rid = Some room
      ∧ (∀ p, p ∈ peers ↔ ∃ m u, m ∈ Room.members room ∧ m ≠ userId
                                   ∧ users h !! m = Some u ∧ p = (m, User.name u))
      ∧ ∀ e, e ∈ r.2 ↔
          (∃ m u, m ∈ Room.members room ∧ m ≠ userId ∧ users h !! m = Some u
                  ∧ User.open u = true
                  ∧ e = Send m (roomPeerJoined rid (userId, User.name user)))
          ∨ (User.open user = true ∧ e = Send userId (roomPeers rid peers)).
Proof.
  intros Hr Hu Hok Hn Hty Hfrom Hc Hrid Hcr Hur r.
  destruct (reachable_wf _ _ Hr) as [Hwf Hwr].
  pose proof (wf_key h Hwf) as Hkey.
  pose proof (wf_id h Hwf _ _ Hc) as Htf.
  pose proof (wf_roomId h Hwr _ _ _ Hu Hur) as Htr.
  destruct (roomId_in_room_invariant cfg h Hr _ _ _ Hu Hur) as (room & Hroom & _).
  set (h0 := counted h userId (now env)).
  assert (∃ caller', users h0 !! from = Some caller'
                     ∧ User.roomId caller' = Some rid) as (caller' & Hc' & Hcr').
  { destruct (same_view_lookup _ _ _ _ _ (counted_outward h userId (now env)) Hc)
      as (c' & Hc' & E).
    apply outward_eq in E as (_ & _ & _ & E). exists c'. split; [done|congruence]. }
  unfold r.
  rewrite (onMessage_dispatch _ _ _ _ _ _ _ Hu Hok Hty), dispatch_callAccept by done.
  fold h0. unfold on_callAccept, lookupFrom.
  change (roomIdOf msg (ticked user (now env))) with (roomIdOf msg user).
  change (User.roomId (ticked user (now env))) with (User.roomId user).
  change (User.id (ticked user (now env))) with (User.id user).
  change (User.name (ticked user (now env))) with (User.name user).
  rewrite Hfrom, Htf, Hc', Hrid, Hcr', Hur. cbn [truthyO negb orb].
  rewrite Htr, !bool_decide_eq_false_2 by (by intros []). cbn [negb orb getRoom].
  assert (rooms h0 !! rid = Some room) as Hroom0
    by (unfold h0; by rewrite counted_rooms).
  rewrite Htr, Hroom0, (Hkey _ _ Hu).
  cbn [fst snd]. split; [done|].
  assert (∀ m, m ≠ userId → users h0 !! m = users h !! m) as Hother
    by (intros m Hm; by apply counted_lookup_ne).
  exists room,
    (omap (λ id, (λ u2, (User.id u2, User.name u2)) <$> users h0 !! id)
       (filter (λ id, id ≠ userId) (elements (Room.members room)))).
  split_and!; [done| |].
  - intros [m n]. rewrite list_elem_of_omap. split.
    + intros (k & [Hk Hin]%list_elem_of_filter & Hp). simpl in Hk.
      apply elem_of_elements in Hin. rewrite Hother in Hp by done.
      destruct (users h !! k) as [u|] eqn:Hku; [|done]. simpl in Hp.
      injection Hp as <- <-. rewrite (Hkey _ _ Hku). eauto 10.
    + intros (k & u & Hin & Hne & Hku & [= -> ->]). exists k. split.
      * apply list_elem_of_filter. split; [done|]. by apply elem_of_elements.
      * rewrite Hother, Hku by done. simpl. by rewrite (Hkey _ _ Hku).
  - intros e. rewrite elem_of_app, list_elem_of_bind, elem_of_send.
    change (User.open (ticked user (now env))) with (User.open user).
    change (User.id (ticked user (now env))) with (User.id user).
    rewrite (Hkey _ _ Hu).
    apply or_iff_compat_r. split.
    + intros (m & He & Hin%elem_of_elements).
      case_decide as Hm; [by apply elem_of_nil in He|].
      rewrite Hother in He by done.
      destruct (users h !! m) as [u|] eqn:Hmu; [|by apply elem_of_nil in He].
      apply elem_of_send in He as [Ho ->]. rewrite (Hkey _ _ Hmu). eauto 10.
    + intros (m & u & Hin & Hne & Hmu & Ho & ->). exists m.
      split; [|by apply elem_of_elements].
      rewrite decide_False by done. rewrite Hother, Hmu by done.
      apply elem_of_send. by rewrite (Hkey _ _ Hmu).
Qed.

(** Bob accepts Alice's call: Alice is told that Bob joined. *)
Lemma callAccept_joins_witness :
  Send Example.idA (roomPeerJoined Example.idR (Example.idB, Some (js "Bob")))
  ∈ (onMessage Example.cfg (Example.at_ 0) (after Example.cfg Example.ringing)
       Example.idB
       (Example.frame [("type", Example.str "callAccept"); ("from", JStr Example.idA);
                       ("roomId", JStr Example.idR)])).2.
Proof.
  destruct (callAccept_joins Example.cfg (Example.at_ 0)
              (after Example.cfg Example.ringing) Example.idB
              (Example.bob (Some Example.idR) 1)
              (JObj [(js "type", Example.str "callAccept"); (js "from", JStr Example.idA);
                     (js "roomId", JStr Example.idR)])
              Example.idA (Example.alice (Some Example.idR) 2) Example.idR)
    as (_ & room & peers & Hroom & _ & Hout).
  - apply reachable_after.
  - vm_compute. reflexivity.
  - reflexivity.
  - reflexivity.
  - reflexivity.
  - reflexivity.
  - vm_compute. reflexivity.
  - reflexivity.
  - reflexivity.
  - reflexivity.
  - apply Hout. left. exists Example.idA, (Example.alice (Some Example.idR) 2).
    assert (room = Room.mk Example.idR ({[Example.idA]} ∪ {[Example.idB]})) as ->.
    { assert (rooms (after Example.cfg Example.ringing) !! Example.idR
              = Some (Room.mk Example.idR ({[Example.idA]} ∪ {[Example.idB]})))
        as E by (vm_compute; reflexivity).
      congruence. }
    split_and!; [vm_compute; reflexivity|js_differ|vm_compute; reflexivity
                |reflexivity|reflexivity].
Defined.

(** ** Voice statistics *)

Lemma count_all (l : list Room.t) :
  (∀ r, r ∈ l → 2 ≤ size (Room.members r)) →
  foldr (λ r calls, if (2 <=? roomSize r)%Z then (calls + 1)%Z else calls) 0%Z l
  = Z.of_nat (length l).
Proof.
  induction l as [|r l IH]; intros Hall; [done|].
  cbn [foldr length]. rewrite IH by (intros r' Hr'; apply Hall; by right).
  assert (2 ≤ size (Room.members r)) by (apply Hall; by left).
  unfold roomSize. destruct (Z.leb_spec 2 (Z.of_nat (size (Room.members r)))); lia.
Qed.

Lemma links_nonneg h : (0 ≤ getPeerLinksEstimate h)%Z.
Proof.
  unfold getPeerLinksEstimate. induction (values (rooms h)) as [|r l IH]; [done|].
  cbn [foldr]. cbv zeta in *.
  destruct (Z.leb_spec 2 (roomSize r)); [|done].
  assert (0 ≤ roomSize r * (roomSize r - 1) / 2)%Z by (apply Z.div_pos; nia). lia.
Qed.

(** X18.  The statistics the hub reports in [hello] and [presence]: in
    every reachable state [activeCalls] is the number of rooms of the
    table, and the estimate of used relay ports is not negative and, when
    a relay port range is configured, not above the size of that range. *)
Theorem voice_stats_count_rooms cfg h :
  reachable cfg h →
  activeCalls (getVoiceStats cfg h) = Z.of_nat (size (rooms h))
  ∧ (0 ≤ relayPortsUsedEstimate (getVoiceStats cfg h))%Z
  ∧ (∀ t, relayPortsTotal (getVoiceStats cfg h) = Some t →
          (relayPortsUsedEstimate (getVoiceStats cfg h) ≤ t)%Z).
Proof.
  intros Hr. destruct (reachable_wf _ _ Hr) as [_ [Hsize _]].
  pose proof (links_nonneg h) as Hl.
  split_and!.
  - cbn [activeCalls getVoiceStats]. unfold getActiveCallCount.
    rewrite count_all.
    + unfold values. by rewrite length_fmap, length_map_to_list.
    + intros r [k Hk]%elem_of_values. eauto.
  - cbn [relayPortsUsedEstimate getVoiceStats].
    destruct (TURN_RELAY_MIN_PORT cfg) as [lo|]; [|lia].
    destruct (TURN_RELAY_MAX_PORT cfg) as [hi|]; [|lia].
    destruct ((0 <? lo)%Z && (lo <=? hi)%Z) eqn:E; [|lia].
    apply andb_true_iff in E as [?%Z.ltb_lt ?%Z.leb_le]. lia.
  - intros t. cbn [relayPortsTotal relayPortsUsedEstimate getVoiceStats].
    destruct (TURN_RELAY_MIN_PORT cfg) as [lo|]; [|done].
    destruct (TURN_RELAY_MAX_PORT cfg) as [hi|]; [|done].
    destruct ((0 <? lo)%Z && (lo <=? hi)%Z); [|done].
    intros [= <-]. lia.
Qed.

Lemma voice_stats_count_rooms_witness :
  activeCalls (getVoiceStats Example.cfg (after Example.cfg Example.ringing)) = 1%Z.
Proof.
  destruct (voice_stats_count_rooms Example.cfg (after Example.cfg Example.ringing))
    as [H _]; [apply reachable_after|].
  rewrite H. vm_compute. reflexivity.
Defined.

(** X19.  For a relay range of port numbers [lo..hi] (integers with
    [0 < lo <= hi <= 65535]) the reported [maxConferenceUsersEstimate] is
    the largest [k] whose mesh of [k(k-1)/2] links fits the link budget
    [floor(relayPortsTotal / 2)], and [capacityCallsEstimate] is that
    budget.  (Port numbers end at 65535; up to there every value the
    source computes in double precision is an integer below 2^19 or the
    square root of one, whose floor is exact, so that the arithmetic of
    the model and of the source agree.) *)
Theorem max_conference_users_is_largest_mesh cfg h lo hi :
  TURN_RELAY_MIN_PORT cfg = Some lo → TURN_RELAY_MAX_PORT cfg = Some hi →
  (0 < lo ≤ hi)%Z → (hi ≤ 65535)%Z →
  let budget := ((hi - lo + 1) / 2)%Z in
  capacityCallsEstimate (getVoiceStats cfg h) = Some budget
  ∧ ∃ k, maxConferenceUsersEstimate (getVoiceStats cfg h) = Some k
         ∧ (1 ≤ k)%Z
         ∧ (k * (k - 1) / 2 ≤ budget)%Z
         ∧ (budget < (k + 1) * k / 2)%Z.
Proof.
  intros Hlo Hhi [H0 Hle] _ budget.
  cbn [capacityCallsEstimate maxConferenceUsersEstimate getVoiceStats].
  rewrite Hlo, Hhi.
  replace ((0 <? lo)%Z && (lo <=? hi)%Z) with true
    by (symmetry; apply andb_true_iff; rewrite Z.ltb_lt, Z.leb_le; lia).
  cbn [fmap option_fmap option_map]. fold budget. split; [done|].
  eexists. split; [done|].
  assert (0 ≤ budget)%Z as Hb by (apply Z.div_pos; lia).
  clearbody budget.
  set (s := Z.sqrt (1 + 8 * budget)).
  assert (s * s ≤ 1 + 8 * budget < (s + 1) * (s + 1))%Z as [Hs1 Hs2].
  { pose proof (Z.sqrt_spec (1 + 8 * budget)) as Hs. unfold Z.succ in Hs.
    fold s in Hs. apply Hs. lia. }
  assert (1 ≤ s)%Z as Hs0 by nia.
  set (k := ((1 + s) / 2)%Z).
  assert (2 * k ≤ 1 + s < 2 * k + 2)%Z as [Hk1 Hk2].
  { unfold k. pose proof (Z.div_mod (1 + s) 2).
    pose proof (Z.mod_pos_bound (1 + s) 2). lia. }
  assert (1 ≤ k)%Z as Hk0 by lia.
  split_and!; [done| |].
  - apply Z.div_le_upper_bound; [lia|]. nia.
  - assert (2 * budget < (k + 1) * k)%Z by nia.
    assert (∃ q, (k + 1) * k = 2 * q)%Z as [q Hq].
    { destruct (Z.Even_or_Odd k) as [[j ->]|[j ->]].
      - exists ((2 * j + 1) * j)%Z. lia.
      - exists ((j + 1) * (2 * j + 1))%Z. lia. }
    rewrite Hq, (Z.mul_comm 2 q), Z.div_mul by done. lia.
Qed.

Lemma max_conference_users_is_largest_mesh_witness :
  maxConferenceUsersEstimate
    (getVoiceStats {| PUSH_ENABLED := false; turnHostLabel := None;
                      TURN_RELAY_MIN_PORT := Some 49160%Z;
                      TURN_RELAY_MAX_PORT := Some 49200%Z |} empty_hub)
  = Some 6%Z.
Proof.
  destruct (max_conference_users_is_largest_mesh
              {| PUSH_ENABLED := false; turnHostLabel := None;
                 TURN_RELAY_MIN_PORT := Some 49160%Z;
                 TURN_RELAY_MAX_PORT := Some 49200%Z |} empty_hub 49160 49200)
    as (_ & k & Hk & _); [reflexivity|reflexivity|lia|lia|].
  reflexivity.
Defined.

(** ** The TURN host label

    [getTurnHostLabel] reads the first TURN url with the pattern
    [/^turns?:([^:?]+)(?::(\d+))?/i].  The pattern needs no backtracking:
    the scheme is "turn" or "turns" in either case and a colon, the host is
    the longest run of code units other than ":" and "?" (one at least),
    and the port is the run of digits after a colon that follows the host,
    when there is one. *)

(** [s.split(',')] *)
Fixpoint splitBy (sep : N) (s : jsstring) : list jsstring :=
  match s with
  | [] => [[]]
  | c :: s' =>
      if (c =? sep)%N then [] :: splitBy sep s'
      else match splitBy sep s' with
           | piece :: rest => (c :: piece) :: rest
           | [] => [[c]]
           end
  end.

(** [(process.env.TURN_URLS ?? '').split(',').map((s) => s.trim()).filter(Boolean)] *)
Definition TURN_URLS (env : option jsstring) : list jsstring :=
  filter (λ s, truthy s = true) (trim <$> splitBy 44 (default [] env)).

(** The longest prefix of code units that satisfy [p], and the rest. *)
Fixpoint span (p : N → bool) (s : jsstring) : jsstring * jsstring :=
  match s with
  | c :: s' => if p c then let '(a, b) := span p s' in (c :: a, b) else ([], s)
  | [] => ([], [])
  end.

(** An ASCII letter in lower case, as the flag [i] compares them. *)
Definition lower (c : N) : N := if in_range 65 90 c then (c + 32)%N else c.

(** [^turns?:] with the flag [i]: what follows the scheme. *)
Definition afterScheme (s : jsstring) : option jsstring :=
  match s with
  | t :: u :: r :: n :: rest =>
      if (lower t =? 116)%N && (lower u =? 117)%N && (lower r =? 114)%N
         && (lower n =? 110)%N
      then match rest with
           | c :: rest' =>
               if (lower c =? 115)%N
               then match rest' with
                    | c' :: rest'' => if (c' =? 58)%N then Some rest'' else None
                    | [] => None
                    end
               else if (c =? 58)%N then Some rest' else None
           | [] => None
           end
      else None
  | _ => None
  end.

Definition hostChar (c : N) : bool := negb (c =? 58)%N && negb (c =? 63)%N.
Definition digit (c : N) : bool := in_range 48 57 c.

Definition getTurnHostLabel (urls : list jsstring) : option jsstring :=
  match urls with
  | [] => None
  | first :: _ =>
      if negb (truthy first) then None
      else match afterScheme first with
           | None => None
           | Some rest =>
               let '(host, rest') := span hostChar rest in
               if negb (truthy host) then None
               else
                 let port :=
                   match rest' with
                   | c :: rest'' =>
                       if (c =? 58)%N && truthy (span digit rest'').1
                       then (span digit rest'').1
                       else js "3478"
                   | [] => js "3478"
                   end in
                 Some (host ++ js ":" ++ port)
           end
  end.

Example turn_label_udp :
  getTurnHostLabel (TURN_URLS (Some (js " turn:relay.example.org:5349?transport=udp , turn:b")))
  = Some (js "relay.example.org:5349").
Proof. reflexivity. Qed.

Example turn_label_default_port :
  getTurnHostLabel [js "TURNS:relay.example.org?transport=tcp"]
  = Some (js "relay.example.org:3478").
Proof. reflexivity. Qed.

Example turn_label_stun : getTurnHostLabel [js "stun:relay.example.org"] = None.
Proof. reflexivity. Qed.

Lemma span_spec p s :
  s = (span p s).1 ++ (span p s).2
  ∧ (∀ c, c ∈ (span p s).1 → p c = true)
  ∧ match (span p s).2 with c :: _ => p c = false | [] => True end.
Proof.
  induction s as [|c s (IH1 & IH2 & IH3)]; simpl.
  - split_and!; [done| |done]. by intros c ?%elem_of_nil.
  - destruct (p c) eqn:Hc.
    + destruct (span p s) as [a b]. simpl in *. split_and!; [by f_equal| |done].
      intros d [->|Hd]%elem_of_cons; auto.
    + simpl. split_and!; [done| |done]. by intros d ?%elem_of_nil.
Qed.

Lemma span_app p a b :
  (∀ c, c ∈ a → p c = true) →
  match b with c :: _ => p c = false | [] => True end →
  span p (a ++ b) = (a, b).
Proof.
  intros Ha Hb. induction a as [|c a IH]; simpl.
  - destruct b as [|c b]; [done|]. simpl. by rewrite Hb.
  - rewrite (Ha c) by by left. rewrite IH; [done|]. intros d Hd. apply Ha. by right.
Qed.

Lemma afterScheme_spec s rest :
  afterScheme s = Some rest →
  ∃ scheme, s = scheme ++ rest
            ∧ (lower <$> scheme = js "turn:" ∨ lower <$> scheme = js "turns:").
Proof.
  unfold afterScheme.
  destruct s as [|t [|u [|r [|n s]]]]; try done.
  destruct (_ && _) eqn:E; [|done].
  apply andb_true_iff in E as [E En]. apply andb_true_iff in E as [E Er].
  apply andb_true_iff in E as [Et Eu].
  apply N.eqb_eq in Et, Eu, Er, En.
  destruct s as [|c s]; [done|].
  destruct (lower c =? 115)%N eqn:Es.
  - apply N.eqb_eq in Es. destruct s as [|c' s]; [done|].
    destruct (c' =? 58)%N eqn:Ec; [|done]. apply N.eqb_eq in Ec as ->.
    intros [= <-]. exists [t; u; r; n; c; 58%N]. split; [done|]. right.
    simpl. by rewrite Et, Eu, Er, En, Es.
  - destruct (c =? 58)%N eqn:Ec; [|done]. apply N.eqb_eq in Ec as ->.
    intros [= <-]. exists [t; u; r; n; 58%N]. split; [done|]. left.
    simpl. by rewrite Et, Eu, Er, En.
Qed.

(** X20.  What [getTurnHostLabel] returns is read off the first url: the
    url is a scheme "turn:" or "turns:" (in any case), a host and a tail;
    the host is not empty, holds no ":" and no "?", and ends where the url
    ends or the first ":" or "?" stands; the label is the host, a colon and
    a port of decimal digits, and the port is "3478" unless the tail starts
    with a colon and that port. *)
Theorem getTurnHostLabel_shape urls label :
  getTurnHostLabel urls = Some label →
  ∃ first others scheme host tail port,
    urls = first :: others
    ∧ first = scheme ++ host ++ tail
    ∧ (lower <$> scheme = js "turn:" ∨ lower <$> scheme = js "turns:")
    ∧ host ≠ [] ∧ (∀ c, c ∈ host → c ≠ 58%N ∧ c ≠ 63%N)
    ∧ match tail with c :: _ => c = 58%N ∨ c = 63%N | [] => True end
    ∧ port ≠ [] ∧ (∀ c, c ∈ port → (48 ≤ c ∧ c ≤ 57)%N)
    ∧ (port = js "3478" ∨ ∃ tail', tail = js ":" ++ port ++ tail')
    ∧ label = host ++ js ":" ++ port.
Proof.
  unfold getTurnHostLabel. destruct urls as [|first others]; [done|].
  destruct (truthy first); simpl; [|done].
  destruct (afterScheme first) as [rest|] eqn:Hs; [|done].
  apply afterScheme_spec in Hs as (scheme & -> & Hscheme).
  destruct (span_spec hostChar rest) as (Hrest & Hhost & Htail).
  destruct (span hostChar rest) as [host tail]. simpl in Hrest, Hhost, Htail.
  destruct (truthy host) eqn:Hth; simpl; [|done].
  intros [= <-].
  assert (∃ port, match tail with
                  | c :: rest'' =>
                      if (c =? 58)%N && truthy (span digit rest'').1
                      then (span digit rest'').1 else js "3478"
                  | [] => js "3478"
                  end = port
                  ∧ port ≠ [] ∧ (∀ c, c ∈ port → (48 ≤ c ∧ c ≤ 57)%N)
                  ∧ (port = js "3478" ∨ ∃ tail', tail = js ":" ++ port ++ tail'))
    as (port & -> & Hp1 & Hp2 & Hp3).
  { assert (js "3478" ≠ [] ∧ ∀ c, c ∈ js "3478" → (48 ≤ c ∧ c ≤ 57)%N) as [Hd1 Hd2].
    { split; [done|]. intros c Hc. vm_compute in Hc.
      repeat (apply elem_of_cons in Hc as [->|Hc]; [lia|]). by apply elem_of_nil in Hc. }
    destruct tail as [|c rest'']; [eauto 10|].
    destruct ((c =? 58)%N && truthy (span digit rest'').1) eqn:E; [|eauto 10].
    apply andb_true_iff in E as [->%N.eqb_eq E].
    destruct (span_spec digit rest'') as (Hr & Hdig & _).
    eexists. split; [done|]. split_and!.
    - by destruct (span digit rest'').1.
    - intros c Hc. by apply in_range_spec, Hdig.
    - right. exists (span digit rest'').2. simpl. by f_equal. }
  exists (scheme ++ rest), others, scheme, host, tail, port.
  split_and!; try done.
  - by rewrite Hrest.
  - by destruct host.
  - intros c Hc. apply Hhost in Hc. unfold hostChar in Hc.
    apply andb_true_iff in Hc as [H1%negb_true_iff H2%negb_true_iff].
    by apply N.eqb_neq in H1, H2.
  - destruct tail as [|c tail]; [done|]. unfold hostChar in Htail.
    apply andb_false_iff in Htail as [H%negb_false_iff|H%negb_false_iff];
      apply N.eqb_eq in H; auto.
Qed.

Lemma getTurnHostLabel_shape_witness :
  ∃ first others scheme host tail port,
    [js "turn:relay.example.org:5349?transport=udp"] = first :: others
    ∧ first = scheme ++ host ++ tail
    ∧ (lower <$> scheme = js "turn:" ∨ lower <$> scheme = js "turns:")
    ∧ host ≠ [] ∧ (∀ c, c ∈ host → c ≠ 58%N ∧ c ≠ 63%N)
    ∧ match tail with c :: _ => c = 58%N ∨ c = 63%N | [] => True end
    ∧ port ≠ [] ∧ (∀ c, c ∈ port → (48 ≤ c ∧ c ≤ 57)%N)
    ∧ (port = js "3478" ∨ ∃ tail', tail = js ":" ++ port ++ tail')
    ∧ js "relay.example.org:5349" = host ++ js ":" ++ port.
Proof.
  apply (getTurnHostLabel_shape [js "turn:relay.example.org:5349?transport=udp"]).
  reflexivity.
Defined.

(** X21.  The label of a url of the documented form: for a host without
    ":" and "?", [turn:host:port] followed by nothing or by something that
    does not start with a digit gives [host:port], and [turn:host] followed
    by nothing or by "?" and anything gives [host:3478]; likewise for
    [turns:], and whatever urls follow the first. *)
Theorem getTurnHostLabel_of_url scheme host port tail others :
  scheme = js "turn:" ∨ scheme = js "turns:" →
  host ≠ [] → (∀ c, c ∈ host → c ≠ 58%N ∧ c ≠ 63%N) →
  (∀ c, c ∈ port → digit c = true) →
  match tail with c :: _ => digit c = false | [] => True end →
  (port ≠ [] →
   getTurnHostLabel ((scheme ++ host ++ js ":" ++ port ++ tail) :: others)
   = Some (host ++ js ":" ++ port))
  ∧ (match tail with c :: _ => c = 63%N | [] => True end →
     getTurnHostLabel ((scheme ++ host ++ tail) :: others)
     = Some (host ++ js ":3478")).
Proof.
  intros Hscheme Hne Hhost Hport Htail.
  assert (∀ c, c ∈ host → hostChar c = true) as Hhost'.
  { intros c [H1 H2]%Hhost. unfold hostChar.
    apply andb_true_iff. rewrite !negb_true_iff. by split; apply N.eqb_neq. }
  assert (∀ rest, afterScheme (scheme ++ rest) = Some rest) as Hafter
    by (intros rest; by destruct Hscheme as [->| ->]).
  assert (∀ rest, truthy (scheme ++ rest) = true) as Htruthy
    by (intros rest; by destruct Hscheme as [->| ->]).
  split.
  - intros Hp. unfold getTurnHostLabel. rewrite Htruthy, Hafter. cbn [negb].
    change (js ":" ++ port ++ tail) with (58%N :: (port ++ tail)).
    rewrite (span_app hostChar host) by done.
    replace (truthy host) with true by by destruct host.
    cbn [negb]. rewrite (span_app digit port tail) by done. cbn [fst].
    replace (truthy port) with true by by destruct port.
    done.
  - intros Hq. unfold getTurnHostLabel. rewrite Htruthy, Hafter. cbn [negb].
    rewrite (span_app hostChar host).
    + replace (truthy host) with true by by destruct host.
      cbn [negb]. destruct tail as [|c tail]; [done|]. by subst c.
    + done.
    + destruct tail as [|c tail]; [done|]. by subst c.
Qed.

Lemma getTurnHostLabel_of_url_witness :
  getTurnHostLabel
    [js "turns:" ++ js "relay.example.org" ++ js ":" ++ js "5349" ++ js "?transport=tcp"]
  = Some (js "relay.example.org" ++ js ":" ++ js "5349").
Proof.
  apply (getTurnHostLabel_of_url (js "turns:") (js "relay.example.org") (js "5349")
           (js "?transport=tcp") []).
  - by right.
  - done.
  - intros c Hc. vm_compute in Hc.
    repeat (apply elem_of_cons in Hc as [->|Hc]; [by split|]). by apply elem_of_nil in Hc.
  - intros c Hc. vm_compute in Hc.
    repeat (apply elem_of_cons in Hc as [->|Hc]; [reflexivity|]). by apply elem_of_nil in Hc.
  - reflexivity.
  - done.
Defined.

(** X22.  The entries of [TURN_URLS]: whatever the environment variable
    holds, each url of the list is not empty, has no white space at either
    end and holds no comma. *)
Theorem TURN_URLS_entries env url :
  url ∈ TURN_URLS env → url ≠ [] ∧ trim url = url ∧ 44%N ∉ url.
Proof.
  unfold TURN_URLS. intros [Ht Hin]%list_elem_of_filter.
  apply list_elem_of_fmap in Hin as (piece & -> & Hin).
  split_and!.
  - by destruct (trim piece).
  - apply trim_idem.
  - assert (44%N ∉ piece) as Hpiece.
    { clear Ht. revert piece Hin. induction (default [] env) as [|c s IH]; simpl.
      - intros piece ->%list_elem_of_singleton. apply not_elem_of_nil.
      - destruct (c =? 44)%N eqn:Ec.
        + intros piece [->|Hin]%elem_of_cons; [apply not_elem_of_nil|by apply IH].
        + destruct (splitBy 44 s) as [|p ps].
          * intros piece ->%list_elem_of_singleton.
            apply not_elem_of_cons. split; [|apply not_elem_of_nil].
            intros <-. by rewrite N.eqb_refl in Ec.
          * intros piece [->|Hin]%elem_of_cons.
            -- apply not_elem_of_cons. split.
               ++ intros <-. by rewrite N.eqb_refl in Ec.
               ++ apply IH. by left.
            -- apply IH. by right. }
    intros Hc. apply Hpiece.
    destruct (trimStart_split piece) as (w1 & _ & E1).
    destruct (trimEnd_split (trimStart piece)) as (w2 & _ & E2).
    rewrite E1, E2. fold (trim piece). set_solver.
Qed.

Lemma TURN_URLS_entries_witness :
  js "turn:b" ≠ [] ∧ trim (js "turn:b") = js "turn:b" ∧ 44%N ∉ js "turn:b".
Proof.
  apply (TURN_URLS_entries (Some (js " turn:a:1 , turn:b,, "))).
  vm_compute. right. left.
Defined.

(** ** The rate limit over any interval

    The limiter counts in fixed windows, so an interval of 2000 ms can
    overlap two of them.  On a clock that does not run backwards the end
    of one window and the whole of the next fit into the interval, and not
    more: at most 39 frames of a session are dispatched in it. *)

(** The limiter alone, fed with arrival times. *)
Fixpoint limiter (rl : option RateWindow) (ts : list Z) : list (Z * bool) :=
  match ts with
  | [] => []
  | x :: ts => (x, (rateLimit rl x).2) :: limiter (Some (rateLimit rl x).1) ts
  end.

Lemma serve_limiter cfg userId frames :
  ∀ h user, users h !! userId = Some user →
    serve cfg h userId frames = limiter (User._rl user) ((λ f, now f.1) <$> frames).
Proof.
  induction frames as [|[env data] frames IH]; intros h user Hu; [done|].
  simpl. unfold dispatched at 1. rewrite Hu. f_equal.
  destruct (onMessage_rl cfg env h userId user data Hu) as (user' & Hu' & Hrl').
  by rewrite (IH _ _ Hu'), Hrl'.
Qed.

Lemma serve_absent cfg userId frames :
  ∀ h a b, users h !! userId = None →
    dispatched_between a b (serve cfg h userId frames) = 0.
Proof.
  induction frames as [|[env data] frames IH]; intros h a b Hu; [done|].
  assert (dispatched h userId (now env) = false) as Hd
    by (unfold dispatched; by rewrite Hu).
  assert ((onMessage cfg env h userId data).1 = h) as Hh
    by (unfold onMessage; by rewrite Hu).
  simpl. rewrite Hd, Hh. unfold dispatched_between. rewrite filter_cons.
  rewrite decide_False by (by intros [? _]). by apply IH.
Qed.

Lemma nondecreasing_cons a ts :
  nondecreasing (a :: ts) = true →
  Forall (λ x, (a ≤ x)%Z) ts ∧ nondecreasing ts = true.
Proof.
  revert a. induction ts as [|b ts IH]; intros a; [by split|].
  cbn [nondecreasing]. intros [Hab Hs]%andb_true_iff. apply Z.leb_le in Hab.
  split; [|done]. destruct (IH _ Hs) as [Hall _].
  constructor; [done|]. eapply Forall_impl; [exact Hall|]. simpl. lia.
Qed.

Lemma rateLimit_cases rl x :
  (rateLimit rl x = ({| windowStart := x; count := 1 |}, true)
   ∧ (rl = None ∨ ∃ w, rl = Some w ∧ (2000 < x - windowStart w)%Z))
  ∨ ∃ ws c, rl = Some {| windowStart := ws; count := c |} ∧ (x - ws ≤ 2000)%Z
            ∧ rateLimit rl x
              = ({| windowStart := ws; count := c + 1 |}, bool_decide (c < 20)%Z).
Proof.
  destruct rl as [[ws c]|].
  - destruct (decide (2000 < x - ws)%Z) as [Hlate|Hin].
    + left. split; [|eauto]. apply rateLimit_opens. eauto.
    + right. exists ws, c. split_and!; [done|lia|]. apply rateLimit_within. lia.
  - left. split; [|by left]. apply rateLimit_opens. by left.
Qed.

Lemma rateLimit_count rl x :
  (∀ w, rl = Some w → (1 ≤ count w)%Z) → (1 ≤ count (rateLimit rl x).1)%Z.
Proof.
  intros Hc. destruct (rateLimit_cases rl x) as [[E _]|(ws & c & -> & _ & E)];
    rewrite E; simpl; [lia|].
  specialize (Hc _ eq_refl). simpl in Hc. lia.
Qed.

Section interval.
Variable t : Z.

Definition passes (rl : option RateWindow) (ts : list Z) : nat :=
  dispatched_between t (t + 2000) (limiter rl ts).

Lemma passes_nil rl : passes rl [] = 0.
Proof. reflexivity. Qed.

Lemma passes_cons rl x ts :
  passes rl (x :: ts)
  = (if decide ((rateLimit rl x).2 = true ∧ (t ≤ x < t + 2000)%Z) then 1 else 0)
    + passes (Some (rateLimit rl x).1) ts.
Proof.
  unfold passes, dispatched_between. simpl. rewrite filter_cons. simpl.
  by destruct (decide _).
Qed.

(** Nothing passes in the interval once it is over. *)
Lemma passes_late rl ts :
  Forall (λ x, (t + 2000 ≤ x)%Z) ts → passes rl ts = 0.
Proof.
  revert rl. induction ts as [|x ts IH]; intros rl Hall; [done|].
  apply Forall_cons in Hall as [Hx Hall]. rewrite passes_cons, IH by done.
  rewrite decide_False by lia. done.
Qed.

(** A window that started in the interval: what is left of its twenty. *)
Lemma passes_window_inside ts :
  ∀ ws c, (t ≤ ws)%Z → nondecreasing ts = true →
    Forall (λ x, (ws ≤ x)%Z) ts →
    passes (Some {| windowStart := ws; count := c |}) ts ≤ Z.to_nat (20 - c).
Proof.
  induction ts as [|x ts IH]; intros ws c Hws Hs Hall; [rewrite passes_nil; lia|].
  apply Forall_cons in Hall as [Hx Hall].
  destruct (nondecreasing_cons _ _ Hs) as [Hafter Hs'].
  rewrite passes_cons.
  destruct (rateLimit_cases (Some {| windowStart := ws; count := c |}) x)
    as [[E Hopen]|(ws' & c' & [= <- <-] & Hin & E)]; rewrite E; simpl.
  - destruct Hopen as [?|(w & [= <-] & Hlate)]; [done|]. simpl in Hlate.
    rewrite decide_False by lia. rewrite passes_late; [lia|].
    eapply Forall_impl; [exact Hafter|]. simpl. lia.
  - specialize (IH ws (c + 1)%Z Hws Hs' Hall).
    destruct (decide _) as [[Hc _]|_]; [|lia].
    apply bool_decide_eq_true in Hc. lia.
Qed.

(** A window that started before the interval, when every frame to come
    is in the interval or after it: what is left of its twenty, and the
    twenty of the next window. *)
Lemma passes_window_before ts :
  ∀ ws c, nondecreasing ts = true → Forall (λ x, (t ≤ x)%Z) ts →
    passes (Some {| windowStart := ws; count := c |}) ts ≤ Z.to_nat (20 - c) + 20.
Proof.
  induction ts as [|x ts IH]; intros ws c Hs Hall; [rewrite passes_nil; lia|].
  apply Forall_cons in Hall as [Hx Hall].
  destruct (nondecreasing_cons _ _ Hs) as [Hafter Hs'].
  rewrite passes_cons.
  destruct (rateLimit_cases (Some {| windowStart := ws; count := c |}) x)
    as [[E Hopen]|(ws' & c' & [= <- <-] & Hin & E)]; rewrite E; simpl.
  - pose proof (passes_window_inside ts x 1%Z Hx Hs' Hafter) as Hrest.
    change (Z.to_nat (20 - 1)) with 19 in Hrest.
    destruct (decide _); lia.
  - specialize (IH ws (c + 1)%Z Hs' Hall).
    destruct (decide _) as [[Hc _]|_]; [|lia].
    apply bool_decide_eq_true in Hc. lia.
Qed.

Lemma passes_39 ts :
  ∀ rl, nondecreasing ts = true →
    (∀ w, rl = Some w → (1 ≤ count w)%Z) →
    passes rl ts ≤ 39.
Proof.
  induction ts as [|x ts IH]; intros rl Hs Hc; [rewrite passes_nil; lia|].
  destruct (nondecreasing_cons _ _ Hs) as [Hafter Hs'].
  destruct (decide (t ≤ x)%Z) as [Hx|Hx].
  - (* every frame is in the interval or after it *)
    destruct rl as [[ws c]|].
    + specialize (Hc _ eq_refl). simpl in Hc.
      pose proof (passes_window_before (x :: ts) ws c Hs) as H.
      assert (Forall (λ y, (t ≤ y)%Z) (x :: ts)) as Hall.
      { constructor; [done|]. eapply Forall_impl; [exact Hafter|]. simpl. lia. }
      specialize (H Hall). lia.
    + rewrite passes_cons, (rateLimit_opens None x) by by left. simpl.
      pose proof (passes_window_inside ts x 1%Z Hx Hs' Hafter) as Hrest.
      change (Z.to_nat (20 - 1)) with 19 in Hrest.
      destruct (decide _); lia.
  - (* a frame before the interval *)
    rewrite passes_cons. rewrite decide_False by lia. cbn [Nat.add].
    apply IH; [done|]. intros w [= <-]. by apply rateLimit_count.
Qed.

End interval.

(** The limiter's count is positive in every window the hub keeps. *)
Definition counts_positive (h : Hub) : Prop :=
  ∀ k u w, users h !! k = Some u → User._rl u = Some w → (1 ≤ count w)%Z.

Lemma counts_positive_keeps h h' :
  counts_positive h → same_view User._rl h h' → counts_positive h'.
Proof.
  intros HQ Hv k u' w Hu' Hw.
  destruct (same_view_lookup_inv _ _ _ _ _ Hv Hu') as (u & Hu & E).
  apply (HQ k u w); [done|congruence].
Qed.

Lemma counts_positive_invariant cfg h : reachable cfg h → counts_positive h.
Proof.
  apply (reachable_invariant cfg counts_positive).
  - intros h0 userId x _ HQ k u' w. unfold counted.
    destruct (users h0 !! userId) as [user|] eqn:Hu; [|apply HQ]. simpl.
    destruct (decide (userId = k)) as [<-|Hne].
    + rewrite lookup_alter_eq, Hu. simpl. intros [= <-]. simpl. intros [= <-].
      apply rateLimit_count. intros w. exact (HQ userId user w Hu).
    + rewrite lookup_alter_ne by done. apply HQ.
  - intros env h0 userId user msg _ HQ _ _. split_and!.
    + destruct (on_pushSubscribe_users cfg h0 userId msg) as (Eu & _ & _).
      intros k u w. rewrite Eu. apply HQ.
    + done.
    + destruct (on_setName_view User._rl cfg env h0 userId user msg) as (Hv & _ & _);
        [done|]. by apply (counts_positive_keeps h0).
    + apply (counts_positive_keeps h0); [done|]. by apply on_callStart_keeps.
    + apply (counts_positive_keeps h0); [done|]. by apply on_callReject_keeps.
    + apply (counts_positive_keeps h0); [done|]. by apply on_callAccept_keeps.
    + apply (counts_positive_keeps h0); [done|]. by apply on_callHangup_keeps.
  - intros env h0 _ HQ _ _ k u w. simpl.
    destruct (decide (makeId env = k)) as [<-|Hne].
    + rewrite lookup_insert_eq. by intros [= <-].
    + rewrite lookup_insert_ne by done. apply HQ.
  - intros env h0 userId _ HQ. destruct (users h0 !! userId) as [u|] eqn:Hu;
      [|unfold closeUser; by rewrite Hu].
    destruct (closeUser_tables cfg env h0 userId u Hu) as (Eu & _ & _).
    intros k u' w. rewrite Eu. intros [_ Hk]%lookup_delete_Some. revert Hk.
    assert (same_view User._rl h0
              (if truthyO (User.roomId u) then (leaveRoom h0 userId).1 else h0)) as Hv.
    { destruct (truthyO _); [|apply same_view_refl].
      by destruct (leaveRoom_keeps User._rl (λ _ _, eq_refl) h0 userId). }
    intros Hk Hw. destruct (same_view_lookup_inv _ _ _ _ _ Hv Hk) as (u0 & Hu0 & E).
    apply (HQ k u0 w); [done|congruence].
  - intros h0 userId state _ HQ. apply (counts_positive_keeps h0); [done|].
    by apply same_view_alter.
  - intros h0 userId _ HQ. exact HQ.
  - intros k u w. simpl. by rewrite lookup_empty.
Qed.

(** X23.  The rate limit over any interval of 2000 ms.  From any reachable
    state and for frames of a session whose arrival times do not decrease,
    at most 39 of the frames that arrive in an interval of 2000 ms are
    dispatched, wherever the interval starts: what is left of the twenty of
    a window that began before it, and the twenty of the next.  ([burst]
    reaches 39.) *)
Theorem at_most_39_in_any_2000ms cfg h userId frames t :
  reachable cfg h →
  nondecreasing ((λ f, now f.1) <$> frames) = true →
  dispatched_between t (t + 2000) (serve cfg h userId frames) ≤ 39.
Proof.
  intros Hr Hs. destruct (users h !! userId) as [user|] eqn:Hu.
  - rewrite (serve_limiter cfg userId frames h user Hu).
    apply passes_39; [done|]. intros w Hw.
    by apply (counts_positive_invariant cfg h Hr userId user w).
  - rewrite (serve_absent cfg userId frames h _ _ Hu). lia.
Qed.

Lemma at_most_39_in_any_2000ms_witness :
  dispatched_between 1000 (1000 + 2000)
    (serve Example.cfg (after Example.cfg [Example.connect Example.idA])
       Example.idA burst) ≤ 39.
Proof.
  apply (at_most_39_in_any_2000ms Example.cfg
           (after Example.cfg [Example.connect Example.idA]) Example.idA burst 1000).
  - apply reachable_after.
  - reflexivity.
Defined.

(** ** Leaving a room that goes on *)

Lemma leaveRoom_notifies h userId user rid room m u :
  wf_names h →
  users h !! userId = Some user → User.roomId user = Some rid →
  truthy rid = true → rooms h !! rid = Some room →
  m ∈ Room.members room → m ≠ userId → users h !! m = Some u →
  User.open u = true →
  Send m (roomPeerLeft rid userId) ∈ (leaveRoom h userId).2.
Proof.
  intros Hwf Hu Hrid Ht Hroom Hin Hne Hm Ho. unfold leaveRoom.
  rewrite Hu, Hrid, Ht, Hroom. simpl. rewrite (wf_key h Hwf _ _ Hu).
  assert (Send m (roomPeerLeft rid userId)
          ∈ (elements (Room.members room ∖ {[userId]}) ≫= λ memberId,
               match alter (User.set_roomId None) userId (users h) !! memberId with
               | Some m0 => send m0 (roomPeerLeft rid userId)
               | None => []
               end)) as Hsent.
  { apply list_elem_of_bind. exists m. split.
    - rewrite lookup_alter_ne, Hm by done.
      rewrite (send_open u _ Ho), (wf_key h Hwf _ _ Hm). by left.
    - apply elem_of_elements. set_solver. }
  case_decide; [|done].
  destruct (head _) as [lastId|]; [destruct (truthy lastId); [destruct (_ !! lastId)|]|];
    simpl; apply elem_of_app; by left.
Qed.

Lemma leaveRoom_others_stay h userId user rid room m :
  wf_names h →
  users h !! userId = Some user → User.roomId user = Some rid →
  truthy rid = true → rooms h !! rid = Some room →
  ¬ size (Room.members room ∖ {[userId]}) ≤ 1 → m ≠ userId →
  users (leaveRoom h userId).1 !! m = users h !! m.
Proof.
  intros Hwf Hu Hrid Ht Hroom Hsize Hne. unfold leaveRoom.
  rewrite Hu, Hrid, Ht, Hroom. simpl. rewrite (wf_key h Hwf _ _ Hu).
  rewrite decide_False by done. simpl. by rewrite lookup_alter_ne.
Qed.

(** X24.  When a session leaves its room (by [callHangup], by a
    [callReject] for the room it is in, or by disconnecting) and two
    members or more remain, the room stays with the remaining members,
    their sessions are as before, and each of them is sent
    [{type:'roomPeerLeft', roomId, peerId}] (its socket being open). *)
Theorem leaving_a_room_that_goes_on cfg h userId user rid room e :
  reachable cfg h →
  users h !! userId = Some user → User.roomId user = Some rid →
  rooms h !! rid = Some room →
  leaving h userId user e →
  1 < size (Room.members room ∖ {[userId]}) →
  rooms (step cfg h e).1 !! rid
  = Some (Room.set_members (Room.members room ∖ {[userId]}) room)
  ∧ ∀ m u, m ∈ Room.members room → m ≠ userId → users h !! m = Some u →
           users (step cfg h e).1 !! m = Some u
           ∧ (User.open u = true →
              Send m (roomPeerLeft rid userId) ∈ (step cfg h e).2).
Proof.
  intros Hreach Hu Hrid Hroom Hleave Hsize.
  pose proof (reachable_wf _ _ Hreach) as [Hn Hr].
  pose proof (wf_roomId h Hr _ _ _ Hu Hrid) as Ht.
  destruct (leaving_step cfg h userId user rid e Hu Hrid Ht Hleave)
    as (h0 & Hh0 & Erooms & Eusers & Hout).
  assert (wf_names h0 ∧ rooms h0 = rooms h
          ∧ (∃ user0, users h0 !! userId = Some user0
                      ∧ User.roomId user0 = Some rid)
          ∧ ∀ m, m ≠ userId → users h0 !! m = users h !! m) as (Hn0 & Er0 & Hu0 & Hm0).
  { destruct Hh0 as [->|[t ->]].
    - split_and!; eauto.
    - split_and!.
      + by apply counted_wf.
      + apply counted_rooms.
      + exists (ticked user t). split; [by apply counted_lookup|done].
      + intros m Hne. by apply counted_lookup_ne. }
  destruct Hu0 as (user0 & Hu0 & Hrid0). rewrite <- Er0 in Hroom.
  assert (¬ size (Room.members room ∖ {[userId]}) ≤ 1) as Hsize' by lia.
  split.
  - rewrite Erooms. by apply (leaveRoom_remains h0 userId user0).
  - intros m u Hin Hne Hm. rewrite <- Hm0 in Hm by done. split.
    + rewrite Eusers by done.
      by rewrite (leaveRoom_others_stay h0 userId user0 rid room).
    + intros Ho. apply Hout.
      by apply (leaveRoom_notifies h0 userId user0 rid room m u).
Qed.

Definition conference : list Event :=
  Example.opening
  ++ [Example.callStart Example.idA Example.idB;
      callAccept Example.idB Example.idA Example.idR;
      Example.callStart Example.idA Example.idC;
      callAccept Example.idC Example.idA Example.idR].

(** Alice, Bob and Carol talk; Carol hangs up; Alice and Bob go on. *)
Lemma leaving_a_room_that_goes_on_witness :
  let r := step Example.cfg (after Example.cfg conference) (callHangup Example.idC) in
  rooms r.1 !! Example.idR
  = Some (Room.mk Example.idR
            (({[Example.idA]} ∪ {[Example.idB]} ∪ {[Example.idA]} ∪ {[Example.idC]})
               ∖ {[Example.idC]}))
  ∧ Send Example.idB (roomPeerLeft Example.idR Example.idC) ∈ r.2.
Proof.
  destruct (leaving_a_room_that_goes_on Example.cfg (after Example.cfg conference)
              Example.idC (Example.carol (Some Example.idR) 2) Example.idR
              (Room.mk Example.idR
                 ({[Example.idA]} ∪ {[Example.idB]} ∪ {[Example.idA]} ∪ {[Example.idC]}))
              (callHangup Example.idC)) as [Hroom Hothers].
  - apply reachable_after.
  - vm_compute. reflexivity.
  - reflexivity.
  - vm_compute. reflexivity.
  - vm_compute. split_and!; [reflexivity..|left; reflexivity].
  - vm_compute. lia.
  - split; [exact Hroom|].
    destruct (Hothers Example.idB (Example.bob (Some Example.idR) 2)) as [_ Hsent].
    + vm_compute. reflexivity.
    + js_differ.
    + vm_compute. reflexivity.
    + by apply Hsent.
Defined.

(** ** An invitation that is declined *)

(** Sessions outside the room of the leaving session stay as they are. *)
Lemma leaveRoom_untouched h userId k :
  k ≠ userId →
  (∀ user rid room, users h !! userId = Some user → User.roomId user = Some rid →
                    rooms h !! rid = Some room → k ∉ Room.members room) →
  users (leaveRoom h userId).1 !! k = users h !! k.
Proof.
  intros Hne Hout. unfold leaveRoom.
  destruct (users h !! userId) as [user|] eqn:Hu; [|done].
  destruct (User.roomId user) as [rid|] eqn:Hrid; [|done].
  destruct (truthy rid); simpl; [|done].
  destruct (rooms h !! rid) as [room|] eqn:Hroom; [|simpl; by rewrite lookup_alter_ne].
  specialize (Hout user rid room eq_refl Hrid Hroom).
  case_decide; [|simpl; by rewrite lookup_alter_ne].
  destruct (head _) as [lastId|] eqn:Hhead; [|simpl; by rewrite lookup_alter_ne].
  destruct (truthy lastId); [|simpl; by rewrite lookup_alter_ne].
  destruct (_ !! lastId); simpl; [|by rewrite lookup_alter_ne].
  assert (lastId ≠ k) as Hlast.
  { intros ->. apply Hout. apply head_Some_elem_of, elem_of_elements in Hhead.
    by apply elem_of_difference in Hhead as [? _]. }
  by rewrite !lookup_alter_ne.
Qed.

(** The state after a [callStart] that went through. *)
Lemma callStart_state cfg env h A a msg B b :
  wf_names h →
  users h !! A = Some a → dispatched h A (now env) = true →
  truthyO (User.name a) = true →
  field msg "type" = Some (JStr (js "callStart")) →
  stringOrNull (field msg "to") = Some B →
  users h !! B = Some b → B ≠ A →
  truthyO (User.name b) = true → truthyO (User.roomId b) = false →
  let rid := default (makeId env) (User.roomId a) in
  let h' := (onMessage cfg env h A (Some msg)).1 in
  users h' !! A = Some (User.set_roomId (Some rid) (ticked a (now env)))
  ∧ users h' !! B = Some (User.set_roomId (Some rid) b)
  ∧ (∀ k, k ≠ A → k ≠ B → users h' !! k = users h !! k)
  ∧ rooms h' !! rid
    = Some (Room.mk (Room.id (default (Room.mk rid ∅) (rooms h !! rid)))
              (Room.members (default (Room.mk rid ∅) (rooms h !! rid))
                 ∪ {[A]} ∪ {[B]}))
  ∧ (∀ r, r ≠ rid → rooms h' !! r = rooms h !! r).
Proof.
  intros Hwf Hu Hok Hn Hty Hto Hc Hne Hcn Hfree rid h'.
  pose proof (wf_key h Hwf _ _ Hu) as Eid.
  pose proof (wf_key h Hwf _ _ Hc) as Eto.
  pose proof (wf_id h Hwf _ _ Hc) as Ht.
  assert (users (counted h A (now env)) !! B = Some b) as Hc'
    by by rewrite counted_lookup_ne.
  unfold h'.
  rewrite (onMessage_dispatch _ _ _ _ _ _ _ Hu Hok Hty), dispatch_callStart by done.
  rewrite (on_callStart_rings cfg env _ A _ msg B b Hto Ht Hc' Hne Hcn Hfree).
  change (User.roomId (ticked a (now env))) with (User.roomId a).
  change (User.id (ticked a (now env))) with (User.id a).
  fold rid. rewrite Eid, Eto. cbn [fst].
  split_and!.
  - cbn [users with_users with_rooms]. rewrite ensureRoom_users.
    rewrite lookup_alter_ne by done.
    by rewrite lookup_alter_eq, (counted_lookup _ _ _ _ Hu).
  - cbn [users with_users with_rooms]. rewrite ensureRoom_users.
    by rewrite lookup_alter_eq, lookup_alter_ne, Hc'.
  - intros k HkA HkB. cbn [users with_users with_rooms]. rewrite ensureRoom_users.
    by rewrite !lookup_alter_ne, counted_lookup_ne.
  - cbn [rooms with_users with_rooms].
    by rewrite lookup_alter_eq, ensureRoom_lookup, counted_rooms.
  - intros r Hr. cbn [rooms with_users with_rooms].
    by rewrite lookup_alter_ne, ensureRoom_lookup_ne, counted_rooms.
Qed.

(** X25.  An invitation that is declined leaves no trace.  A session [A]
    outside any room calls [B], the hub opens the room [makeId()] for the
    two, and [B] answers with [callReject] (naming that room or none): the
    room table is as before the call, every session has the [roomId] it had
    before, and [A] is sent [callEnded] with reason [alone] and, when the
    rejection names [A] in [from], [callRejected] (its socket being
    open). *)
Theorem declined_invitation_leaves_no_trace
    cfg h env1 env2 A a B b msg1 msg2 :
  reachable cfg h →
  users h !! A = Some a → users h !! B = Some b → B ≠ A →
  truthyO (User.name a) = true → truthyO (User.name b) = true →
  User.roomId a = None → User.roomId b = None →
  isId (makeId env1) = true → rooms h !! makeId env1 = None →
  dispatched h A (now env1) = true →
  field msg1 "type" = Some (JStr (js "callStart")) →
  stringOrNull (field msg1 "to") = Some B →
  let r1 := onMessage cfg env1 h A (Some msg1) in
  dispatched r1.1 B (now env2) = true →
  field msg2 "type" = Some (JStr (js "callReject")) →
  (∀ s, field msg2 "roomId" = Some (JStr s) → s = makeId env1) →
  let r2 := onMessage cfg env2 r1.1 B (Some msg2) in
  rooms r2.1 = rooms h
  ∧ (∀ k, User.roomId <$> users r2.1 !! k = User.roomId <$> users h !! k)
  ∧ (User.open a = true →
     Send A callEnded_alone ∈ r2.2
     ∧ (stringOrNull (field msg2 "from") = Some A →
        Send A callRejected_rejected ∈ r2.2)).
Proof.
  intros Hr HA HB Hne HnA HnB HrA HrB Hid Hfresh Hok1 Hty1 Hto r1 Hok2 Hty2 Hrid2 r2.
  destruct (reachable_wf _ _ Hr) as [Hwf Hwr].
  assert (truthyO (User.roomId b) = false) as HfreeB by by rewrite HrB.
  destruct (callStart_state cfg env1 h A a msg1 B b Hwf HA Hok1 HnA Hty1 Hto HB Hne
              HnB HfreeB) as (HA1 & HB1 & Hothers1 & Hroom1 & Hrooms1).
  fold r1 in HA1, HB1, Hothers1, Hroom1, Hrooms1.
  rewrite HrA in HA1, HB1, Hroom1, Hrooms1. cbn [default from_option id] in *.
  rewrite Hfresh in Hroom1. cbn [default from_option id Room.id Room.members] in Hroom1.
  set (rid := makeId env1) in *.
  pose proof (isId_truthy _ Hid) as Htr.
  assert (wf r1.1) as [Hwf1 _].
  { apply (reachable_wf cfg).
    apply (reachable_step cfg h (Message A env1 (Some msg1)) Hr).
    unfold possible. simpl. unfold rid in Hid. by rewrite Hid. }
  set (b1 := User.set_roomId (Some rid) b) in *.
  set (a1 := User.set_roomId (Some rid) (ticked a (now env1))) in *.
  set (h3 := counted r1.1 B (now env2)).
  assert (wf_names h3) as Hwf3.
  { unfold h3, counted. rewrite HB1.
    apply (wf_names_keeps r1.1); [done|]. by apply keeps_alter. }
  assert (users h3 !! B = Some (ticked b1 (now env2))) as HB3
    by by apply counted_lookup.
  assert (users h3 !! A = Some a1) as HA3
    by (unfold h3; by rewrite counted_lookup_ne).
  assert (rooms h3 = rooms r1.1) as Er3 by apply counted_rooms.
  assert (rooms h3 !! rid = Some (Room.mk rid (∅ ∪ {[A]} ∪ {[B]}))) as Hroom3
    by by rewrite Er3.
  assert (roomIdOf msg2 (ticked b1 (now env2)) = Some rid) as Hrid.
  { unfold roomIdOf. destruct (field msg2 "roomId") as [[| | |s| |]|] eqn:E; try done.
    by rewrite (Hrid2 s). }
  assert (size ((∅ ∪ {[A]} ∪ {[B]} : gset jsstring) ∖ {[B]}) ≤ 1) as Hsize.
  { etrans; [apply (subseteq_size _ ({[A]} : gset jsstring))|by rewrite size_singleton].
    intros x. rewrite elem_of_difference, !elem_of_union, !elem_of_singleton,
      elem_of_empty. tauto. }
  destruct (leaveRoom_dissolves h3 B (ticked b1 (now env2)) rid _ Hwf3 HB3 eq_refl Htr
              Hroom3 Hsize) as [Hgone Hlast].
  destruct (Hlast A a1) as [(a4 & HA4 & HrA4) Hended]; [|done|done|].
  { apply elem_of_union. left. apply elem_of_union. right. by apply elem_of_singleton. }
  destruct (leaveRoom_self h3 B _ rid HB3 eq_refl Htr) as (b4 & HB4 & HrB4).
  assert (r2 = ((leaveRoom h3 B).1,
                match lookupFrom h3 (stringOrNull (field msg2 "from")) with
                | Some c => send c callRejected_rejected
                | None => []
                end ++ (leaveRoom h3 B).2
                ++ broadcastPresence cfg (leaveRoom h3 B).1)) as ->.
  { unfold r2. rewrite (onMessage_dispatch _ _ _ _ _ _ _ HB1 Hok2 Hty2).
    rewrite dispatch_callReject by done. fold h3. unfold on_callReject.
    rewrite Hrid. cbn [truthyO]. rewrite Htr. cbn [andb].
    rewrite bool_decide_eq_true_2 by done.
    by destruct (leaveRoom h3 B). }
  cbn [fst snd]. split_and!.
  - apply map_eq. intros r. destruct (decide (r = rid)) as [->|Hr'].
    + by rewrite Hgone, Hfresh.
    + rewrite leaveRoom_rooms_ne, Er3, Hrooms1 by (try done; intros u; rewrite HB3;
        intros [= <-]; simpl; congruence). done.
  - intros k.
    destruct (decide (k = A)) as [->|HkA]; [rewrite HA4, HA; simpl; by rewrite HrA4, HrA|].
    destruct (decide (k = B)) as [->|HkB]; [rewrite HB4, HB; simpl; by rewrite HrB4, HrB|].
    rewrite leaveRoom_untouched.
    + unfold h3. by rewrite counted_lookup_ne, Hothers1.
    + done.
    + intros u r room. rewrite HB3. intros [= <-]. simpl. intros [= <-].
      rewrite Hroom3. intros [= <-]. simpl.
      rewrite !elem_of_union, !elem_of_singleton, elem_of_empty. tauto.
  - intros Ho. split.
    + apply elem_of_app. right. apply elem_of_app. left. by apply Hended.
    + intros ->. apply elem_of_app. left. unfold lookupFrom.
      rewrite (wf_id h Hwf _ _ HA), HA3.
      rewrite (send_open a1 _ Ho). rewrite (wf_key h Hwf _ _ HA : User.id a1 = A).
      by left.
Qed.

(** Alice calls Bob, Bob declines. *)
Lemma declined_invitation_leaves_no_trace_witness :
  let h := after Example.cfg Example.opening in
  let r1 := onMessage Example.cfg (Example.at_ 0) h Example.idA
              (Example.frame [("type", Example.str "callStart"); ("to", JStr Example.idB)]) in
  let r2 := onMessage Example.cfg (Example.at_ 1) r1.1 Example.idB
              (Some (rejectFrom Example.idA)) in
  rooms r2.1 = rooms h ∧ Send Example.idA callEnded_alone ∈ r2.2.
Proof.
  destruct (declined_invitation_leaves_no_trace Example.cfg
              (after Example.cfg Example.opening) (Example.at_ 0) (Example.at_ 1)
              Example.idA (Example.alice None 1) Example.idB (Example.bob None 1)
              (JObj [(js "type", Example.str "callStart"); (js "to", JStr Example.idB)])
              (rejectFrom Example.idA)) as (H1 & _ & H3).
  - apply reachable_after.
  - vm_compute. reflexivity.
  - vm_compute. reflexivity.
  - js_differ.
  - reflexivity.
  - reflexivity.
  - reflexivity.
  - reflexivity.
  - reflexivity.
  - vm_compute. reflexivity.
  - reflexivity.
  - reflexivity.
  - reflexivity.
  - vm_compute. reflexivity.
  - reflexivity.
  - intros s. vm_compute. discriminate.
  - split; [exact H1|]. by apply H3.
Defined.

(** ** Who is sent chat frames *)

(** A list of effects without chat frames. *)
Definition quiet (l : list Effect) : Prop := ∀ to m, Send to (chat m) ∉ l.

(** The chat frames of a list of effects go to named sessions of [h]. *)
Definition named_only (h : Hub) (l : list Effect) : Prop :=
  ∀ to m, Send to (chat m) ∈ l →
          ∃ u, users h !! to = Some u ∧ truthyO (User.name u) = true.

Lemma quiet_named h l : quiet l → named_only h l.
Proof. intros Hq to m Hin. by destruct (Hq to m). Qed.

Lemma quiet_nil : quiet [].
Proof. intros to m. apply not_elem_of_nil. Qed.

Lemma quiet_app l1 l2 : quiet l1 → quiet l2 → quiet (l1 ++ l2).
Proof. intros H1 H2 to m [?|?]%elem_of_app; [by eapply H1|by eapply H2]. Qed.

Lemma named_only_app h l1 l2 :
  named_only h l1 → named_only h l2 → named_only h (l1 ++ l2).
Proof. intros H1 H2 to m [?|?]%elem_of_app; eauto. Qed.

Lemma quiet_bind {A} (f : A → list Effect) (l : list A) :
  (∀ x, quiet (f x)) → quiet (l ≫= f).
Proof. intros Hf to m (x & Hin & _)%list_elem_of_bind. by eapply Hf. Qed.

Lemma quiet_send u f : (∀ m, f ≠ chat m) → quiet (send u f).
Proof.
  intros Hf to m. unfold send. destruct (negb _); [apply not_elem_of_nil|].
  intros [= _ E]%list_elem_of_singleton. by eapply Hf.
Qed.

Lemma quiet_presence cfg h : quiet (broadcastPresence cfg h).
Proof.
  unfold broadcastPresence. apply quiet_bind. intros u to m.
  destruct (User.open u); [|apply not_elem_of_nil].
  by intros [= _ E]%list_elem_of_singleton.
Qed.

Lemma quiet_push cfg h userId payload : quiet (sendPushToUser cfg h userId payload).
Proof.
  intros to m. unfold sendPushToUser. destruct (negb _); [apply not_elem_of_nil|].
  destruct (_ !! userId); [|apply not_elem_of_nil].
  by intros ?%list_elem_of_singleton.
Qed.

Lemma quiet_leaveRoom h userId : quiet (leaveRoom h userId).2.
Proof.
  unfold leaveRoom.
  destruct (users h !! userId) as [user|]; [|apply quiet_nil].
  destruct (User.roomId user) as [rid|]; [|apply quiet_nil].
  destruct (truthy rid); simpl; [|apply quiet_nil].
  destruct (rooms h !! rid) as [room|]; [|apply quiet_nil].
  assert (∀ users' : gmap jsstring User.t, quiet (elements (Room.members room ∖ {[User.id user]}) ≫= λ memberId,
                             match users' !! memberId with
                             | Some m => send m (roomPeerLeft rid (User.id user))
                             | None => []
                             end)) as Hnotices.
  { intros users'. apply quiet_bind. intros x.
    destruct (users' !! x); [by apply quiet_send|apply quiet_nil]. }
  case_decide; [|apply Hnotices].
  destruct (head _) as [lastId|]; [destruct (truthy lastId); [destruct (_ !! lastId)|]|];
    simpl; apply quiet_app; try apply Hnotices; try apply quiet_nil.
  by apply quiet_send.
Qed.

Lemma named_only_system env h text :
  wf_names h → named_only h (broadcastSystem env h text).
Proof.
  intros Hwf to m (k & u & Hk & Hn & _ & [= -> _])%elem_of_broadcastSystem.
  rewrite (wf_key h Hwf _ _ Hk). eauto.
Qed.

Lemma named_only_broadcastChat cfg env h fromUser text :
  wf_names h → named_only h (broadcastChat cfg env h fromUser text).
Proof.
  intros Hwf to m. unfold broadcastChat. rewrite list_elem_of_bind.
  intros (u & He & (k & Hk)%elem_of_values).
  destruct (truthyO (User.name u)) eqn:Hn; simpl in He; [|by apply elem_of_nil in He].
  apply elem_of_app in He as [He|He].
  - destruct (User.open u); [|by apply elem_of_nil in He].
    apply list_elem_of_singleton in He. injection He as -> _.
    rewrite (wf_key h Hwf _ _ Hk). eauto.
  - case_decide; [|by apply elem_of_nil in He]. by apply quiet_push in He.
Qed.

Lemma on_chatSend_named cfg env h userId user msg :
  wf_names h → users h !! userId = Some user → truthyO (User.name user) = true →
  named_only h (on_chatSend cfg env h user msg).2.
Proof.
  intros Hwf Hu Hn. unfold on_chatSend.
  destruct (safeChatText _) as [raw|]; [|by apply quiet_named, quiet_send].
  destruct (truthy raw); simpl; [|by apply quiet_named, quiet_send].
  destruct (if startsWith raw _ then _ else _) as [[toName body]|];
    [|by apply named_only_broadcastChat].
  unfold lookupFrom. destruct (nameToId h !! toName) as [toId|];
    [|by apply quiet_named, quiet_send].
  destruct (truthy toId); [|by apply quiet_named, quiet_send].
  destruct (users h !! toId) as [toUser|] eqn:Hto; [|by apply quiet_named, quiet_send].
  destruct (truthyO (User.name toUser)) eqn:Htn; simpl;
    [|by apply quiet_named, quiet_send].
  case_decide; [by apply quiet_named, quiet_send|].
  unfold sendPrivateChat. intros to m [He|He]%elem_of_app.
  - destruct (User.open user); [|by apply elem_of_nil in He].
    apply list_elem_of_singleton in He. injection He as -> _.
    rewrite (wf_key h Hwf _ _ Hu). eauto.
  - apply elem_of_app in He as [He|He]; [|by apply quiet_push in He].
    destruct (User.open toUser); [|by apply elem_of_nil in He].
    apply list_elem_of_singleton in He. injection He as -> _.
    rewrite (wf_key h Hwf _ _ Hto). eauto.
Qed.

Lemma on_setName_named cfg env h userId user msg :
  wf_names h → users h !! userId = Some user →
  named_only (on_setName cfg env h userId user msg).1
    (on_setName cfg env h userId user msg).2.
Proof.
  intros Hwf Hu. pose proof (on_setName_wf_names cfg env h userId user msg Hwf Hu) as Hwf'.
  revert Hwf'. unfold on_setName.
  destruct (safeName _) as [name|]; [|intros _; by apply quiet_named, quiet_send].
  destruct (truthy name); simpl; [|intros _; by apply quiet_named, quiet_send].
  destruct (match nameToId h !! name with Some _ => _ | None => _ end);
    [intros _; by apply quiet_named, quiet_send|].
  cbn [fst snd]. intros Hwf'. apply named_only_app; [by apply quiet_named, quiet_send|].
  apply named_only_app; [by apply named_only_system|].
  apply quiet_named, quiet_presence.
Qed.

Lemma on_callStart_quiet cfg env h userId user msg :
  quiet (on_callStart cfg env h userId user msg).2.
Proof.
  unfold on_callStart.
  destruct (stringOrNull _) as [to|]; [|by apply quiet_send].
  destruct (truthy to); simpl; [|by apply quiet_send].
  destruct (users h !! to) as [callee|]; [|by apply quiet_send].
  case_decide; [by apply quiet_send|].
  destruct (truthyO (User.name callee)); simpl; [|by apply quiet_send].
  destruct (truthyO (User.roomId callee)); simpl; [by apply quiet_send|].
  repeat apply quiet_app; try (by apply quiet_send).
  - apply quiet_push.
  - apply quiet_presence.
Qed.

Lemma on_callReject_quiet cfg h userId user msg :
  quiet (on_callReject cfg h userId user msg).2.
Proof.
  unfold on_callReject.
  assert (quiet match lookupFrom h (stringOrNull (field msg "from")) with
                | Some c => send c callRejected_rejected
                | None => []
                end) as Hrej.
  { destruct (lookupFrom _ _); [by apply quiet_send|apply quiet_nil]. }
  destruct (_ && _).
  - pose proof (quiet_leaveRoom h userId) as Hl.
    destruct (leaveRoom h userId) as [h' out]. simpl in *.
    apply quiet_app; [done|]. apply quiet_app; [done|apply quiet_presence].
  - simpl. apply quiet_app; [done|]. apply quiet_presence.
Qed.

Lemma on_callAccept_quiet cfg h userId user msg :
  quiet (on_callAccept cfg h userId user msg).2.
Proof.
  unfold on_callAccept, clearRoomId.
  destruct (lookupFrom _ _); [|apply quiet_presence].
  destruct (_ || _); [apply quiet_presence|].
  destruct (getRoom _ _); [|apply quiet_presence].
  destruct (roomIdOf _ _); [|apply quiet_presence].
  simpl. apply quiet_app; [|by apply quiet_send].
  apply quiet_bind. intros x. case_decide; [apply quiet_nil|].
  destruct (users h !! x); [by apply quiet_send|apply quiet_nil].
Qed.

Lemma on_signal_quiet h user msg : quiet (on_signal h user msg).2.
Proof.
  unfold on_signal. destruct (stringOrNull _) as [to|]; [|apply quiet_nil].
  destruct (truthy to); simpl; [|apply quiet_nil].
  destruct (users h !! to); [|apply quiet_nil].
  destruct (_ || _); [apply quiet_nil|by apply quiet_send].
Qed.

Lemma on_callHangup_quiet cfg h userId : quiet (on_callHangup cfg h userId).2.
Proof.
  unfold on_callHangup. pose proof (quiet_leaveRoom h userId) as Hl.
  destruct (leaveRoom h userId) as [h' out]. simpl in *.
  apply quiet_app; [done|apply quiet_presence].
Qed.

Lemma dispatch_named cfg env h userId user msg type :
  wf_names h → users h !! userId = Some user →
  named_only (dispatch cfg env h userId user msg type).1
    (dispatch cfg env h userId user msg type).2.
Proof.
  intros Hwf Hu. unfold dispatch.
  destruct (decide (type = js "pushSubscribe")).
  { apply quiet_named. unfold on_pushSubscribe. destruct (negb _); [apply quiet_nil|].
    destruct (field msg _) as [sub|]; [|apply quiet_nil].
    destruct (isObject _); apply quiet_nil. }
  destruct (decide (type = js "pushUnsubscribe")); [apply quiet_named, quiet_nil|].
  destruct (decide (type = js "setName")); [by apply on_setName_named|].
  destruct (truthyO (User.name user)) eqn:Hn; simpl; [|by apply quiet_named, quiet_send].
  destruct (decide (type = js "callStart")); [apply quiet_named, on_callStart_quiet|].
  destruct (decide (type = js "callReject")); [apply quiet_named, on_callReject_quiet|].
  destruct (decide (type = js "callAccept")); [apply quiet_named, on_callAccept_quiet|].
  destruct (decide (type = js "signal")); [apply quiet_named, on_signal_quiet|].
  destruct (decide (type = js "callHangup")); [apply quiet_named, on_callHangup_quiet|].
  destruct (decide (type = js "chatSend")).
  { rewrite on_chatSend_state. by apply (on_chatSend_named cfg env h userId). }
  by apply quiet_named, quiet_send.
Qed.

Lemma closeUser_named cfg env h userId :
  wf_names h →
  named_only (closeUser cfg env h userId).1 (closeUser cfg env h userId).2.
Proof.
  intros Hwf. pose proof (closeUser_wf_names cfg env h userId Hwf) as Hwf'.
  revert Hwf'. unfold closeUser.
  destruct (users h !! userId) as [u|]; [|intros _; apply quiet_named, quiet_nil].
  destruct (truthyO (User.roomId u));
    [pose proof (quiet_leaveRoom h userId) as Hq;
     destruct (leaveRoom h userId) as [h1 notices]; simpl in Hq
    |pose proof quiet_nil as Hq];
    cbn [fst snd];
    (destruct (User.name u) as [n|]; [destruct (truthy n); cbn [andb]|]);
    intros Hwf'; (apply named_only_app; [by apply quiet_named|]);
    (apply named_only_app;
     [first [by apply named_only_system|apply quiet_named, quiet_nil]
     |apply quiet_named, quiet_presence]).
Qed.

(** X26.  Chat stays among the named: whatever event the hub serves in a
    reachable state, every chat frame it sends (a public message, a
    private message or a System notice) goes to a session that has a name
    in the resulting state; a connection that has not set a name is sent no
    chat. *)
Theorem chat_frames_reach_named_sessions_only cfg h ev to m :
  reachable cfg h → possible h ev = true →
  Send to (chat m) ∈ (step cfg h ev).2 →
  ∃ u, users (step cfg h ev).1 !! to = Some u ∧ truthyO (User.name u) = true.
Proof.
  intros Hr Hp. destruct (reachable_wf _ _ Hr) as [Hwf _].
  revert to m. fold (named_only (step cfg h ev).1 (step cfg h ev).2).
  destruct ev as [env|userId env data|userId env|userId state|userId]; cbn [step].
  - apply quiet_named. by apply quiet_send.
  - unfold onMessage. destruct (users h !! userId) as [user|] eqn:Hu;
      [|apply quiet_named, quiet_nil].
    destruct (dispatched _ _ _); simpl; [|by apply quiet_named, quiet_send].
    destruct data as [msg|]; [|by apply quiet_named, quiet_send].
    destruct (if falsy msg then _ else _) as [type|];
      [|by apply quiet_named, quiet_send].
    apply dispatch_named.
    + apply (wf_names_keeps h); [done|]. by apply counted_keeps.
    + by apply counted_lookup.
  - by apply closeUser_named.
  - apply quiet_named, quiet_nil.
  - apply quiet_named, quiet_nil.
Qed.

(** Alice's public message reaches Bob, who has a name. *)
Lemma chat_frames_reach_named_sessions_only_witness :
  ∃ u, users (step Example.cfg (after Example.cfg Example.opening)
                (Message Example.idA (Example.at_ 3)
                   (Example.frame [("type", Example.str "chatSend");
                                   ("text", Example.str "hello")]))).1
         !! Example.idB = Some u
       ∧ truthyO (User.name u) = true.
Proof.
  apply (chat_frames_reach_named_sessions_only Example.cfg
           (after Example.cfg Example.opening)
           (Message Example.idA (Example.at_ 3)
              (Example.frame [("type", Example.str "chatSend");
                              ("text", Example.str "hello")]))
           Example.idB
           {| chat_atIso := 3; chat_from := Some Example.idA;
              chat_fromName := Some (js "Alice"); chat_to := None;
              chat_toName := None; chat_text := js "hello";
              chat_private := false |}).
  - apply reachable_after.
  - reflexivity.
  - vm_compute. repeat (first [by left|right]).
Defined.
